(** * openapi-extractor: a shallow embedding of cmd/openapi-extractor/main.go

    The development follows the program bottom-up:

    - [json]: the byte scanner of Go's encoding/json together with
      [Indent] and [Compact], which [writeJSONFile] relies on;
    - [filepath]: [Base], [Clean] and [Join] of Go's path/filepath (Unix);
    - [persist]: [writeJSONFile] over a file map;
    - [extract]: [getPath], [extractOpenAPIv2] and [extractOpenAPIv3];
    - [poller]: [waitForAPIServicesOpenAPIV3] on top of
      wait.PollUntilContextTimeout, over a logical clock;
    - [run]: [extractOpenAPI] with its deferred teardown, and [main];
    - [legacy]: [main] and [writeFile] of the first revision of the file.

    Go strings and byte slices are lists of [ascii] bytes. *)

From Stdlib Require Import Ascii String ZArith Lia.
From stdpp Require Import gmap strings list sorting.

(* stdpp's set_solver clears hypotheses by name *)
#[local] Set Warnings "-clear-no-such-hyp".

Local Open Scope char_scope.

(** A Go string literal as a list of bytes. *)
Definition str (s : string) : list ascii := list_ascii_of_string s.

Definition byte_eq (a b : ascii) : bool := Ascii.eqb a b.
Definition byte_le (a b : ascii) : bool := (N_of_ascii a <=? N_of_ascii b)%N.
Definition byte_lt (a b : ascii) : bool := (N_of_ascii a <? N_of_ascii b)%N.

(** ** Go errors

    [wrap p e] is [fmt.Errorf(p ++ ": %w", e)]; [ext m] is an error
    produced by a collaborator (HTTP client, file system, process
    supervisor, JSON scanner) whose text is [m]. *)
Inductive error : Type :=
  | ctxCanceled
  | ctxDeadlineExceeded
  | ext (msg : list ascii)
  | wrap (prefix : list ascii) (cause : error).

Fixpoint Error (e : error) : list ascii :=
  match e with
  | ctxCanceled => str "context canceled"
  | ctxDeadlineExceeded => str "context deadline exceeded"
  | ext m => m
  | wrap p c => p ++ str ": " ++ Error c
  end.

(** errors.Is for the two context sentinels: follows the %w chain. *)
Fixpoint unwrap (e : error) : error :=
  match e with
  | wrap _ c => unwrap c
  | _ => e
  end.

(** * encoding/json: scanner, Indent, Compact *)
Module json.

(** The scanner's result codes, in the order of their iota values. *)
Inductive opcode : Type :=
  | scanContinue
  | scanBeginLiteral
  | scanBeginObject
  | scanObjectKey
  | scanObjectValue
  | scanEndObject
  | scanBeginArray
  | scanArrayValue
  | scanEndArray
  | scanSkipSpace
  | scanEnd
  | scanError.

Definition rank (v : opcode) : nat :=
  match v with
  | scanContinue => 0 | scanBeginLiteral => 1 | scanBeginObject => 2
  | scanObjectKey => 3 | scanObjectValue => 4 | scanEndObject => 5
  | scanBeginArray => 6 | scanArrayValue => 7 | scanEndArray => 8
  | scanSkipSpace => 9 | scanEnd => 10 | scanError => 11
  end.

Global Instance opcode_eq_dec : EqDecision opcode.
Proof. solve_decision. Defined.

Inductive parse : Type := parseObjectKey | parseObjectValue | parseArrayValue.

(** The value of the scanner's [step] field: one name per Go state function. *)
Inductive stepfn : Type :=
  | stBeginValueOrEmpty | stBeginValue | stBeginStringOrEmpty | stBeginString
  | stEndValue | stEndTop
  | stInString | stInStringEsc
  | stInStringEscU | stInStringEscU1 | stInStringEscU12 | stInStringEscU123
  | stNeg | st1 | st0 | stDot | stDot0 | stE | stESign | stE0
  | stT | stTr | stTru | stF | stFa | stFal | stFals | stN | stNu | stNul
  | stError.

(** The scanner. [parseState] is the stack of open composites, innermost
    first (Go appends at the end of a slice and reads its last element).
    [err] keeps the context part of the recorded SyntaxError's message
    (the quoted byte and the offset are left out). *)
Record scanner : Type := Scanner {
  step : stepfn;
  endTop : bool;
  parseState : list parse;
  err : option (list ascii)
}.

Definition maxNestingDepth : Z := 10000.

Definition newScanner : scanner :=
  {| step := stBeginValue; endTop := false; parseState := []; err := None |}.

Definition with_step (s : scanner) (f : stepfn) : scanner :=
  {| step := f; endTop := endTop s; parseState := parseState s; err := err s |}.

Definition with_parseState (s : scanner) (ps : list parse) : scanner :=
  {| step := step s; endTop := endTop s; parseState := ps; err := err s |}.

(** [s.error(c, context)] *)
Definition s_error (s : scanner) (context : string) : scanner * opcode :=
  ({| step := stError; endTop := endTop s; parseState := parseState s;
      err := Some (str context) |}, scanError).

(** [s.pushParseState(c, newParseState, successState)] *)
Definition pushParseState (s : scanner) (p : parse) (ok : opcode) : scanner * opcode :=
  let s := with_parseState s (p :: parseState s) in
  if (Z.of_nat (length (parseState s)) <=? maxNestingDepth)%Z then (s, ok)
  else s_error s "exceeded max depth".

(** [s.popParseState()] *)
Definition popParseState (s : scanner) : scanner :=
  match parseState s with
  | [] => s
  | _ :: rest =>
      match rest with
      | [] => {| step := stEndTop; endTop := true; parseState := rest; err := err s |}
      | _ => {| step := stEndValue; endTop := endTop s; parseState := rest; err := err s |}
      end
  end.

Definition isSpace (c : ascii) : bool :=
  byte_le c " " &&
  (byte_eq c " " || byte_eq c "009" || byte_eq c "013" || byte_eq c "010").

Definition isDigit (c : ascii) : bool := byte_le "0" c && byte_le c "9".
Definition isDigit19 (c : ascii) : bool := byte_le "1" c && byte_le c "9".
Definition isHex (c : ascii) : bool :=
  isDigit c || (byte_le "a" c && byte_le c "f") || (byte_le "A" c && byte_le c "F").

Definition stateEndTop (s : scanner) (c : ascii) : scanner * opcode :=
  if negb (isSpace c) then (fst (s_error s "after top-level value"), scanEnd)
  else (s, scanEnd).

Definition stateEndValue (s : scanner) (c : ascii) : scanner * opcode :=
  match parseState s with
  | [] =>
      stateEndTop {| step := stEndTop; endTop := true;
                     parseState := parseState s; err := err s |} c
  | ps :: _ =>
      if isSpace c then (with_step s stEndValue, scanSkipSpace)
      else match ps with
      | parseObjectKey =>
          if byte_eq c ":" then
            (with_step (with_parseState s (parseObjectValue :: tl (parseState s)))
               stBeginValue, scanObjectKey)
          else s_error s "after object key"
      | parseObjectValue =>
          if byte_eq c "," then
            (with_step (with_parseState s (parseObjectKey :: tl (parseState s)))
               stBeginString, scanObjectValue)
          else if byte_eq c "}" then (popParseState s, scanEndObject)
          else s_error s "after object key:value pair"
      | parseArrayValue =>
          if byte_eq c "," then (with_step s stBeginValue, scanArrayValue)
          else if byte_eq c "]" then (popParseState s, scanEndArray)
          else s_error s "after array element"
      end
  end.

Definition stateBeginValue (s : scanner) (c : ascii) : scanner * opcode :=
  if isSpace c then (s, scanSkipSpace)
  else if byte_eq c "{" then
    pushParseState (with_step s stBeginStringOrEmpty) parseObjectKey scanBeginObject
  else if byte_eq c "[" then
    pushParseState (with_step s stBeginValueOrEmpty) parseArrayValue scanBeginArray
  else if byte_eq c "034" then (with_step s stInString, scanBeginLiteral)
  else if byte_eq c "-" then (with_step s stNeg, scanBeginLiteral)
  else if byte_eq c "0" then (with_step s st0, scanBeginLiteral)
  else if byte_eq c "t" then (with_step s stT, scanBeginLiteral)
  else if byte_eq c "f" then (with_step s stF, scanBeginLiteral)
  else if byte_eq c "n" then (with_step s stN, scanBeginLiteral)
  else if isDigit19 c then (with_step s st1, scanBeginLiteral)
  else s_error s "looking for beginning of value".

Definition stateBeginValueOrEmpty (s : scanner) (c : ascii) : scanner * opcode :=
  if isSpace c then (s, scanSkipSpace)
  else if byte_eq c "]" then stateEndValue s c
  else stateBeginValue s c.

Definition stateBeginString (s : scanner) (c : ascii) : scanner * opcode :=
  if isSpace c then (s, scanSkipSpace)
  else if byte_eq c "034" then (with_step s stInString, scanBeginLiteral)
  else s_error s "looking for beginning of object key string".

Definition stateBeginStringOrEmpty (s : scanner) (c : ascii) : scanner * opcode :=
  if isSpace c then (s, scanSkipSpace)
  else if byte_eq c "}" then
    stateEndValue (with_parseState s (parseObjectValue :: tl (parseState s))) c
  else stateBeginString s c.

Definition stateInString (s : scanner) (c : ascii) : scanner * opcode :=
  if byte_eq c "034" then (with_step s stEndValue, scanContinue)
  else if byte_eq c "\" then (with_step s stInStringEsc, scanContinue)
  else if byte_lt c " " then s_error s "in string literal"
  else (s, scanContinue).

Definition stateInStringEsc (s : scanner) (c : ascii) : scanner * opcode :=
  if byte_eq c "b" || byte_eq c "f" || byte_eq c "n" || byte_eq c "r"
     || byte_eq c "t" || byte_eq c "\" || byte_eq c "/" || byte_eq c "034"
  then (with_step s stInString, scanContinue)
  else if byte_eq c "u" then (with_step s stInStringEscU, scanContinue)
  else s_error s "in string escape code".

(** The four states of a \u escape share their shape. *)
Definition stateHex (next : stepfn) (s : scanner) (c : ascii) : scanner * opcode :=
  if isHex c then (with_step s next, scanContinue)
  else s_error s "in \u hexadecimal character escape".

Definition stateNeg (s : scanner) (c : ascii) : scanner * opcode :=
  if byte_eq c "0" then (with_step s st0, scanContinue)
  else if isDigit19 c then (with_step s st1, scanContinue)
  else s_error s "in numeric literal".

Definition state0 (s : scanner) (c : ascii) : scanner * opcode :=
  if byte_eq c "." then (with_step s stDot, scanContinue)
  else if byte_eq c "e" || byte_eq c "E" then (with_step s stE, scanContinue)
  else stateEndValue s c.

Definition state1 (s : scanner) (c : ascii) : scanner * opcode :=
  if isDigit c then (with_step s st1, scanContinue)
  else state0 s c.

Definition stateDot (s : scanner) (c : ascii) : scanner * opcode :=
  if isDigit c then (with_step s stDot0, scanContinue)
  else s_error s "after decimal point in numeric literal".

Definition stateDot0 (s : scanner) (c : ascii) : scanner * opcode :=
  if isDigit c then (s, scanContinue)
  else if byte_eq c "e" || byte_eq c "E" then (with_step s stE, scanContinue)
  else stateEndValue s c.

Definition stateESign (s : scanner) (c : ascii) : scanner * opcode :=
  if isDigit c then (with_step s stE0, scanContinue)
  else s_error s "in exponent of numeric literal".

Definition stateE (s : scanner) (c : ascii) : scanner * opcode :=
  if byte_eq c "+" || byte_eq c "-" then (with_step s stESign, scanContinue)
  else stateESign s c.

Definition stateE0 (s : scanner) (c : ascii) : scanner * opcode :=
  if isDigit c then (s, scanContinue)
  else stateEndValue s c.

(** One letter of [true], [false] or [null]. *)
Definition stateLit (want : ascii) (next : stepfn) (context : string)
    (s : scanner) (c : ascii) : scanner * opcode :=
  if byte_eq c want then (with_step s next, scanContinue)
  else s_error s context.

Definition stateError (s : scanner) (c : ascii) : scanner * opcode := (s, scanError).

(** [s.step(s, c)]: call the state function the scanner currently holds. *)
Definition scan (s : scanner) (c : ascii) : scanner * opcode :=
  match step s with
  | stBeginValueOrEmpty => stateBeginValueOrEmpty s c
  | stBeginValue => stateBeginValue s c
  | stBeginStringOrEmpty => stateBeginStringOrEmpty s c
  | stBeginString => stateBeginString s c
  | stEndValue => stateEndValue s c
  | stEndTop => stateEndTop s c
  | stInString => stateInString s c
  | stInStringEsc => stateInStringEsc s c
  | stInStringEscU => stateHex stInStringEscU1 s c
  | stInStringEscU1 => stateHex stInStringEscU12 s c
  | stInStringEscU12 => stateHex stInStringEscU123 s c
  | stInStringEscU123 => stateHex stInString s c
  | stNeg => stateNeg s c
  | st1 => state1 s c
  | st0 => state0 s c
  | stDot => stateDot s c
  | stDot0 => stateDot0 s c
  | stE => stateE s c
  | stESign => stateESign s c
  | stE0 => stateE0 s c
  | stT => stateLit "r" stTr "in literal true (expecting 'r')" s c
  | stTr => stateLit "u" stTru "in literal true (expecting 'u')" s c
  | stTru => stateLit "e" stEndValue "in literal true (expecting 'e')" s c
  | stF => stateLit "a" stFa "in literal false (expecting 'a')" s c
  | stFa => stateLit "l" stFal "in literal false (expecting 'l')" s c
  | stFal => stateLit "s" stFals "in literal false (expecting 's')" s c
  | stFals => stateLit "e" stEndValue "in literal false (expecting 'e')" s c
  | stN => stateLit "u" stNu "in literal null (expecting 'u')" s c
  | stNu => stateLit "l" stNul "in literal null (expecting 'l')" s c
  | stNul => stateLit "l" stEndValue "in literal null (expecting 'l')" s c
  | stError => stateError s c
  end.

(** [s.eof()]: [scanEnd] when the input seen so far is a complete value,
    [scanError] otherwise, with the error recorded in the scanner. *)
Definition eof (s : scanner) : scanner * opcode :=
  match err s with
  | Some _ => (s, scanError)
  | None =>
      if endTop s then (s, scanEnd)
      else
        let s' := fst (scan s " ") in
        if endTop s' then (s', scanEnd)
        else
          match err s' with
          | Some _ => (s', scanError)
          | None =>
              ({| step := step s'; endTop := endTop s'; parseState := parseState s';
                  err := Some (str "unexpected end of JSON input") |}, scanError)
          end
  end.

(** What [Indent] and [Compact] return after their loop: the bytes
    written, or [scan.err] when [eof] reports an error. *)
Definition finish (s : scanner) (out : list ascii) : error + list ascii :=
  let '(s, v) := eof s in
  match v with
  | scanError => inl (ext (default [] (err s)))
  | _ => inr out
  end.

(** [newline(dst, prefix, indent, depth)] *)
Definition newline (prefix indent : list ascii) (depth : Z) : list ascii :=
  "010" :: prefix ++ concat (replicate (Z.to_nat depth) indent).

Section Indent.
Variables prefix indent : list ascii.

(** The body of [Indent]'s loop for a byte [c] whose result code [v] is
    neither [scanSkipSpace] nor [scanError]: the bytes it writes to [dst]
    and the values of [needIndent] and [depth] it leaves. *)
Definition indent_byte (needIndent : bool) (depth : Z) (c : ascii) (v : opcode)
    : list ascii * bool * Z :=
  let fire :=
    needIndent &&
    match v with scanEndObject | scanEndArray => false | _ => true end in
  let pre := if fire then newline prefix indent (depth + 1) else [] in
  let needIndent := if fire then false else needIndent in
  let depth := if fire then (depth + 1)%Z else depth in
  match v with
  | scanContinue => (pre ++ [c], needIndent, depth)
  | _ =>
      if byte_eq c "{" || byte_eq c "[" then (pre ++ [c], true, depth)
      else if byte_eq c "," then
        (pre ++ c :: newline prefix indent depth, needIndent, depth)
      else if byte_eq c ":" then (pre ++ [c; " "], needIndent, depth)
      else if byte_eq c "}" || byte_eq c "]" then
        if needIndent then (pre ++ [c], false, depth)
        else (pre ++ newline prefix indent (depth - 1) ++ [c], needIndent, (depth - 1)%Z)
      else (pre ++ [c], needIndent, depth)
  end.

(** The loop of [Indent]; the result is the scanner at the end (or at
    the [break]) and the bytes written to [dst], in order. *)
Fixpoint indent_loop (s : scanner) (needIndent : bool) (depth : Z)
    (src : list ascii) : scanner * list ascii :=
  match src with
  | [] => (s, [])
  | c :: src =>
      let '(s, v) := scan s c in
      match v with
      | scanSkipSpace => indent_loop s needIndent depth src
      | scanError => (s, [])
      | _ =>
          let '(w, needIndent, depth) := indent_byte needIndent depth c v in
          let '(s', out) := indent_loop s needIndent depth src in
          (s', w ++ out)
      end
  end.

(** [json.Indent] into an empty buffer: the bytes, or the syntax error. *)
Definition Indent (src : list ascii) : error + list ascii :=
  let '(s, out) := indent_loop newScanner false 0 src in
  finish s out.
End Indent.

(** The loop of [compact] with [escape = false]: a byte is copied unless
    its result code is [scanSkipSpace] or later. *)
Fixpoint compact_loop (s : scanner) (src : list ascii) : scanner * list ascii :=
  match src with
  | [] => (s, [])
  | c :: src =>
      let '(s, v) := scan s c in
      match v with
      | scanError => (s, [])
      | scanSkipSpace | scanEnd => compact_loop s src
      | _ => let '(s', out) := compact_loop s src in (s', c :: out)
      end
  end.

(** [json.Compact] into an empty buffer. *)
Definition Compact (src : list ascii) : error + list ascii :=
  let '(s, out) := compact_loop newScanner src in
  finish s out.

End json.



(** * path/filepath on Unix: Base, Clean, Join *)
Module filepath.

Definition Separator : ascii := "/".

(** [os.IsPathSeparator] *)
Definition isSep (c : ascii) : bool := byte_eq c Separator.

Fixpoint dropSeps (l : list ascii) : list ascii :=
  match l with
  | c :: l' => if isSep c then dropSeps l' else l
  | [] => []
  end.

Fixpoint takeElem (l : list ascii) : list ascii :=
  match l with
  | c :: l' => if isSep c then [] else c :: takeElem l'
  | [] => []
  end.

(** [filepath.Base]: both loops of the Go function walk the path from its
    end, so they run here on the reversed path. *)
Definition Base (path : list ascii) : list ascii :=
  match path with
  | [] => str "."
  | _ =>
      let stripped := dropSeps (reverse path) in
      match reverse (takeElem stripped) with
      | [] => [Separator]
      | elem => elem
      end
  end.

(** The elements of a path: the byte runs between separators. *)
Fixpoint elements (path : list ascii) : list (list ascii) :=
  match path with
  | [] => [[]]
  | c :: path' =>
      if isSep c then [] :: elements path'
      else match elements path' with
           | e :: es => (c :: e) :: es
           | [] => [[c]]
           end
  end.

(** One iteration of [Clean]'s loop, on the element that starts at the
    read index. [out] holds the elements written so far, last first.
    A written [..] cannot be backtracked over ([out.w = dotdot]). *)
Definition clean_elem (rooted : bool) (out : list (list ascii)) (e : list ascii)
    : list (list ascii) :=
  if decide (e = []) then out
  else if decide (e = str ".") then out
  else if decide (e = str "..") then
    match out with
    | top :: rest =>
        if decide (top = str "..") then e :: out else rest
    | [] => if rooted then out else [e]
    end
  else e :: out.

(** [strings.Join(elems, "/")] *)
Fixpoint joinSep (elems : list (list ascii)) : list ascii :=
  match elems with
  | [] => []
  | [e] => e
  | e :: es => e ++ Separator :: joinSep es
  end.

(** [filepath.Clean] *)
Definition Clean (path : list ascii) : list ascii :=
  let rooted := match path with c :: _ => isSep c | [] => false end in
  let out := foldl (clean_elem rooted) [] (elements path) in
  if rooted then Separator :: joinSep (reverse out)
  else match out with
       | [] => str "."
       | _ => joinSep (reverse out)
       end.

(** [filepath.Join]: empty leading elements are ignored. *)
Fixpoint Join (elem : list (list ascii)) : list ascii :=
  match elem with
  | [] => []
  | e :: rest =>
      match e with
      | [] => Join rest
      | _ => Clean (joinSep elem)
      end
  end.

End filepath.

(** * API objects *)
Module schema.
Record GroupVersion : Type := { Group : list ascii; Version : list ascii }.

Global Instance GroupVersion_eq_dec : EqDecision GroupVersion.
Proof. solve_decision. Defined.

Global Instance GroupVersion_countable : Countable GroupVersion :=
  inj_countable' (fun gv => (Group gv, Version gv))
                 (fun p => {| Group := p.1; Version := p.2 |})
                 (fun gv => match gv with Build_GroupVersion _ _ => eq_refl end).

(** [GroupVersion.String] *)
Definition String (gv : GroupVersion) : list ascii :=
  match Group gv with
  | [] => Version gv
  | g => g ++ str "/" ++ Version gv
  end.
End schema.

Module apiregistrationv1.
Record APIServiceSpec : Type := { Group : list ascii; Version : list ascii }.
Record APIService : Type := { Spec : APIServiceSpec }.
End apiregistrationv1.

Abbreviation GroupVersion := schema.GroupVersion.
Abbreviation APIService := apiregistrationv1.APIService.

(** * The world the program acts on *)

(** What one [os.WriteFile] call does: it writes everything, fails before
    the file is opened, or fails after the file was truncated and [n]
    bytes were written. *)
Inductive WriteOutcome : Type :=
  | WriteOk
  | OpenFailed (e : error)
  | WriteFailed (n : nat) (e : error).

Inductive Event : Type :=
  | LogInfo (msg : list ascii) (keysAndValues : list (list ascii))
  | LogError (e : error) (msg : list ascii)
  | MkdirAll (dir : list ascii)
  | WriteFile (filename : list ascii) (data : list ascii)
  | Get (path : list ascii)
  | Head (path : list ascii)
  | StartControlPlane
  | StopControlPlane
  | StartAPIServer
  | StopAPIServer
  | WaitAPIServicesReady
  | Exit (code : Z).

Global Instance error_eq_dec : EqDecision error.
Proof. solve_decision. Defined.

Global Instance Event_eq_dec : EqDecision Event.
Proof. solve_decision. Defined.

(** The state: what has happened so far and the regular files on disk. *)
Record World : Type := {
  trace : list Event;
  files : gmap (list ascii) (list ascii)
}.

(** The collaborators. Every answer may depend on the events so far. *)
Record Env : Type := {
  http_get : list Event -> list ascii -> error + list ascii;
  os_MkdirAll : list Event -> list ascii -> option error;
  os_WriteFile : list Event -> list ascii -> list ascii -> WriteOutcome
}.

(** Go functions returning [(T, error)] and acting on the world. *)
Definition M (A : Type) : Type := World -> (error + A) * World.

Global Instance M_ret : MRet M := fun A a w => (inr a, w).
Global Instance M_bind : MBind M := fun A B f m w =>
  match m w with
  | (inl e, w') => (inl e, w')
  | (inr a, w') => f a w'
  end.

Definition emit (ev : Event) : M unit := fun w =>
  (inr tt, {| trace := trace w ++ [ev]; files := files w |}).

Definition fail {A} (e : error) : M A := fun w => (inl e, w).

(** [if err != nil { return fmt.Errorf(prefix + ": %w", err) }] *)
Definition orWrap {A} (prefix : list ascii) (m : M A) : M A := fun w =>
  match m w with
  | (inl e, w') => (inl (wrap prefix e), w')
  | r => r
  end.

(** The [error] a Go function of result type [error] returns. *)
Definition result_of {A} (r : (error + A) * World) : option error :=
  match r.1 with inl e => Some e | inr _ => None end.

(** * Persistence *)
Module persist.
Section persist.
Variable env : Env.

Definition MkdirAll_ (dir : list ascii) : M unit := fun w =>
  let w' := {| trace := trace w ++ [MkdirAll dir]; files := files w |} in
  match os_MkdirAll env (trace w) dir with
  | Some e => (inl e, w')
  | None => (inr tt, w')
  end.

Definition WriteFile_ (filename data : list ascii) : M unit := fun w =>
  let tr := trace w ++ [WriteFile filename data] in
  match os_WriteFile env (trace w) filename data with
  | WriteOk => (inr tt, {| trace := tr; files := <[filename := data]> (files w) |})
  | OpenFailed e => (inl e, {| trace := tr; files := files w |})
  | WriteFailed n e =>
      (inl e, {| trace := tr; files := <[filename := take n data]> (files w) |})
  end.

(** [json.Indent(&out, jsonData, "", "\t")] *)
Definition Indent_ (jsonData : list ascii) : M (list ascii) := fun w =>
  (json.Indent [] ["009"] jsonData, w).

(** The path [writeJSONFile] writes to. *)
Definition destination (dir name : list ascii) : list ascii :=
  filepath.Join [dir; filepath.Base name].

Definition writeJSONFile (dir name jsonData : list ascii) : M unit :=
  emit (LogInfo (str "Writing file") [str "OutputDirectory"; dir; str "File"; name]);;
  orWrap (str "failed to create output directory " ++ dir) (MkdirAll_ dir);;
  out ← orWrap (str "failed to pretty print JSON") (Indent_ jsonData);
  let filename := destination dir name in
  orWrap (str "error writing file " ++ filename) (WriteFile_ filename out).

End persist.
End persist.

(** * Extraction *)
Module extract.
Import apiregistrationv1.
Section extract.
Variable env : Env.

Definition getPath (path : list ascii) : M (list ascii) := fun w =>
  let w' := {| trace := trace w ++ [Get path]; files := files w |} in
  match http_get env (trace w) path with
  | inl e => (inl (wrap (str "failed to get path " ++ path) e), w')
  | inr resp => (inr resp, w')
  end.

Definition v3FileName (svc : APIService) : list ascii :=
  str "apis__" ++ Group (Spec svc) ++ str "__" ++ Version (Spec svc) ++ str "_openapi.json".

Definition v3Path (group version : list ascii) : list ascii :=
  str "/openapi/v3/apis/" ++ group ++ str "/" ++ version.

Definition v3Dir (outputDir : list ascii) : list ascii := outputDir ++ str "/" ++ str "v3".

(** The body of the [for _, apiService := range apiServices] loop. *)
Definition extractOne (outputDir : list ascii) (apiService : APIService) : M unit :=
  let fileName := v3FileName apiService in
  let path := v3Path (Group (Spec apiService)) (Version (Spec apiService)) in
  resp ← orWrap (str "failed to get OpenAPI v3 path " ++ path) (getPath path);
  orWrap (str "failed to write OpenAPI v3 file")
    (persist.writeJSONFile env (v3Dir outputDir) fileName resp).

Fixpoint forEach {A} (body : A -> M unit) (l : list A) : M unit :=
  match l with
  | [] => mret tt
  | x :: l' => body x;; forEach body l'
  end.

Definition extractOpenAPIv3 (apiServices : list APIService) (outputDir : list ascii) : M unit :=
  emit (LogInfo (str "Extracting OpenAPI v3") []);;
  forEach (extractOne outputDir) apiServices.

Definition extractOpenAPIv2 (outputDir : list ascii) : M unit :=
  emit (LogInfo (str "Extracting OpenAPI v2") []);;
  let path := str "/openapi/v2" in
  resp ← orWrap (str "failed to get OpenAPI v3 path " ++ path) (getPath path);
  orWrap (str "failed to write OpenAPI v2 file")
    (persist.writeJSONFile env outputDir (str "swagger.json") resp).

End extract.
End extract.

(** * context.Context over a logical clock *)
Module context.

(** A context is done from the instant its cancellation signal fires or
    its deadline passes, whichever comes first. *)
Record Context : Type := {
  cancelAt : option nat;
  deadlineAt : option nat
}.

Definition Background : Context := {| cancelAt := None; deadlineAt := None |}.

(** [context.WithTimeout(parent, timeout)] called at instant [now]. *)
Definition WithTimeout (parent : Context) (now timeout : nat) : Context :=
  {| cancelAt := cancelAt parent;
     deadlineAt := Some (match deadlineAt parent with
                         | Some d => d `min` (now + timeout)
                         | None => now + timeout
                         end) |}.

(** [ctx.Err()] at instant [t]. *)
Definition Err (ctx : Context) (t : nat) : option error :=
  match cancelAt ctx, deadlineAt ctx with
  | Some c, Some d =>
      if bool_decide (c <= t /\ c <= d) then Some ctxCanceled
      else if bool_decide (d <= t) then Some ctxDeadlineExceeded
      else None
  | Some c, None => if bool_decide (c <= t) then Some ctxCanceled else None
  | None, Some d => if bool_decide (d <= t) then Some ctxDeadlineExceeded else None
  | None, None => None
  end.

(** The instant [ctx.Done()] is closed. *)
Definition doneAt (ctx : Context) : option nat :=
  match cancelAt ctx, deadlineAt ctx with
  | Some c, Some d => Some (c `min` d)
  | Some c, None => Some c
  | None, Some d => Some d
  | None, None => None
  end.

End context.

(** * wait.PollUntilContextTimeout *)
Module wait.
Import context.
Section poll.
Context {St : Type}.

(** The condition function: called at an instant with the state its
    closure captured; answers [(done, err)], the new state and the
    instant it returns. *)
Variable condition : Context -> St -> nat -> bool * option error * St * nat.

(** The period of the poll timer, in ticks. *)
Variable interval : nat.

(** The race between the ticker and the context. When the loop is
    blocked in its [select] and the tick and the context's done signal
    arrive at the same instant, either may be taken, and when the tick is
    taken the re-check of the context may still find it live:
    [tickFirst t] says that this is what happens at instant [t]. *)
Variable tickFirst : nat -> bool.

(** What a poll returns: the error, the state the closure is left with
    and the instant of the return. *)
Definition Outcome : Type := option error * St * nat.

(** The ticker behind [Backoff{Duration: interval}.Timer()]: it ticks
    every [interval] from its creation and its channel holds one tick,
    later ones are dropped while that one waits. With the tick received at
    instant [wake] being the one of instant [fire], the next tick to be
    received is the first one of the ticker after [wake]. *)
Definition next_tick (fire wake : nat) : nat :=
  fire + interval * (1 + (wake - fire) / interval).

(** The [select] and the re-check of the context, entered at instant
    [t] with the next tick due at [fire]: whether the loop leaves with
    the context's error. It does when the context is done before the tick
    can be taken: the [select] takes the done signal, or it takes a tick
    that was waiting and the re-check finds the context done. When the
    loop waits for the tick, and tick and done signal come at the same
    instant, it leaves unless the tick wins the race. *)
Definition leaves (ctx : Context) (t fire : nat) : bool :=
  let wake := t `max` fire in
  match doneAt ctx with
  | Some d =>
      bool_decide (d < wake)
      || (bool_decide (d = wake) && negb (bool_decide (t < fire) && tickFirst wake))
  | None => false
  end.

(** The [for] loop of [loopConditionUntilContext] as
    [PollUntilContextTimeout] runs it ([sliding = false]), entered at
    instant [t] with the next tick due at [fire]: wait for the context or
    the tick, re-check the context, call the condition. [fuel] bounds the
    number of iterations. *)
Fixpoint loop (fuel : nat) (ctx : Context) (st : St) (t fire : nat) : option Outcome :=
  match fuel with
  | 0 => None
  | S fuel =>
      let wake := t `max` fire in
      if leaves ctx t fire then
        let t' := match doneAt ctx with Some d => t `max` d | None => t end in
        Some (Err ctx t', st, t')
      else
        let '(done, err, st', t') := condition ctx st wake in
        match err with
        | Some e => Some (Some e, st', t')
        | None =>
            if done then Some (None, st', t')
            else loop fuel ctx st' t' (next_tick fire wake)
        end
  end.

(** [PollUntilContextTimeout(ctx, interval, timeout, true, condition)]
    called at instant [now]: the ticker is created, the condition is
    called once without waiting ([immediate = true]), then the loop runs,
    all under the deadline context. *)
Definition PollUntilContextTimeout (ctx : Context) (now timeout : nat) (st : St)
    : option Outcome :=
  let deadlineCtx := WithTimeout ctx now timeout in
  let '(done, err, st', t') := condition deadlineCtx st now in
  match err with
  | Some e => Some (Some e, st', t')
  | None =>
      if done then Some (None, st', t')
      else loop (S timeout) deadlineCtx st' t' (now + interval)
  end.

End poll.
End wait.

(** * The readiness poller *)
Module poller.
Import context apiregistrationv1.

(** One round of the condition closure: the set it ranged over, the
    instant it began, the probes it issued, in order, each with whether
    the request returned a nil error, and the instant the last of them
    returned. *)
Record Round : Type := {
  pre : gset GroupVersion;
  began : nat;
  probes : list (GroupVersion * bool);
  ended : nat
}.

(** The closure's captured variable together with what it did so far. *)
Record State : Type := {
  testGVs : gset GroupVersion;
  rounds : list Round;
  events : list Event
}.

(** Insertion into a list sorted by [less]. *)
Fixpoint insert_by {A} (less : A -> A -> bool) (x : A) (l : list A) : list A :=
  match l with
  | [] => [x]
  | y :: l' => if less y x then y :: insert_by less x l' else x :: l
  end.

(** Lexicographic [<] on Go strings. *)
Fixpoint bytes_lt (a b : list ascii) : bool :=
  match a, b with
  | _, [] => false
  | [], _ :: _ => true
  | x :: a', y :: b' => byte_lt x y || (byte_eq x y && bytes_lt a' b')
  end.

(** [sortedGroupVersions]: [sort.Slice] on the [String()] keys. Go leaves
    the order of elements with equal keys open; this sort keeps one. *)
Definition sortedGroupVersions (gvs : list GroupVersion) : list GroupVersion :=
  foldr (insert_by (fun a b => bytes_lt (schema.String a) (schema.String b))) [] gvs.

Definition probePath (gv : GroupVersion) : list ascii :=
  str "/openapi/v3/apis/" ++ schema.Group gv ++ str "/" ++ schema.Version gv.

Section poller.

(** [head t gv]: a HEAD request for [gv]'s discovery path issued at
    instant [t] returns a nil error when it is left to finish. *)
Variable head : nat -> GroupVersion -> bool.

(** [latency t gv]: how long the request issued at instant [t] for [gv]
    takes to be answered. *)
Variable latency : nat -> GroupVersion -> nat.

(** The order in which Go ranges over the set at instant [t]. *)
Variable range : nat -> gset GroupVersion -> list GroupVersion.

(** Who wins when a tick and the context race ([wait.leaves]), and the
    poll interval. *)
Variable tickFirst : nat -> bool.
Variable interval : nat.

(** One request [Do(ctx)], issued at instant [t]: whether it returned a
    nil error, and the instant it returned. Under a context that is done
    it fails at once; a context that becomes done while the request is in
    flight ends it, with an error, at that instant; an answer that arrives
    no later than that instant is received. *)
Definition probe (ctx : Context) (t : nat) (gv : GroupVersion) : bool * nat :=
  let answered := t + latency t gv in
  match doneAt ctx with
  | Some d =>
      if bool_decide (d <= t) then (false, t)
      else if bool_decide (d < answered) then (false, d)
      else (head t gv, answered)
  | None => (head t gv, answered)
  end.

(** The [for testGV := range testGVs] loop from instant [t]: the probes. *)
Fixpoint probeAll (ctx : Context) (t : nat) (gvs : list GroupVersion)
    : list (GroupVersion * bool) :=
  match gvs with
  | [] => []
  | gv :: gvs' => (gv, (probe ctx t gv).1) :: probeAll ctx (probe ctx t gv).2 gvs'
  end.

(** The instant that loop is over. *)
Fixpoint probeEnd (ctx : Context) (t : nat) (gvs : list GroupVersion) : nat :=
  match gvs with
  | [] => t
  | gv :: gvs' => probeEnd ctx (probe ctx t gv).2 gvs'
  end.

(** [newTestGVs]: the probed group-versions whose request failed. *)
Definition failed (ps : list (GroupVersion * bool)) : gset GroupVersion :=
  list_to_set (fst <$> filter (fun p => p.2 = false) ps).

(** The condition closure passed to [PollUntilContextTimeout]. *)
Definition condition (ctx : Context) (st : State) (t : nat)
    : bool * option error * State * nat :=
  let gvs := range t (testGVs st) in
  let ps := probeAll ctx t gvs in
  let t' := probeEnd ctx t gvs in
  let newTestGVs := failed ps in
  let r := {| pre := testGVs st; began := t; probes := ps; ended := t' |} in
  let evs := events st ++ (Head ∘ probePath ∘ fst <$> ps) in
  if bool_decide (size newTestGVs = 0) then
    (true, None,
     {| testGVs := testGVs st; rounds := rounds st ++ [r];
        events := evs ++ [LogInfo (str "All API services are available") []] |}, t')
  else
    (false, None,
     {| testGVs := newTestGVs; rounds := rounds st ++ [r];
        events := evs ++ [LogInfo (str "Not all API services are available")
          (str "UnavailableGroupVersions"
           :: (schema.String <$> sortedGroupVersions (range t' newTestGVs)))] |}, t').

(** The set built from the registered services before polling starts. *)
Definition initialGVs (services : list APIService) : gset GroupVersion :=
  list_to_set ((fun svc => {| schema.Group := Group (Spec svc);
                              schema.Version := Version (Spec svc) |}) <$> services).

(** [waitForAPIServicesOpenAPIV3], called at instant 0 of its clock. *)
Definition waitForAPIServicesOpenAPIV3 (ctx : Context) (timeout : nat)
    (services : list APIService) : option (option error * State * nat) :=
  let st := {| testGVs := initialGVs services; rounds := []; events := [] |} in
  match wait.PollUntilContextTimeout condition interval tickFirst ctx 0 timeout st with
  | Some (Some e, st', t) =>
      Some (Some (wrap (str "error waiting for api services to become available") e), st', t)
  | r => r
  end.

End poller.
End poller.

(** * The orchestrator *)
Module run.
Import context.

(** The process supervisors, the registrar and the client constructors,
    with the answer each gives in this run; the flags; the signal. *)
Record Harness : Type := {
  (** [envtestutils.StartWithExtensions]: the registered API services
      ([APIServiceInstallOptions.APIServices]) or the start error. *)
  StartWithExtensions : error + list APIService;
  StopWithExtensions : option error;
  client_New : option error;
  apiserver_New : option error;
  apiSrv_Start : option error;
  apiSrv_Stop : option error;
  WaitUntilAPIServicesReadyWithTimeout : option error;
  kubernetes_NewForConfig : option error;
  (** the readiness probes and how long each takes, the map iteration
      order, who wins when a tick and the context race, ticks per second *)
  head : nat -> GroupVersion -> bool;
  latency : nat -> GroupVersion -> nat;
  range : nat -> gset GroupVersion -> list GroupVersion;
  tickFirst : nat -> bool;
  second : nat;
  (** the instant, on the poller's clock, the process is signalled *)
  signalAt : option nat;
  (** flags [--output] and [--openapi-timeout] *)
  outputDir : list ascii;
  openapiTimeout : nat
}.

Section run.
Variable env : Env.
Variable h : Harness.

(** A call whose only observable part is its error. *)
Definition call (ev : list Event) (r : option error) : M unit := fun w =>
  let w' := {| trace := trace w ++ ev; files := files w |} in
  match r with
  | Some e => (inl e, w')
  | None => (inr tt, w')
  end.

(** [defer func() { if err := stop(); err != nil { log.Error(err, msg) } }()]
    around the rest of the function body: the deferred call runs when
    the body returns, whatever it returns, and cannot change the result. *)
Definition defer {A} (ev : Event) (r : option error) (msg : list ascii)
    (body : M A) : M A := fun w =>
  let '(res, w') := body w in
  let logged := match r with Some e => [LogError e msg] | None => [] end in
  (res, {| trace := trace w' ++ ev :: logged; files := files w' |}).

Definition startTestEnv : M (list APIService) := fun w =>
  let w' := {| trace := trace w ++ [StartControlPlane]; files := files w |} in
  (StartWithExtensions h, w').

(** The call of [waitForAPIServicesOpenAPIV3] with the signal context. *)
Definition waitForAPIServices (services : list APIService) : M unit := fun w =>
  let ctx := {| cancelAt := signalAt h; deadlineAt := None |} in
  match poller.waitForAPIServicesOpenAPIV3 (head h) (latency h) (range h) (tickFirst h) (second h)
          ctx (openapiTimeout h) services with
  | Some (r, st, _) =>
      let w' := {| trace := trace w ++ poller.events st; files := files w |} in
      match r with
      | Some e => (inl e, w')
      | None => (inr tt, w')
      end
  | None => (inl (ext (str "poll loop out of fuel")), w)
  end.

Definition extractOpenAPI : M unit :=
  services ← orWrap (str "failed to start testenv") startTestEnv;
  defer StopControlPlane (StopWithExtensions h) (str "failed to stop testenv") (
    orWrap (str "failed to create Kubernetes client") (call [] (client_New h));;
    orWrap (str "failed to setup api server") (call [] (apiserver_New h));;
    orWrap (str "failed to start api server") (call [StartAPIServer] (apiSrv_Start h));;
    defer StopAPIServer (apiSrv_Stop h) (str "failed to stop api server") (
      orWrap (str "failed to wait for api server to become ready")
        (call [WaitAPIServicesReady] (WaitUntilAPIServicesReadyWithTimeout h));;
      orWrap (str "failed to create clientset from config")
        (call [] (kubernetes_NewForConfig h));;
      orWrap (str "failed to wait for the api services to become available")
        (waitForAPIServices services);;
      orWrap (str "failed to extract OpenAPI v2 spec")
        (extract.extractOpenAPIv2 env (outputDir h));;
      orWrap (str "failed to extract OpenAPI v3 spec")
        (extract.extractOpenAPIv3 env services (outputDir h)))).

(** [main] after flag parsing: the exit code and the final world. *)
Definition main (w : World) : Z * World :=
  match extractOpenAPI w with
  | (inl e, w') =>
      (1%Z, {| trace := trace w' ++ [LogError e (str "failed to extract OpenAPI"); Exit 1];
               files := files w' |})
  | (inr _, w') => (0%Z, w')
  end.

End run.
End run.

(** * Auxiliary notions used in the statements and proofs *)

(** ** The scanner under inserted and removed white space *)
Module json_inv.
Import json.

Definition allSpace (l : list ascii) : Prop := Forall (fun c => isSpace c = true) l.

(** States in which a number literal may end. *)
Definition numAcc (f : stepfn) : bool :=
  match f with st1 | st0 | stDot0 | stE0 => true | _ => false end.

Definition orEmpty (f : stepfn) : bool :=
  match f with stBeginValueOrEmpty | stBeginStringOrEmpty => true | _ => false end.

(** [eqv d s]: scanner [d] has seen the same bytes as [s] except for white
    space that [s] skipped right after a number. *)
Definition eqv (d s : scanner) : Prop :=
  d = s \/ (numAcc (step d) = true /\ parseState d <> [] /\ s = with_step d stEndValue).

Definition good (s : scanner) : Prop := err s = None /\ step s <> stError.

(** White space leaves an idle scanner where it is. *)
Definition idle (s : scanner) : Prop :=
  match step s with
  | stBeginValue | stBeginString | stBeginValueOrEmpty | stBeginStringOrEmpty => True
  | stEndValue => parseState s <> []
  | _ => False
  end.

(** While [s] waits for a closing bracket, [d] may already have consumed
    the white space written in front of it. *)
Definition closing (s d : scanner) : Prop :=
  eqv d s \/ (numAcc (step s) = true /\ parseState s <> [] /\ d = with_step s stEndValue).

(** What [compact] does with a byte whose result code is [v]. *)
Definition emitc (v : opcode) (c : ascii) (r : scanner * list ascii) : scanner * list ascii :=
  match v with
  | scanSkipSpace | scanEnd | scanError => r
  | _ => (r.1, c :: r.2)
  end.

Definition isEnd (v : opcode) : bool :=
  match v with scanEndObject | scanEndArray => true | _ => false end.

End json_inv.

(** ** Paths *)
Module filepath_inv.
Import filepath.

Definition noSep (b : list ascii) : Prop := Forall (fun c => isSep c = false) b.

(** A path element that names an entry: not empty, no separator, neither
    [.] nor [..]. *)
Definition properElem (b : list ascii) : Prop :=
  b <> [] /\ noSep b /\ b <> str "." /\ b <> str "..".

(** The path of entry [b] of the cleaned directory [d]. *)
Definition inDir (d b : list ascii) : list ascii :=
  if decide (d = str ".") then b
  else if decide (d = [Separator]) then Separator :: b
  else d ++ Separator :: b.

Definition rooted (path : list ascii) : bool :=
  match path with c :: _ => isSep c | [] => false end.

Definition stack (path : list ascii) : list (list ascii) :=
  foldl (clean_elem (rooted path)) [] (elements path).

Definition render (r : bool) (out : list (list ascii)) : list ascii :=
  if r then Separator :: joinSep (reverse out)
  else match out with
       | [] => str "."
       | _ => joinSep (reverse out)
       end.

(** Elements kept by [Clean] are never empty and never [.]. *)
Definition kept (e : list ascii) : Prop := e <> [] /\ e <> str "." /\ noSep e.

End filepath_inv.

(** ** Requests *)

(** The fetches and file writes of a run, without their payloads. *)
Inductive Req : Type :=
  | Fetch (path : list ascii)
  | Store (filename : list ascii).

Definition req_of (ev : Event) : option Req :=
  match ev with
  | Get p => Some (Fetch p)
  | WriteFile f _ => Some (Store f)
  | _ => None
  end.

Definition reqs (tr : list Event) : list Req := omap req_of tr.

Module extract_inv.
Import apiregistrationv1 extract.

(** Where the v3 document of a service is written. *)
Definition v3Destination (outputDir : list ascii) (svc : APIService) : list ascii :=
  persist.destination (v3Dir outputDir) (v3FileName svc).

Definition v2Destination (outputDir : list ascii) : list ascii :=
  persist.destination outputDir (str "swagger.json").

Definition svcPath (svc : APIService) : list ascii :=
  v3Path (Group (Spec svc)) (Version (Spec svc)).

(** The requests of a complete extraction, in order. *)
Definition plan3 (outputDir : list ascii) (services : list APIService) : list Req :=
  services ≫= (fun svc => [Fetch (svcPath svc); Store (v3Destination outputDir svc)]).

Definition plan (outputDir : list ascii) (services : list APIService) : list Req :=
  Fetch (str "/openapi/v2") :: Store (v2Destination outputDir) :: plan3 outputDir services.

Definition groupVersion (svc : APIService) : GroupVersion :=
  {| schema.Group := Group (Spec svc); schema.Version := Version (Spec svc) |}.

(** The files after the documents [outs] of [services] were written in order. *)
Definition written (out : list ascii) (services : list APIService)
    (outs : list (list ascii)) (fs : gmap (list ascii) (list ascii)) :=
  foldl (fun fs p => <[v3Destination out p.1 := p.2]> fs) fs (zip services outs).

End extract_inv.

(** ** Concrete inputs used in examples *)
Module samples.
Import apiregistrationv1.

Definition service (g v : string) : APIService :=
  {| Spec := {| Group := str g; Version := str v |} |}.

Definition gv (g v : string) : GroupVersion :=
  {| schema.Group := str g; schema.Version := str v |}.

(** The document [{"a": 1}], with a space after the colon. *)
Definition spaced : list ascii :=
  "{" :: "034" :: "a" :: "034" :: str ": 1}".

(** The document [{"a":1}]. *)
Definition compacted : list ascii :=
  "{" :: "034" :: "a" :: "034" :: str ":1}".

Definition w0 : World := {| trace := []; files := ∅ |}.

(** Every request is answered with [resp]; the file system never fails. *)
Definition env_ok (resp : list ascii) : Env :=
  {| http_get := fun _ _ => inr resp;
     os_MkdirAll := fun _ _ => None;
     os_WriteFile := fun _ _ _ => WriteOk |}.

Definition isWrite (ev : Event) : bool :=
  match ev with WriteFile _ _ => true | _ => false end.

(** As [env_ok], but the disk is full after the first file: every later
    [os.WriteFile] fails after truncating its file. *)
Definition env_full (resp : list ascii) : Env :=
  {| http_get := fun _ _ => inr resp;
     os_MkdirAll := fun _ _ => None;
     os_WriteFile := fun h _ _ =>
       if existsb isWrite h then WriteFailed 0 (ext (str "no space left on device"))
       else WriteOk |}.

(** As [env_ok], but the request for [bad] fails. *)
Definition env_unreachable (resp bad : list ascii) : Env :=
  {| http_get := fun _ p =>
       if decide (p = bad) then inl (ext (str "connection refused")) else inr resp;
     os_MkdirAll := fun _ _ => None;
     os_WriteFile := fun _ _ _ => WriteOk |}.

(** The outcome of a poll that returned. *)
Definition returned (out : option (option error * poller.State * nat))
    : option error * poller.State * nat :=
  default (None, {| poller.testGVs := ∅; poller.rounds := []; poller.events := [] |}, 0) out.

(** Probes: nothing ever answers. *)
Definition never : nat -> GroupVersion -> bool := fun _ _ => false.

(** Probes: everything answers from instant [t0] on. *)
Definition from (t0 : nat) : nat -> GroupVersion -> bool :=
  fun t _ => bool_decide (t0 <= t).

(** Every request takes one tick. *)
Definition oneTick : nat -> GroupVersion -> nat := fun _ _ => 1.

(** At a tie the context is seen first, or the tick. *)
Definition ctxFirst : nat -> bool := fun _ => false.

Definition tickWins : nat -> bool := fun _ => true.

(** Go's map iteration in the order of [elements]. *)
Definition inOrder : nat -> gset GroupVersion -> list GroupVersion :=
  fun _ => elements.

End samples.

(** ** The rounds of the readiness poller *)
Module poller_inv.
Import context poller.

Section poller_inv.
Variable head : nat -> GroupVersion -> bool.
Variable latency : nat -> GroupVersion -> nat.
Variable range : nat -> gset GroupVersion -> list GroupVersion.

(** A recorded round is the [range] loop run over its set. *)
Definition round_ok (ctx : Context) (r : Round) : Prop :=
  probes r = probeAll head latency ctx (began r) (range (began r) (pre r)) /\
  ended r = probeEnd head latency ctx (began r) (range (began r) (pre r)).

(** Rounds that start from the set [S], each from what its predecessor
    left unconfirmed. *)
Fixpoint chain (ctx : Context) (S : gset GroupVersion) (rs : list Round) : Prop :=
  match rs with
  | [] => True
  | r :: rs' => pre r = S /\ round_ok ctx r /\ chain ctx (failed (probes r)) rs'
  end.

(** The set left unconfirmed after the rounds [rs]. *)
Definition pending (S : gset GroupVersion) (rs : list Round) : gset GroupVersion :=
  match last rs with
  | Some r => failed (probes r)
  | None => S
  end.

(** The first round starts at instant 0, every later one no later
    than [D]. *)
Definition starts (D : nat) (rs : list Round) : Prop :=
  match rs with
  | [] => True
  | r :: rs' => began r = 0 /\ Forall (fun r => began r <= D) rs'
  end.

(** The log line that closes a round. *)
Definition round_log (r : Round) : Event :=
  if bool_decide (size (failed (probes r)) = 0) then
    LogInfo (str "All API services are available") []
  else
    LogInfo (str "Not all API services are available")
      (str "UnavailableGroupVersions"
       :: (schema.String <$> sortedGroupVersions (range (ended r) (failed (probes r))))).

Definition round_events (r : Round) : list Event :=
  (Head ∘ probePath ∘ fst <$> probes r) ++ [round_log r].

(** What holds of the closure's state between two rounds. *)
Definition Inv (ctx : Context) (D : nat) (S0 : gset GroupVersion) (st : State) : Prop :=
  chain ctx S0 (rounds st) /\ starts D (rounds st) /\
  testGVs st = pending S0 (rounds st) /\
  events st = rounds st ≫= round_events.

(** What holds of a poll that returned [r] in state [st] at instant [t]. *)
Definition Post (ctx : Context) (D : nat) (S0 : gset GroupVersion)
    (out : option error * State * nat) : Prop :=
  let '(r, st, t) := out in
  chain ctx S0 (rounds st) /\ starts D (rounds st) /\
  events st = rounds st ≫= round_events /\
  exists lastr, last (rounds st) = Some lastr /\
    match r with
    | None => size (failed (probes lastr)) = 0 /\ t = ended lastr
    | Some e =>
        Err ctx t = Some e /\ testGVs st = failed (probes lastr) /\
        size (testGVs st) <> 0 /\ t = ended lastr `max` D
    end.

End poller_inv.

(** The closure's state before the first round. *)
Definition initState (S0 : gset GroupVersion) : State :=
  {| testGVs := S0; rounds := []; events := [] |}.

(** [needle] occurs in [hay]. *)
Fixpoint isPrefix (a b : list ascii) : bool :=
  match a, b with
  | [], _ => true
  | x :: a', y :: b' => byte_eq x y && isPrefix a' b'
  | _, [] => false
  end.

Fixpoint contains (needle hay : list ascii) : bool :=
  isPrefix needle hay ||
  match hay with
  | [] => false
  | _ :: hay' => contains needle hay'
  end.

End poller_inv.

(** ** The orchestrator *)
Module run_inv.
Import run.

(** Starts and stops of the two supervised processes. *)
Definition isProcess (ev : Event) : bool :=
  match ev with
  | StartControlPlane | StopControlPlane | StartAPIServer | StopAPIServer => true
  | _ => false
  end.

(** [m] only appends events, all of them satisfying [P]. *)
Definition emits {A} (P : Event -> Prop) (m : M A) : Prop :=
  forall w, exists evs, trace (m w).2 = trace w ++ evs /\ Forall P evs.

(** Events of the extraction and persistence steps. *)
Definition ioEvent (ev : Event) : Prop :=
  match ev with
  | LogInfo _ _ | MkdirAll _ | WriteFile _ _ | Get _ => True
  | _ => False
  end.

(** Events of the readiness poller. *)
Definition pollEvent (ev : Event) : Prop :=
  match ev with
  | LogInfo _ _ | Head _ => True
  | _ => False
  end.

(** Events that are neither a request of the extraction nor a start or
    stop of a process. *)
Definition silent (ev : Event) : Prop := req_of ev = None /\ isProcess ev = false.

(** The world after further events. *)
Definition after (w : World) (evs : list Event) : World :=
  {| trace := trace w ++ evs; files := files w |}.

(** The collaborators of the extraction never fail and every document
    fetched is well-formed JSON. *)
Definition cooperative (env : Env) : Prop :=
  (forall hst p, exists resp out,
     http_get env hst p = inr resp /\ json.Indent [] ["009"] resp = inr out) /\
  (forall hst dir, os_MkdirAll env hst dir = None) /\
  (forall hst f data, os_WriteFile env hst f data = WriteOk).

(** The events of one deferred stop. *)
Definition teardown (ev : Event) (r : option error) (msg : list ascii) : list Event :=
  ev :: match r with Some e => [LogError e msg] | None => [] end.

Definition teardownAPIServer (h : Harness) : list Event :=
  teardown StopAPIServer (apiSrv_Stop h) (str "failed to stop api server").

Definition teardownControlPlane (h : Harness) : list Event :=
  teardown StopControlPlane (StopWithExtensions h) (str "failed to stop testenv").

(** The harness with other answers from the two stop calls. *)
Definition with_stops (h : Harness) (apiSrv testEnv : option error) : Harness :=
  {| StartWithExtensions := StartWithExtensions h;
     StopWithExtensions := testEnv;
     client_New := client_New h;
     apiserver_New := apiserver_New h;
     apiSrv_Start := apiSrv_Start h;
     apiSrv_Stop := apiSrv;
     WaitUntilAPIServicesReadyWithTimeout := WaitUntilAPIServicesReadyWithTimeout h;
     kubernetes_NewForConfig := kubernetes_NewForConfig h;
     head := head h; latency := latency h; range := range h;
     tickFirst := tickFirst h; second := second h;
     signalAt := signalAt h; outputDir := outputDir h;
     openapiTimeout := openapiTimeout h |}.

(** The statements of [extractOpenAPI] after the second [defer]. *)
Definition phases (env : Env) (h : Harness) (services : list APIService) : M unit :=
  orWrap (str "failed to wait for api server to become ready")
    (call [WaitAPIServicesReady] (WaitUntilAPIServicesReadyWithTimeout h));;
  orWrap (str "failed to create clientset from config")
    (call [] (kubernetes_NewForConfig h));;
  orWrap (str "failed to wait for the api services to become available")
    (waitForAPIServices h services);;
  orWrap (str "failed to extract OpenAPI v2 spec")
    (extract.extractOpenAPIv2 env (outputDir h));;
  orWrap (str "failed to extract OpenAPI v3 spec")
    (extract.extractOpenAPIv3 env services (outputDir h)).

End run_inv.

Module samples_run.
Import run samples.

(** A harness in which every collaborator succeeds and every
    group-version answers from instant 2 on, each request taking one
    tick. *)
Definition harness (services : list APIService) : Harness :=
  {| StartWithExtensions := inr services;
     StopWithExtensions := None;
     client_New := None;
     apiserver_New := None;
     apiSrv_Start := None;
     apiSrv_Stop := None;
     WaitUntilAPIServicesReadyWithTimeout := None;
     kubernetes_NewForConfig := None;
     head := from 2; latency := oneTick; range := inOrder;
     tickFirst := ctxFirst; second := 3;
     signalAt := None; outputDir := str "out"; openapiTimeout := 30 |}.

(** As [harness], but the aggregated server fails to start. *)
Definition harness_bad_binary (services : list APIService) : Harness :=
  {| StartWithExtensions := inr services;
     StopWithExtensions := None;
     client_New := None;
     apiserver_New := None;
     apiSrv_Start := Some (ext (str "fork/exec ./apiserver: no such file or directory"));
     apiSrv_Stop := None;
     WaitUntilAPIServicesReadyWithTimeout := None;
     kubernetes_NewForConfig := None;
     head := from 2; latency := oneTick; range := inOrder;
     tickFirst := ctxFirst; second := 3;
     signalAt := None; outputDir := str "out"; openapiTimeout := 30 |}.

End samples_run.

(** * Further notions: order of keys, pace of the poll, events of a run *)

Module order_inv.
Import poller.

(** Go's [a <= b] on strings, as [!(b < a)]. *)
Definition bytes_le (a b : list ascii) : Prop := bytes_lt b a = false.

(** The keys [String()] of a list never decrease from left to right. *)
Definition keySorted (gvs : list GroupVersion) : Prop :=
  StronglySorted (fun a b => bytes_le (schema.String a) (schema.String b)) gvs.

End order_inv.

Module pace_inv.
Import poller.

(** Round number [i] begins no earlier than [i] intervals after the
    poll began. *)
Definition paced (interval : nat) (rs : list Round) : Prop :=
  forall i rd, rs !! i = Some rd -> i * interval <= began rd.

End pace_inv.

Module confine_inv.
Import apiregistrationv1 extract extract_inv.

(** The events a run over the registered [services] with output
    directory [out] may add to the trace: requests for the v2 path and
    the services' v3 paths, the two directories, the destinations. *)
Definition allowed (out : list ascii) (services : list APIService) (ev : Event) : Prop :=
  match ev with
  | Get p => p = str "/openapi/v2" \/ exists svc, svc ∈ services /\ p = svcPath svc
  | Head p => exists svc, svc ∈ services /\ p = svcPath svc
  | MkdirAll d => d = out \/ (d = v3Dir out /\ services <> [])
  | WriteFile f _ =>
      f = v2Destination out \/ exists svc, svc ∈ services /\ f = v3Destination out svc
  | Exit code => code = 1%Z
  | _ => True
  end.

(** The context [main] hands to the readiness wait. *)
Definition signalCtx (h : run.Harness) : context.Context :=
  {| context.cancelAt := run.signalAt h; context.deadlineAt := None |}.

(** The readiness wait of a run. *)
Definition readiness (h : run.Harness) (services : list APIService)
    : option (option error * poller.State * nat) :=
  poller.waitForAPIServicesOpenAPIV3 (run.head h) (run.latency h) (run.range h)
    (run.tickFirst h) (run.second h)
    (signalCtx h) (run.openapiTimeout h) services.

End confine_inv.

Module filled_inv.
(** The path holds a file that is not empty. *)
Definition filled (fs : gmap (list ascii) (list ascii)) (p : list ascii) : Prop :=
  exists o, fs !! p = Some o /\ o <> [].
End filled_inv.

Module reindent_inv.
(** [w] written in front of what a loop returns. *)
Definition written_first {S} (w : list ascii) (r : S * list ascii) : S * list ascii :=
  (r.1, w ++ r.2).
End reindent_inv.

Module samples_up.
Import run samples.

(** A harness in which every collaborator succeeds and every
    group-version answers at once. *)
Definition harness_up (services : list APIService) : Harness :=
  {| StartWithExtensions := inr services;
     StopWithExtensions := None;
     client_New := None;
     apiserver_New := None;
     apiSrv_Start := None;
     apiSrv_Stop := None;
     WaitUntilAPIServicesReadyWithTimeout := None;
     kubernetes_NewForConfig := None;
     head := fun _ _ => true; latency := oneTick; range := inOrder;
     tickFirst := ctxFirst; second := 1;
     signalAt := None; outputDir := str "out"; openapiTimeout := 30 |}.

End samples_up.

(** * The first revision of main.go

    The file holds an earlier revision of the program in front of the
    current one. Its [main] does by itself what [extractOpenAPI] does
    now, leaves through [os.Exit] on every failure, and sleeps instead of
    polling; its [writeFile] creates the file and writes to it in two
    calls. *)
Module legacy.
Import apiregistrationv1 run.
Section legacy_defs.
Variable env : Env.

(** [getPath]: as now, with [context.Background()]. *)
Definition getPath (path : list ascii) : M (list ascii) := fun w =>
  let w' := {| trace := trace w ++ [Get path]; files := files w |} in
  match http_get env (trace w) path with
  | inl e => (inl (wrap (str "failed to get path " ++ path) e), w')
  | inr resp => (inr resp, w')
  end.

(** [f, err := os.Create(file); defer f.Close(); ...; f.Write(out.Bytes())]:
    the file is truncated when it is created; closing it is deferred and
    the error of the close is dropped. The file system answers as for
    [os.WriteFile], [OpenFailed] standing for a failed [os.Create]. *)
Definition createAndWrite (file data : list ascii) : M unit := fun w =>
  let tr := trace w ++ [WriteFile file data] in
  match os_WriteFile env (trace w) file data with
  | WriteOk => (inr tt, {| trace := tr; files := <[file := data]> (files w) |})
  | OpenFailed e =>
      (inl (wrap (str "failed to create file " ++ file) e), {| trace := tr; files := files w |})
  | WriteFailed n e =>
      (inl (wrap (str "failed to write file " ++ file) e),
       {| trace := tr; files := <[file := take n data]> (files w) |})
  end.

Definition writeFile (resp outputDir fileName : list ascii) : M unit :=
  emit (LogInfo (str "Writing file")
          [str "OutputDirectory"; outputDir; str "File"; fileName]);;
  orWrap (str "failed to create output directory " ++ outputDir)
    (persist.MkdirAll_ env outputDir);;
  out ← orWrap (str "failed to pretty print JSON") (persist.Indent_ resp);
  let file := filepath.Join [outputDir; filepath.Base fileName] in
  createAndWrite file out.

Definition extractOne (outputDir : list ascii) (apiService : APIService) : M unit :=
  let fileName := extract.v3FileName apiService in
  let path := extract.v3Path (Group (Spec apiService)) (Version (Spec apiService)) in
  resp ← orWrap (str "failed to get OpenAPI v3 path " ++ path) (getPath path);
  orWrap (str "failed to write OpenAPI v3 file")
    (writeFile resp (extract.v3Dir outputDir) fileName).

Definition extractOpenAPIv3 (apiServices : list APIService) (outputDir : list ascii) : M unit :=
  emit (LogInfo (str "Extracting OpenAPI v3") []);;
  extract.forEach (extractOne outputDir) apiServices.

Definition extractOpenAPIv2 (outputDir : list ascii) : M unit :=
  emit (LogInfo (str "Extracting OpenAPI v2") []);;
  let path := str "/openapi/v2" in
  resp ← (fun w =>
    let w' := {| trace := trace w ++ [Get path]; files := files w |} in
    match http_get env (trace w) path with
    | inl e => (inl (wrap (str "failed to get OpenAPI v2 content") e), w')
    | inr resp => (inr resp, w')
    end);
  orWrap (str "failed to write OpenAPI v2 file")
    (writeFile resp outputDir (str "swagger.json")).

Variable h : Harness.

(** [log.Error(err, msg); os.Exit(1)]: the process ends here, deferred
    calls do not run. *)
Definition exit (e : error) (msg : list ascii) (w : World) : Z * World :=
  (1%Z, {| trace := trace w ++ [LogError e msg; Exit 1]; files := files w |}).

Definition record (evs : list Event) (w : World) : World :=
  {| trace := trace w ++ evs; files := files w |}.

(** [main] after flag parsing. The two [defer]red stops run, last
    registered first, when [main] returns; what they return is dropped.
    [time.Sleep(delay)] leaves no event. *)
Definition main (w : World) : Z * World :=
  let w := record [StartControlPlane] w in
  match StartWithExtensions h with
  | inl e => exit e (str "failed to start testenv") w
  | inr services =>
  match client_New h with
  | Some e => exit e (str "failed to create Kubernetes client") w
  | None =>
  match apiserver_New h with
  | Some e => exit e (str "failed to setup api server") w
  | None =>
  let w := record [StartAPIServer] w in
  match apiSrv_Start h with
  | Some e => exit e (str "failed to start api server") w
  | None =>
  let w := record [WaitAPIServicesReady] w in
  match WaitUntilAPIServicesReadyWithTimeout h with
  | Some e => exit e (str "failed to wait for api server to become ready") w
  | None =>
  match kubernetes_NewForConfig h with
  | Some e => exit e (str "failed to create clientset from config") w
  | None =>
  match extractOpenAPIv2 (outputDir h) w with
  | (inl e, w) => exit e (str "failed to extract OpenAPI v2 spec") w
  | (inr _, w) =>
  match extractOpenAPIv3 services (outputDir h) w with
  | (inl e, w) => exit e (str "failed to extract OpenAPI v3 spec") w
  | (inr _, w) => (0%Z, record [StopAPIServer; StopControlPlane] w)
  end end end end end end end end.

End legacy_defs.
End legacy.

Module legacy_inv.
(** Neither of the two stops. *)
Definition noStop (ev : Event) : Prop := ev <> StopControlPlane /\ ev <> StopAPIServer.
End legacy_inv.

Module served_inv.
Import apiregistrationv1 extract extract_inv.

(** In the events [tr], a request for [path] was answered with a
    well-formed document whose pretty-printed form is [stored]. *)
Definition fetched (env : Env) (tr : list Event) (path stored : list ascii) : Prop :=
  exists hist resp,
    hist ++ [Get path] `prefix_of` tr /\
    http_get env hist path = inr resp /\
    json.Indent [] ["009"] resp = inr stored.

(** The path [p] holds the document fetched for one of [services] whose
    v3 file it is. *)
Definition served (env : Env) (out : list ascii) (services : list APIService)
    (w : World) (p : list ascii) : Prop :=
  exists svc stored,
    svc ∈ services /\ v3Destination out svc = p /\
    fetched env (trace w) (svcPath svc) stored /\
    files w !! p = Some stored.

End served_inv.

Module names_inv.
Import apiregistrationv1 filepath filepath_inv.

(** The names of a service as Kubernetes has them: no path separator in
    the group and the version, no underscore in the group. *)
Definition plainNames (svc : APIService) : Prop :=
  noSep (Group (Spec svc)) /\ noSep (Version (Spec svc)) /\
  "_"%char ∉ Group (Spec svc).

End names_inv.

Module directory_inv.
Import filepath filepath_inv.

(** Paths that name a directory once [os.MkdirAll(dir)] has succeeded:
    the directory itself, its parent, and the three names that always
    name one. *)
Definition isDirectory (dir p : list ascii) : Prop :=
  p = Clean dir \/ p = Clean (dir ++ str "/..") \/
  p = str "." \/ p = str ".." \/ p = [Separator].

(** A file system on which [os.WriteFile] cannot open a directory: the
    call fails, before anything is written, when its path names one. *)
Definition refusesDirectories (env : Env) : Prop :=
  forall pre post dir p data,
    os_MkdirAll env pre dir = None -> isDirectory dir p ->
    exists e, os_WriteFile env (pre ++ MkdirAll dir :: post) p data = OpenFailed e.

(** The directory names handed to [os.MkdirAll] so far. *)
Definition madeDirs (h : list Event) : list (list ascii) :=
  omap (fun ev => match ev with MkdirAll d => Some d | _ => None end) h.

Definition namesDirectory (h : list Event) (p : list ascii) : bool :=
  bool_decide (p = str ".") || bool_decide (p = str "..") || bool_decide (p = [Separator])
  || existsb (fun d => bool_decide (p = Clean d) || bool_decide (p = Clean (d ++ str "/..")))
       (madeDirs h).

End directory_inv.

Module samples_posix.
Import directory_inv.

(** Every request is answered with [resp]; [os.MkdirAll] refuses the
    empty name; [os.WriteFile] refuses to open a directory. *)
Definition env_posix (resp : list ascii) : Env :=
  {| http_get := fun _ _ => inr resp;
     os_MkdirAll := fun _ d =>
       if decide (d = []) then Some (ext (str "mkdir : no such file or directory"))
       else None;
     os_WriteFile := fun h p _ =>
       if namesDirectory h p then OpenFailed (ext (str "open " ++ p ++ str ": is a directory"))
       else WriteOk |}.

End samples_posix.
(** * Properties *)

Lemma byte_eq_spec a b : reflect (a = b) (byte_eq a b).
Proof. apply Ascii.eqb_spec. Qed.

(** ** The scanner under inserted and removed white space *)
Module json_facts.
Import json json_inv.

Ltac unfold_states :=
  unfold scan, stateBeginValueOrEmpty, stateBeginStringOrEmpty, stateBeginValue,
    stateBeginString, state1, state0, stateDot0, stateDot, stateE, stateESign,
    stateE0, stateNeg, stateInString, stateInStringEsc, stateHex, stateLit,
    stateError, stateEndValue, stateEndTop, pushParseState, popParseState,
    s_error, with_step, with_parseState in *.

Ltac split_byte :=
  match goal with
  | |- context [byte_eq ?c ?k] =>
      lazymatch c with
      | Ascii _ _ _ _ _ _ _ _ => fail
      | _ => destruct (byte_eq_spec c k) as [->|?]
      end
  | |- context [isSpace ?c] =>
      lazymatch c with
      | Ascii _ _ _ _ _ _ _ _ => fail
      | _ => destruct (isSpace c) eqn:?
      end
  | |- context [isDigit ?c] =>
      lazymatch c with
      | Ascii _ _ _ _ _ _ _ _ => fail
      | _ => destruct (isDigit c) eqn:?
      end
  | |- context [isDigit19 ?c] =>
      lazymatch c with
      | Ascii _ _ _ _ _ _ _ _ => fail
      | _ => destruct (isDigit19 c) eqn:?
      end
  | |- context [isHex ?c] =>
      lazymatch c with
      | Ascii _ _ _ _ _ _ _ _ => fail
      | _ => destruct (isHex c) eqn:?
      end
  | |- context [byte_lt ?c ?k] =>
      lazymatch c with
      | Ascii _ _ _ _ _ _ _ _ => fail
      | _ => destruct (byte_lt c k) eqn:?
      end
  | |- context [(Z.of_nat ?n <=? maxNestingDepth)%Z] =>
      destruct (Z.of_nat n <=? maxNestingDepth)%Z eqn:?
  end.

Lemma idle_space s w : idle s -> isSpace w = true -> scan s w = (s, scanSkipSpace).
Proof.
  destruct s as [f e ps er]. unfold idle. cbn [step parseState].
  intros Hi Hw. destruct f; try done; unfold_states; cbn [step parseState];
    try (destruct ps; [done|]); rewrite ?Hw; reflexivity.
Qed.
Ltac split_match :=
  match goal with
  | |- context [match ?l with [] => _ | _ :: _ => _ end] => destruct l
  | |- context [match ?p with parseObjectKey => _ | _ => _ end] => destruct p
  end.

Ltac scan_cases :=
  unfold_states; cbn [step parseState err endTop];
  repeat (first [split_byte | split_match];
          cbn [step parseState err endTop negb fst snd orb andb tl] in * ).

Lemma scan_good s c s' v :
  good s -> scan s c = (s', v) ->
  (good s' /\ v <> scanError) \/ (err s' <> None /\ step s' = stError).
Proof.
  destruct s as [f e ps er]. intros [Her Hst]. cbn in Her, Hst. subst er.
  revert Hst. destruct f; intros Hst; try done; scan_cases;
  intros [= <- <-]; cbn; unfold good; cbn; first [left; done | right; done].
Qed.

Lemma scan_eqv d s c s' v :
  eqv d s -> scan s c = (s', v) -> v <> scanSkipSpace -> v <> scanError ->
  scan d c = (s', v).
Proof.
  intros [->|(Hn & Hps & ->)]; [done|].
  destruct d as [f e ps er]. cbn in Hn, Hps. 
  destruct ps as [|p ps]; [done|]. clear Hps.
  destruct f; try done; clear Hn; scan_cases; try done;
    intros [= <- <-]; try done.
Qed.

Lemma scan_skip_eqv d s c s' :
  eqv d s -> scan s c = (s', scanSkipSpace) -> eqv d s'.
Proof.
  intros [->|(Hn & Hps & ->)].
  - destruct s as [f e ps er]. unfold eqv.
    destruct f; scan_cases; intros [= <-]; try done; first [by left | right; done].
  - destruct d as [f e ps er]. cbn in Hn, Hps.
    destruct ps as [|p ps]; [done|].
    unfold eqv. scan_cases; intros [= <-]; try done; right; done.
Qed.

Lemma scan_skip_orEmpty s c s' :
  scan s c = (s', scanSkipSpace) -> orEmpty (step s) = true -> s' = s.
Proof.
  destruct s as [f e ps er]. intros H Ho; revert H.
  destruct f; try done; scan_cases; intros [= <-]; done.
Qed.

Lemma scan_punct_idle s c s' v :
  scan s c = (s', v) -> good s' -> v <> scanContinue -> v <> scanSkipSpace ->
  c = "," \/ c = ":" -> idle s'.
Proof.
  destruct s as [f e ps er]. intros H [Hg1 Hg2] Hv1 Hv2 Hc; revert H.
  destruct Hc as [-> | ->]; destruct f; scan_cases; intros [= <- <-];
    try done; cbn in *; try done.
Qed.

Lemma scan_open_orEmpty s c s' v :
  scan s c = (s', v) -> good s' -> v <> scanContinue -> v <> scanSkipSpace ->
  c = "{" \/ c = "[" -> orEmpty (step s') = true.
Proof.
  destruct s as [f e ps er]. intros H [Hg1 Hg2] Hv1 Hv2 Hc; revert H.
  destruct Hc as [-> | ->]; destruct f; scan_cases; intros [= <- <-];
    try done; cbn in *; try done.
Qed.

Lemma scan_end_is_close s c s' v :
  scan s c = (s', v) -> v = scanEndObject \/ v = scanEndArray ->
  c = "}" \/ c = "]".
Proof.
  destruct s as [f e ps er]. intros H Hv; revert H.
  destruct f; scan_cases; intros [= <- <-]; destruct Hv; try done; auto.
Qed.

Lemma scan_close_orEmpty s c s' v :
  orEmpty (step s) = true -> scan s c = (s', v) -> good s' ->
  c = "}" \/ c = "]" -> v = scanEndObject \/ v = scanEndArray.
Proof.
  destruct s as [f e ps er]. intros Ho H [Hg1 Hg2] Hc; revert H.
  destruct Hc as [-> | ->]; destruct f; try done; scan_cases; intros [= <- <-];
    try done; cbn in *; try done; auto.
Qed.

Lemma scan_end_space s c s' :
  scan s c = (s', scanEnd) -> good s' -> isSpace c = true.
Proof.
  destruct s as [f e ps er]. intros H [Hg1 Hg2]; revert H.
  destruct f; scan_cases; intros [= <-]; try done; cbn in *; try done.
Qed.

Lemma isSpace_inv w :
  isSpace w = true -> w = " " \/ w = "009" \/ w = "013" \/ w = "010".
Proof.
  unfold isSpace. intros [_ H]%andb_prop.
  repeat (apply orb_prop in H; destruct H as [H|H]);
    apply (reflect_iff _ _ (byte_eq_spec _ _)) in H; auto.
Qed.

Lemma num_space s w :
  numAcc (step s) = true -> parseState s <> [] -> isSpace w = true ->
  scan s w = (with_step s stEndValue, scanSkipSpace).
Proof.
  destruct s as [f e ps er]. cbn [step parseState]. intros Hn Hps Hw%isSpace_inv.
  destruct ps as [|p ps]; [done|].
  destruct Hw as [->|[->|[->| ->]]]; destruct f; try done.
Qed.

Lemma stateEndValue_with_step s f c :
  stateEndValue (with_step s f) c = stateEndValue s c.
Proof.
  destruct s as [f0 e ps er]. unfold stateEndValue, with_step; cbn [step parseState err endTop].
  destruct ps as [|p ps]; [done|]. destruct (isSpace c); [done|].
  destruct p; unfold with_parseState, popParseState, s_error; cbn [step parseState err endTop];
    repeat match goal with |- context [if ?b then _ else _] => destruct b end; done.
Qed.

Lemma num_close s c :
  numAcc (step s) = true -> c = "}" \/ c = "]" -> scan s c = stateEndValue s c.
Proof.
  destruct s as [f e ps er]. cbn [step]. intros Hn [-> | ->]; by destruct f.
Qed.

(** A scanner that accepts a closing bracket skips white space in front of it. *)
Lemma before_close s c s' v :
  scan s c = (s', v) -> good s' -> v <> scanContinue -> v <> scanSkipSpace ->
  c = "}" \/ c = "]" ->
  idle s \/ (numAcc (step s) = true /\ parseState s <> []).
Proof.
  destruct s as [f e ps er]. intros H [Hg1 Hg2] Hv1 Hv2 Hc; revert H.
  unfold idle. cbn [step parseState].
  destruct Hc as [-> | ->]; destruct f; try (left; done);
    destruct ps as [|p ps]; try (intros _; first [by left | by right]);
    try (intros [= <- <-]; cbn in Hg1, Hg2; done).
Qed.

Lemma closing_space s d c s' v w :
  closing s d -> scan s c = (s', v) -> good s' ->
  v <> scanContinue -> v <> scanSkipSpace -> c = "}" \/ c = "]" ->
  isSpace w = true ->
  exists d', scan d w = (d', scanSkipSpace) /\ closing s d'.
Proof.
  intros Hcl H Hg Hv1 Hv2 Hc Hw.
  destruct (before_close _ _ _ _ H Hg Hv1 Hv2 Hc) as [Hi|[Hn Hps]].
  - destruct Hcl as [[->|(Hn & Hps & ->)]|(Hn & Hps & ->)].
    + exists s. split; [by apply idle_space|]. by left; left.
    + exists (with_step d stEndValue). split; [by apply num_space|]. by left; left.
    + unfold idle in Hi. by destruct (step s).
  - destruct Hcl as [[->|(Hn' & Hps' & ->)]|(_ & _ & ->)].
    + exists (with_step s stEndValue). split; [by apply num_space|]. by right.
    + by destruct d as [[] ? ? ?].
    + exists (with_step s stEndValue). split; [|by right].
      apply idle_space; [|done]. unfold idle. by destruct s.
Qed.

Lemma closing_scan s d c s' v :
  closing s d -> scan s c = (s', v) -> good s' ->
  v <> scanContinue -> v <> scanSkipSpace -> c = "}" \/ c = "]" ->
  scan d c = (s', v).
Proof.
  intros Hcl H Hg Hv1 Hv2 Hc.
  destruct Hcl as [[->|(Hn & Hps & ->)]|(Hn & Hps & ->)]; [done| |].
  - rewrite num_close by done. rewrite <- H.
    by rewrite <- (stateEndValue_with_step d stEndValue).
  - rewrite num_close in H by done. rewrite <- H.
    change (scan (with_step s stEndValue) c) with (stateEndValue (with_step s stEndValue) c).
    apply stateEndValue_with_step.
Qed.

Lemma compact_cons s c s' v X :
  scan s c = (s', v) -> v <> scanError ->
  compact_loop s (c :: X) = emitc v c (compact_loop s' X).
Proof.
  intros H Hv. cbn [compact_loop]. rewrite H.
  destruct v; try done; cbn; by destruct (compact_loop s' X).
Qed.

Lemma compact_skip_ws d ws X :
  idle d -> allSpace ws -> compact_loop d (ws ++ X) = compact_loop d X.
Proof.
  intros Hi. induction 1 as [|w ws Hw _ IH]; [done|].
  cbn [app]. erewrite compact_cons by (by eauto using idle_space). done.
Qed.

Lemma compact_one d s c s' v X :
  eqv d s -> good s -> scan s c = (s', v) -> good s' -> v <> scanSkipSpace ->
  compact_loop d (c :: X) = emitc v c (compact_loop s' X).
Proof.
  intros He Hg H Hg' Hv.
  assert (v <> scanError) as Hve.
  { destruct (scan_good _ _ _ _ Hg H) as [[_ ?]|[? _]]; [done|]. by destruct Hg'. }
  apply compact_cons; [|done]. eapply scan_eqv; eauto.
Qed.

Lemma compact_punct d s c s' v ws X :
  eqv d s -> good s -> scan s c = (s', v) -> good s' ->
  v <> scanContinue -> v <> scanSkipSpace -> c = "," \/ c = ":" -> allSpace ws ->
  compact_loop d (c :: ws ++ X) = emitc v c (compact_loop s' X).
Proof.
  intros He Hg H Hg' Hv1 Hv2 Hc Hws.
  erewrite compact_one by eauto.
  rewrite compact_skip_ws; eauto using scan_punct_idle.
Qed.

Lemma compact_close d s c s' v ws X :
  closing s d -> good s -> scan s c = (s', v) -> good s' ->
  v <> scanContinue -> v <> scanSkipSpace -> c = "}" \/ c = "]" -> allSpace ws ->
  compact_loop d (ws ++ c :: X) = emitc v c (compact_loop s' X).
Proof.
  intros Hcl Hg H Hg' Hv1 Hv2 Hc Hws. revert d Hcl.
  induction Hws as [|w ws Hw _ IH]; intros d Hcl.
  - cbn [app]. apply compact_cons.
    + eapply closing_scan; eauto.
    + destruct (scan_good _ _ _ _ Hg H) as [[_ ?]|[? _]]; [done|]. by destruct Hg'.
  - cbn [app].
    destruct (closing_space _ _ _ _ _ _ Hcl H Hg' Hv1 Hv2 Hc Hw) as (d' & Hd' & Hcl').
    erewrite compact_cons by (by eauto). cbn [emitc]. by apply IH.
Qed.

Section Indent_sim.
Variables prefix indent : list ascii.
Hypothesis prefix_space : allSpace prefix.
Hypothesis indent_space : allSpace indent.

Lemma indent_loop_cons s ni dep c src :
  indent_loop prefix indent s ni dep (c :: src) =
  let '(s', v) := scan s c in
  match v with
  | scanSkipSpace => indent_loop prefix indent s' ni dep src
  | scanError => (s', [])
  | _ =>
      let '(w, ni', dep') := indent_byte prefix indent ni dep c v in
      let '(sf, out) := indent_loop prefix indent s' ni' dep' src in
      (sf, w ++ out)
  end.
Proof. reflexivity. Qed.

Lemma newline_space dep : allSpace (newline prefix indent dep).
Proof.
  unfold newline, allSpace. constructor; [done|].
  apply Forall_app. split; [done|].
  induction (Z.to_nat dep); cbn; [constructor|]. apply Forall_app; auto.
Qed.

Local Opaque newline.

Lemma emit_plain_sim d s c s' v dep w ni' dep' X :
  eqv d s -> good s -> scan s c = (s', v) -> good s' -> v <> scanSkipSpace ->
  indent_byte prefix indent false dep c v = (w, ni', dep') ->
  compact_loop d (w ++ X) = emitc v c (compact_loop s' X) /\
  (ni' = true -> orEmpty (step s') = true).
Proof.
  intros He Hg H Hg' Hv. unfold indent_byte. cbn [andb]. rewrite !app_nil_l.
  assert (v = scanContinue \/ v <> scanContinue) as [->|Hvc]
    by (destruct v; auto; right; done).
  { intros [= <- <- <-]. split; [|done]. eapply compact_one; eauto. }
  assert (forall (T : Type) (a b : T),
    match v with scanContinue => a | _ => b end = b) as Hm.
  { intros. by destruct v. }
  rewrite Hm. clear Hm.
  destruct (byte_eq_spec c "{") as [->|?]; cbn [orb].
  { intros [= <- <- <-]. split.
    - eapply compact_one; eauto.
    - intros _. eapply scan_open_orEmpty; eauto. }
  destruct (byte_eq_spec c "[") as [->|?]; cbn [orb].
  { intros [= <- <- <-]. split.
    - eapply compact_one; eauto.
    - intros _. eapply scan_open_orEmpty; eauto. }
  destruct (byte_eq_spec c ",") as [->|?].
  { intros [= <- <- <-]. split; [|done].
    change ((?a :: ?l) ++ X) with (a :: l ++ X).
    eapply compact_punct; eauto using newline_space. }
  destruct (byte_eq_spec c ":") as [->|?].
  { intros [= <- <- <-]. split; [|done].
    change ([":"; " "] ++ X) with (":" :: [" "] ++ X).
    eapply compact_punct; eauto. by repeat constructor. }
  destruct (byte_eq_spec c "}") as [->|?]; cbn [orb].
  { intros [= <- <- <-]. split; [|done]. rewrite <- app_assoc.
    eapply (compact_close d s); [by left|..]; eauto using newline_space. }
  destruct (byte_eq_spec c "]") as [->|?]; cbn [orb].
  { intros [= <- <- <-]. split; [|done]. rewrite <- app_assoc.
    eapply (compact_close d s); [by left|..]; eauto using newline_space. }
  intros [= <- <- <-]. split; [|done]. eapply compact_one; eauto.
Qed.


Lemma emit_fire dep c v :
  isEnd v = false ->
  indent_byte prefix indent true dep c v =
  let '(w0, ni', dep') := indent_byte prefix indent false (dep + 1) c v in
  (newline prefix indent (dep + 1) ++ w0, ni', dep').
Proof.
  intros Hv. unfold indent_byte.
  destruct v; try done; cbn [andb]; rewrite !app_nil_l;
    repeat match goal with
    | |- context [if ?b then _ else _] => destruct b
    end; reflexivity.
Qed.

Lemma emit_sim d s c s' v ni dep w ni' dep' X :
  eqv d s -> good s -> (ni = true -> orEmpty (step s) = true) ->
  scan s c = (s', v) -> good s' -> v <> scanSkipSpace ->
  indent_byte prefix indent ni dep c v = (w, ni', dep') ->
  compact_loop d (w ++ X) = emitc v c (compact_loop s' X) /\
  (ni' = true -> orEmpty (step s') = true).
Proof.
  intros He Hg Hni H Hg' Hv. destruct ni; [|by apply (emit_plain_sim d s)].
  specialize (Hni eq_refl).
  assert (d = s) as ->.
  { destruct He as [?|(_ & _ & ->)]; [done|]. by destruct d. }
  assert (idle s) as Hidle.
  { unfold idle. by destruct (step s). }
  destruct (isEnd v) eqn:Hend.
  - assert (c = "}" \/ c = "]") as Hc.
    { apply (scan_end_is_close s c s' v); [done|]. destruct v; auto; done. }
    unfold indent_byte.
    destruct v; try done; cbn [andb]; rewrite !app_nil_l;
      destruct Hc as [-> | ->]; cbn; intros [= <- <- <-];
      (split; [|done]);
      match goal with
      | Hs : scan s ?c = (s', ?v) |- _ => by apply (compact_one s s c s' v X)
      end.
  - rewrite emit_fire by done.
    destruct (indent_byte prefix indent false (dep + 1) c v) as [[w0 n0] d0] eqn:He0.
    intros [= <- <- <-]. rewrite <- app_assoc.
    rewrite compact_skip_ws by eauto using newline_space.
    eapply (emit_plain_sim s s); eauto; by left.
Qed.

Lemma indent_sticky s ni dep src :
  step s = stError -> indent_loop prefix indent s ni dep src = (s, []).
Proof.
  intros Hs. destruct src as [|c src]; [done|].
  rewrite indent_loop_cons. unfold scan. rewrite Hs. done.
Qed.

Lemma emitc_pair v c s e : emitc v c (s, e) = (s, (emitc v c (s, e)).2).
Proof. by destruct v. Qed.

Lemma indent_sim src : forall s ni dep d sF out,
  good s -> eqv d s -> (ni = true -> orEmpty (step s) = true) ->
  indent_loop prefix indent s ni dep src = (sF, out) -> err sF = None ->
  exists e dF,
    compact_loop s src = (sF, e) /\ compact_loop d out = (dF, e) /\ eqv dF sF.
Proof.
  induction src as [|c src IH]; intros s ni dep d sF out Hg He Hni Hl HsF.
  { cbn in Hl. injection Hl as <- <-. exists [], d. done. }
  rewrite indent_loop_cons in Hl.
  destruct (scan s c) as [s' v] eqn:Hs.
  destruct (scan_good _ _ _ _ Hg Hs) as [[Hg' Hve]|[Herr Hst]].
  - destruct (decide (v = scanSkipSpace)) as [->|Hvs].
    + destruct (IH s' ni dep d sF out) as (e & dF & H1 & H2 & H3); auto.
      { eapply scan_skip_eqv; eauto. }
      { intros Hn. by rewrite (scan_skip_orEmpty _ _ _ Hs (Hni Hn)), Hni. }
      exists e, dF. split; [|done].
      erewrite compact_cons by eauto. done.
    + destruct (indent_byte prefix indent ni dep c v) as [[w ni'] dep'] eqn:Hem.
      destruct (indent_loop prefix indent s' ni' dep' src) as [sf out'] eqn:Hl'.
      assert ((sf, w ++ out') = (sF, out)) as [= -> <-] by (by destruct v).
      destruct (emit_sim d s c s' v ni dep w ni' dep' out') as [Hc Hni']; auto.
      destruct (IH s' ni' dep' s' sF out') as (e & dF & H1 & H2 & H3); auto.
      { by left. }
      exists (emitc v c (sF, e)).2, dF. split; [|split; [|done]].
      * erewrite compact_cons by eauto. rewrite H1. apply emitc_pair.
      * rewrite Hc, H2. rewrite emitc_pair. by destruct v.
  - exfalso. apply Herr.
    destruct v; try (injection Hl as <- <-; done);
      try (rewrite indent_sticky in Hl by done; injection Hl as <- <-; done);
      destruct (indent_byte prefix indent ni dep c _) as [[w ni'] dep'];
      rewrite indent_sticky in Hl by done; injection Hl as <- <-; done.
Qed.

End Indent_sim.

Lemma finish_inr s out r : finish s out = inr r -> r = out /\ (eof s).2 = scanEnd.
Proof.
  unfold finish. destruct (eof s) as [s1 v] eqn:He. cbn.
  assert (v = scanEnd \/ v = scanError) as [-> | ->].
  { revert He. unfold eof.
    repeat match goal with |- context [match ?x with _ => _ end] => destruct x end;
      intros [= <- <-]; auto. }
  - by intros [= ->].
  - done.
Qed.

Lemma finish_end s out : (eof s).2 = scanEnd -> finish s out = inr out.
Proof. unfold finish. destruct (eof s) as [s1 v]. cbn. by intros ->. Qed.

Lemma eof_end s :
  (eof s).2 = scanEnd ->
  err s = None /\ (endTop s = true \/ endTop (scan s " ").1 = true).
Proof.
  unfold eof. destruct (err s); [done|]. destruct (endTop s); [by auto|].
  destruct (endTop (scan s " ").1); [by auto|]. by destruct (err (scan s " ").1).
Qed.

Lemma eqv_eof d s : eqv d s -> (eof s).2 = scanEnd -> (eof d).2 = scanEnd.
Proof.
  intros [->|(Hn & Hps & ->)]; [done|].
  destruct d as [f e ps er]. cbn in Hn, Hps. destruct ps as [|p ps]; [done|].
  unfold eof. cbn. destruct er; [done|]. destruct e; [done|].
  unfold scan; cbn. unfold stateEndValue; cbn. done.
Qed.

(** Compacting what [Indent] wrote gives the compact form of the input. *)
Lemma Compact_Indent prefix indent src out :
  allSpace prefix -> allSpace indent ->
  Indent prefix indent src = inr out ->
  exists c, Compact src = inr c /\ Compact out = inr c.
Proof.
  intros Hp Hi. unfold Indent, Compact.
  destruct (indent_loop prefix indent newScanner false 0 src) as [sF o] eqn:Hl.
  intros [-> Heof]%finish_inr.
  destruct (indent_sim prefix indent Hp Hi src newScanner false 0%Z newScanner sF o)
    as (e & dF & H1 & H2 & H3); auto.
  - done.
  - by left.
  - by apply eof_end in Heof as [? _].
  - exists e. rewrite H1, H2. split; apply finish_end; [done|]. by apply (eqv_eof _ sF).
Qed.

End json_facts.

(** ** path/filepath *)
Module filepath_facts.
Import filepath filepath_inv.

Lemma Clean_render path : Clean path = render (rooted path) (stack path).
Proof. reflexivity. Qed.

Lemma elements_nonempty path : elements path <> [].
Proof. destruct path as [|c p]; cbn; [done|]. destruct (isSep c); [done|]. by destruct (elements p). Qed.

Lemma elements_noSep b : noSep b -> elements b = [b].
Proof.
  induction 1 as [|c b Hc _ IH]; [done|]. cbn. by rewrite Hc, IH.
Qed.

Lemma elements_app_sep d b : elements (d ++ Separator :: b) = elements d ++ elements b.
Proof.
  induction d as [|c d IH]; cbn.
  - done.
  - destruct (isSep c); [by rewrite IH|]. rewrite IH.
    pose proof (elements_nonempty d). by destruct (elements d).
Qed.

Lemma clean_elem_proper r out b : properElem b -> clean_elem r out b = b :: out.
Proof.
  intros (H1 & _ & H2 & H3). unfold clean_elem.
  repeat case_decide; done.
Qed.

Lemma stack_snoc d b :
  d <> [] -> properElem b -> stack (d ++ Separator :: b) = b :: stack d.
Proof.
  intros Hd Hb. unfold stack. rewrite elements_app_sep, foldl_app.
  rewrite (elements_noSep b) by apply Hb. cbn [foldl].
  assert (rooted (d ++ Separator :: b) = rooted d) as -> by (by destruct d).
  by apply clean_elem_proper.
Qed.

Lemma joinSep_snoc l b : l <> [] -> joinSep (l ++ [b]) = joinSep l ++ Separator :: b.
Proof.
  induction l as [|e l IH]; [done|]. intros _.
  destruct l as [|e' l]; [done|].
  change (joinSep ((e :: e' :: l) ++ [b])) with (e ++ Separator :: joinSep ((e' :: l) ++ [b])).
  rewrite IH by done. cbn. by rewrite <- app_assoc.
Qed.

Lemma elements_all_noSep path : Forall noSep (elements path).
Proof.
  induction path as [|c p IH]; cbn; [by repeat constructor|].
  destruct (isSep c) eqn:Hc; [constructor; [constructor|done]|].
  destruct (elements p) as [|e es]; [by repeat constructor|].
  inversion IH; subst. constructor; [by constructor|done].
Qed.

Lemma clean_elem_kept r out e :
  Forall kept out -> noSep e -> Forall kept (clean_elem r out e).
Proof.
  intros Ho He. unfold clean_elem. repeat case_decide; subst; try done.
  - destruct out as [|top rest]; [destruct r; [done|repeat constructor; done]|].
    case_decide; [constructor; [by repeat split|done]|]. by inversion Ho.
  - constructor; [by repeat split|done].
Qed.

Lemma stack_kept path : Forall kept (stack path).
Proof.
  unfold stack. generalize (rooted path) as r. intros r.
  assert (Forall kept []) as H0 by constructor. revert H0.
  generalize (@nil (list ascii)) as out.
  pose proof (elements_all_noSep path) as He.
  induction He as [|e es He _ IH]; intros out Ho; [done|].
  cbn. apply IH. by apply clean_elem_kept.
Qed.

Lemma joinSep_head e l : joinSep (e :: l) = e ++ match l with [] => [] | _ => Separator :: joinSep l end.
Proof. destruct l; cbn; [by rewrite app_nil_r|done]. Qed.

Lemma render_not_dot out : out <> [] -> Forall kept out -> render false out <> str ".".
Proof.
  intros Hne Hk. unfold render. destruct out as [|e out]; [done|].
  apply Forall_reverse in Hk. set (l := reverse (e :: out)) in *.
  assert (l <> []) as Hl. { unfold l. rewrite reverse_cons. by destruct (reverse out). }
  destruct l as [|x l]; [done|]. inversion Hk as [|? ? (Hx1 & Hx2 & Hx3) Hk']; subst.
  rewrite joinSep_head. destruct l as [|y l].
  - by rewrite app_nil_r.
  - intros Heq. destruct x as [|c x]; [done|]. cbn in Heq.
    injection Heq as -> Heq. by destruct x.
Qed.

Lemma render_not_root out : Forall kept out -> render false out <> [Separator].
Proof.
  intros Hk. unfold render. destruct out as [|e out]; [done|].
  apply Forall_reverse in Hk. set (l := reverse (e :: out)) in *.
  assert (l <> []) as Hl. { unfold l. rewrite reverse_cons. by destruct (reverse out). }
  destruct l as [|x l]; [done|]. inversion Hk as [|? ? (Hx1 & Hx2 & Hx3) Hk']; subst.
  rewrite joinSep_head. destruct x as [|c x]; [done|].
  inversion Hx3 as [|? ? Hc _]; subst. cbn. intros [= -> _]. done.
Qed.

Lemma render_rooted_not_dot out : render true out <> str ".".
Proof. done. Qed.

Lemma render_rooted_root out : Forall kept out -> render true out = [Separator] -> out = [].
Proof.
  intros Hk. unfold render. destruct out as [|e out]; [done|].
  apply Forall_reverse in Hk. set (l := reverse (e :: out)) in *.
  assert (l <> []) as Hl. { unfold l. rewrite reverse_cons. by destruct (reverse out). }
  destruct l as [|x l]; [done|]. inversion Hk as [|? ? (Hx1 & Hx2 & Hx3) Hk']; subst.
  rewrite joinSep_head. by destruct x.
Qed.

(** Cleaning a directory path extended by one proper element. *)
Lemma Clean_snoc d b :
  d <> [] -> properElem b -> Clean (d ++ Separator :: b) = inDir (Clean d) b.
Proof.
  intros Hd Hb. rewrite !Clean_render, stack_snoc by done.
  assert (rooted (d ++ Separator :: b) = rooted d) as -> by (by destruct d).
  pose proof (stack_kept d) as Hk. unfold inDir.
  destruct (rooted d) eqn:Hr.
  - rewrite decide_False by done.
    destruct (decide (render true (stack d) = [Separator])) as [Heq|Hne].
    + apply render_rooted_root in Heq as ->; done.
    + unfold render. rewrite reverse_cons.
      destruct (stack d) as [|e st] eqn:Hst; [done|].
      rewrite joinSep_snoc; [done|]. rewrite reverse_cons. by destruct (reverse st).
  - destruct (stack d) as [|e st] eqn:Hst.
    + by rewrite decide_True.
    + rewrite decide_False by (by apply render_not_dot).
      rewrite decide_False by (by apply render_not_root).
      unfold render. rewrite (reverse_cons _ b).
      rewrite joinSep_snoc; [done|]. rewrite reverse_cons. by destruct (reverse st).
Qed.

Lemma Clean_proper b : properElem b -> Clean b = b.
Proof.
  intros Hb. pose proof Hb as (H1 & H2 & _).
  rewrite Clean_render. unfold stack. rewrite elements_noSep by done.
  cbn [foldl]. rewrite clean_elem_proper by done.
  assert (rooted b = false) as ->.
  { destruct b as [|c b]; [done|]. by inversion H2. }
  done.
Qed.

Lemma Join_dir_elem dir b :
  properElem b -> Join [dir; b] = inDir (Clean dir) b.
Proof.
  intros Hb. destruct dir as [|c dir].
  - cbn [Join]. destruct b as [|c b]; [by destruct Hb|].
    change (joinSep [c :: b]) with (c :: b). rewrite Clean_proper by done.
    done.
  - cbn [Join]. change (joinSep [c :: dir; b]) with ((c :: dir) ++ Separator :: b).
    by apply Clean_snoc.
Qed.

Lemma takeElem_noSep l : noSep (takeElem l).
Proof.
  induction l as [|c l IH]; cbn; [constructor|].
  destruct (isSep c) eqn:Hc; [constructor|]. by constructor.
Qed.

Lemma takeElem_id l : noSep l -> takeElem l = l.
Proof. induction 1 as [|c l Hc _ IH]; cbn; [done|]. by rewrite Hc, IH. Qed.

Lemma dropSeps_id l : noSep l -> dropSeps l = l.
Proof. destruct 1 as [|c l Hc _]; cbn; [done|]. by rewrite Hc. Qed.

Lemma noSep_reverse l : noSep l -> noSep (reverse l).
Proof. apply Forall_reverse. Qed.

(** The base of a name without separators is the name itself. *)
Lemma Base_noSep b : b <> [] -> noSep b -> Base b = b.
Proof.
  intros Hne Hb. unfold Base. destruct b as [|c b]; [done|].
  rewrite dropSeps_id, takeElem_id by (by apply noSep_reverse).
  rewrite reverse_involutive. done.
Qed.

(** [Base] returns [.], [/] or an element without separator. *)
Lemma Base_shape name :
  Base name = str "." \/ Base name = [Separator] \/ (Base name <> [] /\ noSep (Base name)).
Proof.
  unfold Base. destruct name as [|c name]; [by left|].
  destruct (reverse (takeElem (dropSeps (reverse (c :: name))))) as [|x l] eqn:He.
  - right; left; done.
  - right; right. split; [done|]. rewrite <- He. apply noSep_reverse, takeElem_noSep.
Qed.

(** An element [.] and an empty element at the end of a path do not
    change what the path cleans to. *)
Lemma Clean_snoc_void d b :
  d <> [] -> Forall (fun e => e = [] \/ e = str ".") (elements b) ->
  Clean (d ++ Separator :: b) = Clean d.
Proof.
  intros Hd Hb. rewrite !Clean_render.
  assert (rooted (d ++ Separator :: b) = rooted d) as Hr by (by destruct d).
  rewrite Hr. f_equal. unfold stack. rewrite Hr, elements_app_sep, foldl_app.
  generalize (foldl (clean_elem (rooted d)) [] (elements d)).
  induction Hb as [|e es He _ IH]; intros out; [done|]. cbn [foldl].
  assert (clean_elem (rooted d) out e = out) as ->; [|apply IH].
  unfold clean_elem. destruct He as [-> | ->]; [done|].
  rewrite decide_False by done. by rewrite decide_True.
Qed.

Lemma Clean_snoc_dot d : d <> [] -> Clean (d ++ Separator :: str ".") = Clean d.
Proof.
  intros Hd. apply Clean_snoc_void; [done|]. cbn. constructor; [by right|constructor].
Qed.

Lemma Clean_snoc_sep d : d <> [] -> Clean (d ++ [Separator; Separator]) = Clean d.
Proof.
  intros Hd. apply (Clean_snoc_void d [Separator]); [done|]. cbn.
  constructor; [by left|]. constructor; [by left|constructor].
Qed.

End filepath_facts.

(** ** Persistence and extraction *)
Module extract_facts.
Import apiregistrationv1 extract extract_inv.

Lemma reqs_app a b : reqs (a ++ b) = reqs a ++ reqs b.
Proof. apply omap_app. Qed.

Section persist_facts.
Variable env : Env.

(** [writeJSONFile] step by step. *)
Lemma writeJSONFile_unfold dir name data w :
  let line := LogInfo (str "Writing file") [str "OutputDirectory"; dir; str "File"; name] in
  let tr1 := trace w ++ [line] in
  let tr2 := tr1 ++ [MkdirAll dir] in
  let f := persist.destination dir name in
  persist.writeJSONFile env dir name data w =
  match os_MkdirAll env tr1 dir with
  | Some e =>
      (inl (wrap (str "failed to create output directory " ++ dir) e),
       {| trace := tr2; files := files w |})
  | None =>
      match json.Indent [] ["009"] data with
      | inl e => (inl (wrap (str "failed to pretty print JSON") e),
                  {| trace := tr2; files := files w |})
      | inr out =>
          match os_WriteFile env tr2 f out with
          | WriteOk =>
              (inr tt, {| trace := tr2 ++ [WriteFile f out];
                          files := <[f := out]> (files w) |})
          | OpenFailed e =>
              (inl (wrap (str "error writing file " ++ f) e),
               {| trace := tr2 ++ [WriteFile f out]; files := files w |})
          | WriteFailed n e =>
              (inl (wrap (str "error writing file " ++ f) e),
               {| trace := tr2 ++ [WriteFile f out];
                  files := <[f := take n out]> (files w) |})
          end
      end
  end.
Proof.
  unfold persist.writeJSONFile, persist.MkdirAll_, persist.Indent_, persist.WriteFile_,
    orWrap, emit, mbind, M_bind. cbn.
  destruct (os_MkdirAll env _ dir); [done|]. cbn.
  destruct (json.Indent _ _ data); [done|]. cbn.
  by destruct (os_WriteFile env _ _ _).
Qed.


(** The three ways a [writeJSONFile] call can go. *)
Lemma writeJSONFile_spec dir name data w r w' :
  persist.writeJSONFile env dir name data w = (r, w') ->
  let f := persist.destination dir name in
  exists evs, trace w' = trace w ++ evs /\
    ((exists e, r = inl e /\ files w' = files w /\ reqs evs = []) \/
     (exists e out, r = inl e /\ json.Indent [] ["009"] data = inr out /\
        (forall q, q <> f -> files w' !! q = files w !! q) /\ reqs evs = [Store f]) \/
     (exists out, r = inr tt /\ json.Indent [] ["009"] data = inr out /\
        files w' = <[f := out]> (files w) /\ reqs evs = [Store f] /\
        WriteFile f out ∈ evs)).
Proof.
  rewrite writeJSONFile_unfold. cbn zeta.
  destruct (os_MkdirAll env _ dir) as [e|].
  { intros [= <- <-]. eexists. split; [cbn; by rewrite <- app_assoc|].
    left. by exists (wrap (str "failed to create output directory " ++ dir) e). }
  destruct (json.Indent _ _ data) as [e|out] eqn:Hi.
  { intros [= <- <-]. eexists. split; [cbn; by rewrite <- app_assoc|].
    left. by exists (wrap (str "failed to pretty print JSON") e). }
  destruct (os_WriteFile env _ _ _) as [|e|n e]; intros [= <- <-];
    (eexists; split; [cbn; by rewrite <- !app_assoc|]).
  - right; right. exists out. repeat split; try done. cbn. rewrite !elem_of_cons. auto.
  - right; left. eexists _, out. repeat split; done.
  - right; left. eexists _, out. repeat split; try done.
    intros q Hq. cbn. by rewrite lookup_insert_ne.
Qed.

Lemma getPath_unfold path w :
  getPath env path w =
  let w' := {| trace := trace w ++ [Get path]; files := files w |} in
  match http_get env (trace w) path with
  | inl e => (inl (wrap (str "failed to get path " ++ path) e), w')
  | inr resp => (inr resp, w')
  end.
Proof. reflexivity. Qed.

(** The three ways one iteration of the v3 loop can go. *)
Lemma extractOne_spec out svc w r w' :
  extractOne env out svc w = (r, w') ->
  let f := v3Destination out svc in
  exists evs, trace w' = trace w ++ evs /\
    ((exists e, r = inl e /\ files w' = files w /\ reqs evs = [Fetch (svcPath svc)]) \/
     (exists e, r = inl e /\ (forall q, q <> f -> files w' !! q = files w !! q) /\
        reqs evs = [Fetch (svcPath svc); Store f]) \/
     (exists o, r = inr tt /\ files w' = <[f := o]> (files w) /\
        reqs evs = [Fetch (svcPath svc); Store f])).
Proof.
  unfold extractOne. unfold mbind at 1, M_bind, orWrap at 1. rewrite getPath_unfold.
  cbn zeta. destruct (http_get env (trace w) _) as [e|resp].
  { intros [= <- <-]. exists [Get (svcPath svc)]. split; [done|]. left. eauto. }
  unfold orWrap.
  destruct (persist.writeJSONFile env _ _ resp _) as [r1 w1] eqn:Hw.
  apply writeJSONFile_spec in Hw as (evs & Htr & Hcase). cbn in Htr.
  intros Heq. exists (Get (svcPath svc) :: evs).
  split. { destruct r1; injection Heq as <- <-; rewrite Htr, <- app_assoc; done. }
  change (reqs (Get (svcPath svc) :: evs)) with (Fetch (svcPath svc) :: reqs evs).
  destruct Hcase as [(e & -> & Hf & Hr)|[(e & o & -> & _ & Hf & Hr)|(o & -> & _ & Hf & Hr & _)]];
    injection Heq as <- <-; rewrite Hr.
  - left. eauto.
  - right; left. eauto.
  - right; right. eauto.
Qed.

Lemma forEach_app {A} (body : A -> M unit) l1 l2 w :
  forEach body (l1 ++ l2) w =
  match forEach body l1 w with
  | (inl e, w') => (inl e, w')
  | (inr _, w') => forEach body l2 w'
  end.
Proof.
  revert w. induction l1 as [|x l1 IH]; intros w; [done|].
  cbn [app forEach]. unfold mbind, M_bind.
  destruct (body x w) as [[e|[]] w1]; [done|]. apply IH.
Qed.

Lemma forEach_cons {A} (body : A -> M unit) x l w :
  forEach body (x :: l) w =
  match body x w with
  | (inl e, w') => (inl e, w')
  | (inr _, w') => forEach body l w'
  end.
Proof. reflexivity. Qed.

Lemma plan3_cons out svc l :
  plan3 out (svc :: l) =
  [Fetch (svcPath svc); Store (v3Destination out svc)] ++ plan3 out l.
Proof. reflexivity. Qed.

Lemma forEach_extract_ok out services w w' :
  forEach (extractOne env out) services w = (inr tt, w') ->
  exists evs outs, trace w' = trace w ++ evs /\ reqs evs = plan3 out services /\
    length outs = length services /\ files w' = written out services outs (files w).
Proof.
  revert w. induction services as [|svc l IH]; intros w.
  - intros [= <-]. exists [], []. by rewrite app_nil_r.
  - rewrite forEach_cons.
    destruct (extractOne env out svc w) as [[e|[]] w1] eqn:H1; [done|].
    intros (evs & outs & Htr & Hr & Hl & Hf)%IH.
    apply extractOne_spec in H1 as (ev1 & Htr1 & [(? & ? & _)|[(? & ? & _)|(o & _ & Hf1 & Hr1)]]);
      try done.
    exists (ev1 ++ evs), (o :: outs). repeat split.
    + by rewrite Htr, Htr1, app_assoc.
    + by rewrite reqs_app, Hr, Hr1, plan3_cons.
    + cbn. by rewrite Hl.
    + rewrite Hf. unfold written. cbn. by rewrite Hf1.
Qed.

Lemma forEach_extract_any out services w r w' :
  forEach (extractOne env out) services w = (r, w') ->
  exists evs, trace w' = trace w ++ evs /\ reqs evs `prefix_of` plan3 out services.
Proof.
  revert w. induction services as [|svc l IH]; intros w.
  - intros [= <- <-]. exists []. rewrite app_nil_r. split; [done|]. by exists [].
  - rewrite forEach_cons.
    destruct (extractOne env out svc w) as [r1 w1] eqn:H1.
    apply extractOne_spec in H1 as (ev1 & Htr1 & Hcase).
    destruct Hcase as [(e & -> & _ & Hr1)|[(e & -> & _ & Hr1)|(o & -> & _ & Hr1)]].
    + intros [= <- <-]. exists ev1. split; [done|]. rewrite Hr1.
      rewrite plan3_cons. by eexists (_ :: _).
    + intros [= <- <-]. exists ev1. split; [done|]. rewrite Hr1, plan3_cons.
      by eexists.
    + intros (evs & Htr & Hp)%IH. exists (ev1 ++ evs). split.
      * by rewrite Htr, Htr1, app_assoc.
      * rewrite reqs_app, Hr1. destruct Hp as [k Hk].
        exists k. rewrite plan3_cons, Hk. by rewrite <- app_assoc.
Qed.

End persist_facts.

Import filepath filepath_inv filepath_facts.

Ltac trace_mem :=
  rewrite ?elem_of_app, ?elem_of_cons, ?elem_of_nil;
  intuition (discriminate || congruence).

Lemma writeJSONFile_writes env dir name data w f d :
  WriteFile f d ∈ trace (persist.writeJSONFile env dir name data w).2 ->
  WriteFile f d ∈ trace w \/ f = persist.destination dir name.
Proof.
  rewrite writeJSONFile_unfold. cbn zeta.
  destruct (os_MkdirAll env _ dir); [cbn; trace_mem|].
  destruct (json.Indent _ _ data); [cbn; trace_mem|].
  destruct (os_WriteFile env _ _ _); cbn; trace_mem.
Qed.

Lemma extractOne_writes env out svc w f d :
  WriteFile f d ∈ trace (extractOne env out svc w).2 ->
  WriteFile f d ∈ trace w \/ f = v3Destination out svc.
Proof.
  unfold extractOne. unfold mbind at 1, M_bind, orWrap at 1. rewrite getPath_unfold.
  cbn zeta. destruct (http_get env (trace w) _) as [e|resp]; [cbn; trace_mem|].
  unfold orWrap.
  destruct (persist.writeJSONFile env _ _ resp _) as [r1 w1] eqn:Hw.
  assert (trace w1 = trace (persist.writeJSONFile env (v3Dir out) (v3FileName svc) resp
     {| trace := trace w ++ [Get (v3Path (Group (Spec svc)) (Version (Spec svc)))];
        files := files w |}).2) as Ht by (by rewrite Hw).
  intros Hin. assert (WriteFile f d ∈ trace w1) as Hin1 by (by destruct r1).
  rewrite Ht in Hin1. apply writeJSONFile_writes in Hin1. cbn in Hin1. revert Hin1. trace_mem.
Qed.

Lemma extractOpenAPIv2_writes env out w f d :
  WriteFile f d ∈ trace (extractOpenAPIv2 env out w).2 ->
  WriteFile f d ∈ trace w \/ f = v2Destination out.
Proof.
  unfold extractOpenAPIv2. unfold mbind at 1, M_bind, emit.
  unfold mbind at 1, M_bind, orWrap at 1. rewrite getPath_unfold.
  cbn zeta. cbn [trace files].
  destruct (http_get env _ _) as [e|resp]; [cbn; trace_mem|].
  unfold orWrap.
  destruct (persist.writeJSONFile env _ _ resp _) as [r1 w1] eqn:Hw.
  match type of Hw with persist.writeJSONFile ?e ?a ?b ?c ?w = _ =>
    assert (trace w1 = trace (persist.writeJSONFile e a b c w).2) as Ht by (by rewrite Hw)
  end.
  intros Hin. assert (WriteFile f d ∈ trace w1) as Hin1 by (by destruct r1).
  rewrite Ht in Hin1. apply writeJSONFile_writes in Hin1. cbn in Hin1. revert Hin1. trace_mem.
Qed.

Lemma noSep_app a b : noSep a -> noSep b -> noSep (a ++ b).
Proof. intros. by apply Forall_app. Qed.

Lemma noSep_str_apis : noSep (str "apis__").
Proof. by repeat constructor. Qed.

Lemma v3FileName_proper svc :
  noSep (Group (Spec svc)) -> noSep (Version (Spec svc)) -> properElem (v3FileName svc).
Proof.
  intros Hg Hv. unfold v3FileName. repeat split; try done.
  repeat apply noSep_app; try done; by repeat constructor.
Qed.

Lemma v3Dir_clean out :
  Clean (v3Dir out) <> str "." /\ Clean (v3Dir out) <> [Separator].
Proof.
  unfold v3Dir. destruct out as [|c out]; [done|].
  change ((c :: out) ++ str "/" ++ str "v3") with ((c :: out) ++ Separator :: str "v3").
  rewrite Clean_snoc; [|done|by repeat split; try done; repeat constructor].
  unfold inDir. repeat case_decide; try done.
  split; intros Heq; apply (f_equal length) in Heq; rewrite length_app in Heq; cbn in Heq; lia.
Qed.

Lemma v3Destination_name out svc :
  noSep (Group (Spec svc)) -> noSep (Version (Spec svc)) ->
  v3Destination out svc = Clean (v3Dir out) ++ str "/" ++ v3FileName svc.
Proof.
  intros Hg Hv. pose proof (v3FileName_proper svc Hg Hv) as Hp.
  unfold v3Destination, persist.destination.
  rewrite Base_noSep by apply Hp. rewrite Join_dir_elem by done.
  destruct (v3Dir_clean out). unfold inDir. by rewrite !decide_False.
Qed.

Lemma v2Destination_name out :
  v2Destination out = inDir (Clean out) (str "swagger.json").
Proof.
  unfold v2Destination, persist.destination.
  rewrite Base_noSep; [|done|by repeat constructor].
  apply Join_dir_elem. repeat split; try done. by repeat constructor.
Qed.

End extract_facts.

(** ** The readiness poller *)
Module poller_facts.
Import context poller poller_inv.

Section poller_facts.
Variable head : nat -> GroupVersion -> bool.
Variable latency : nat -> GroupVersion -> nat.
Variable range : nat -> gset GroupVersion -> list GroupVersion.
Hypothesis range_perm : forall t S, range t S ≡ₚ elements S.
Variable tickFirst : nat -> bool.
Variable interval : nat.

Lemma probeAll_fst ctx t gvs : (probeAll head latency ctx t gvs).*1 = gvs.
Proof. revert t. induction gvs as [|gv gvs IH]; intros t; cbn; [done|]. by rewrite IH. Qed.

Lemma probeAll_length ctx t gvs : length (probeAll head latency ctx t gvs) = length gvs.
Proof. revert t. induction gvs as [|gv gvs IH]; intros t; cbn; [done|]. by rewrite IH. Qed.

(** A request returns no earlier than it was issued, and one issued by
    the instant the context is done returns by that instant. *)
Lemma probe_ge ctx t gv : t <= (probe head latency ctx t gv).2.
Proof.
  unfold probe. destruct (doneAt ctx) as [d|]; cbn; [|lia].
  repeat case_bool_decide; cbn; lia.
Qed.

Lemma probe_le ctx D t gv :
  doneAt ctx = Some D -> (probe head latency ctx t gv).2 <= t `max` D.
Proof.
  intros HD. unfold probe. rewrite HD. repeat case_bool_decide; cbn; lia.
Qed.

Lemma probeEnd_ge ctx gvs : forall t, t <= probeEnd head latency ctx t gvs.
Proof.
  induction gvs as [|g gvs IH]; intros t; cbn; [lia|].
  pose proof (probe_ge ctx t g). pose proof (IH (probe head latency ctx t g).2). lia.
Qed.

Lemma probeEnd_le ctx D gvs : forall t,
  doneAt ctx = Some D -> probeEnd head latency ctx t gvs <= t `max` D.
Proof.
  induction gvs as [|g gvs IH]; intros t HD; cbn; [lia|].
  pose proof (probe_le ctx D t g HD). pose proof (IH (probe head latency ctx t g).2 HD). lia.
Qed.

Lemma round_ok_perm ctx r :
  round_ok head latency range ctx r -> (probes r).*1 ≡ₚ elements (pre r).
Proof. intros [-> _]. rewrite probeAll_fst. apply range_perm. Qed.

Lemma failed_subseteq (ps : list (GroupVersion * bool)) gv :
  gv ∈ failed ps <-> (gv, false) ∈ ps.
Proof.
  unfold failed. rewrite elem_of_list_to_set, list_elem_of_fmap. split.
  - intros ([g b] & -> & [Hb Hin]%list_elem_of_filter). cbn in *. by subst.
  - intros Hin. exists (gv, false). split; [done|]. by apply list_elem_of_filter.
Qed.

Lemma failed_pre ctx r gv :
  round_ok head latency range ctx r -> gv ∈ failed (probes r) -> gv ∈ pre r.
Proof.
  intros Hok Hin%failed_subseteq. apply elem_of_elements.
  rewrite <- (round_ok_perm ctx r Hok). apply list_elem_of_fmap. by exists (gv, false).
Qed.

Lemma chain_snoc ctx S rs r :
  chain head latency range ctx S rs -> pre r = pending S rs ->
  round_ok head latency range ctx r ->
  chain head latency range ctx S (rs ++ [r]).
Proof.
  revert S. induction rs as [|r0 rs IH]; intros S.
  - cbn. done.
  - intros (Hp & Hok & Hc) Hpre Hr. cbn. split; [done|]. split; [done|].
    apply IH; [done| |done]. rewrite Hpre. unfold pending.
    destruct rs as [|r1 rs]; cbn; [done|].
    destruct (last (r1 :: rs)) eqn:Hl; [done|]. by apply last_None in Hl.
Qed.

Lemma pending_snoc S rs r : pending S (rs ++ [r]) = failed (probes r).
Proof. unfold pending. by rewrite last_snoc. Qed.

Lemma starts_snoc D rs r :
  starts D rs -> (rs = [] /\ began r = 0 \/ rs <> [] /\ began r <= D) -> starts D (rs ++ [r]).
Proof.
  destruct rs as [|r0 rs]; cbn.
  - intros _ [[_ ?]|[? _]]; done.
  - intros [? Hf] [[? _]|[_ ?]]; [done|]. split; [done|].
    apply Forall_app. split; [done|]. by constructor.
Qed.

(** One call of the condition closure. *)
Lemma condition_spec ctx D S0 st t :
  Inv head latency range ctx D S0 st ->
  (rounds st = [] /\ t = 0 \/ rounds st <> [] /\ t <= D) ->
  exists done st' t',
    condition head latency range ctx st t = (done, None, st', t') /\
    if done then Post head latency range ctx D S0 (None, st', t')
    else Inv head latency range ctx D S0 st' /\ rounds st' <> [] /\
         size (testGVs st') <> 0 /\
         (exists lastr, last (rounds st') = Some lastr /\ t' = ended lastr).
Proof.
  intros (Hc & Hs & Ht & He) Hstart. unfold condition.
  set (ps := probeAll head latency ctx t (range t (testGVs st))).
  set (te := probeEnd head latency ctx t (range t (testGVs st))).
  set (r := {| pre := testGVs st; began := t; probes := ps; ended := te |}).
  assert (chain head latency range ctx S0 (rounds st ++ [r])) as Hc'.
  { apply chain_snoc; [done|done|]. done. }
  assert (starts D (rounds st ++ [r])) as Hs' by (by apply starts_snoc).
  assert ((rounds st ++ [r]) ≫= round_events range
          = (rounds st ≫= round_events range) ++ round_events range r) as Hev.
  { rewrite bind_app. cbn. by rewrite app_nil_r. }
  case_bool_decide as Hsz.
  - eexists true, _, _. split; [done|]. unfold Post. cbn [rounds testGVs events].
    split; [done|]. split; [done|]. split.
    + rewrite Hev, He. unfold round_events, round_log. cbn [probes].
      rewrite bool_decide_true by done. by rewrite <- app_assoc.
    + exists r. rewrite last_snoc. done.
  - eexists false, _, _. split; [done|]. unfold Inv. cbn [rounds testGVs events].
    split; [|split; [by destruct (rounds st)|split; [done|]]].
    + split; [done|]. split; [done|]. split; [by rewrite pending_snoc|].
      rewrite Hev, He. unfold round_events, round_log. cbn [probes].
      rewrite bool_decide_false by done. by rewrite <- app_assoc.
    + exists r. rewrite last_snoc. done.
Qed.


Lemma Err_done ctx D t : doneAt ctx = Some D -> D <= t -> is_Some (Err ctx t).
Proof.
  unfold doneAt, Err. destruct (cancelAt ctx) as [c|], (deadlineAt ctx) as [d|];
    intros [= <-] Hle; repeat case_bool_decide; try done; try lia.
Qed.

Lemma Err_live ctx D t : doneAt ctx = Some D -> t < D -> Err ctx t = None.
Proof.
  unfold doneAt, Err. destruct (cancelAt ctx) as [c|], (deadlineAt ctx) as [d|];
    intros [= <-] Hle; repeat case_bool_decide; try done; try lia.
Qed.

Lemma condition_time ctx st t :
  exists done st',
    condition head latency range ctx st t
    = (done, None, st', probeEnd head latency ctx t (range t (testGVs st))).
Proof.
  unfold condition. case_bool_decide; eauto.
Qed.

Lemma loop_S {St} (cond : Context -> St -> nat -> bool * option error * St * nat)
    fuel ctx st t fire :
  wait.loop cond interval tickFirst (S fuel) ctx st t fire =
  let wake := t `max` fire in
  if wait.leaves tickFirst ctx t fire
  then
    let t' := match doneAt ctx with Some d => t `max` d | None => t end in
    Some (Err ctx t', st, t')
  else
    let '(done, err, st', t') := cond ctx st wake in
    match err with
    | Some e => Some (Some e, st', t')
    | None =>
        if done then Some (None, st', t')
        else wait.loop cond interval tickFirst fuel ctx st' t'
               (wait.next_tick interval fire wake)
    end.
Proof. reflexivity. Qed.

(** The loop calls the condition only at instants up to the one the
    context is done, and leaves once that instant is behind. *)
Lemma leaves_false ctx D t fire :
  doneAt ctx = Some D -> wait.leaves tickFirst ctx t fire = false -> t `max` fire <= D.
Proof.
  unfold wait.leaves. intros ->. cbv zeta. case_bool_decide; [done|]. lia.
Qed.

Lemma leaves_late ctx D t fire :
  doneAt ctx = Some D -> D < t `max` fire -> wait.leaves tickFirst ctx t fire = true.
Proof.
  unfold wait.leaves. intros -> ?. cbv zeta. by rewrite bool_decide_true by lia.
Qed.

Section loop.
Variable ctx : Context.
Variable D : nat.
Variable S0 : gset GroupVersion.
Hypothesis ctx_done : doneAt ctx = Some D.

Lemma loop_post fuel : forall st t fire out,
  Inv head latency range ctx D S0 st -> rounds st <> [] -> size (testGVs st) <> 0 ->
  (exists lastr, last (rounds st) = Some lastr /\ t = ended lastr) ->
  wait.loop (condition head latency range) interval tickFirst fuel ctx st t fire = Some out ->
  Post head latency range ctx D S0 out.
Proof.
  induction fuel as [|fuel IH]; intros st t fire out HI Hne Hsz (lastr & Hlast & Ht); [done|].
  rewrite loop_S. cbv zeta.
  destruct (wait.leaves tickFirst ctx t fire) eqn:Hwake.
  - rewrite ctx_done. intros [= <-]. destruct HI as (Hc & Hs & Htg & He).
    destruct (Err_done ctx D (t `max` D) ctx_done) as [e Herr]; [lia|].
    rewrite Herr. unfold Post. split; [done|]. split; [done|]. split; [done|].
    exists lastr. split; [done|]. split; [done|].
    split; [by rewrite Htg; unfold pending; rewrite Hlast|]. split; [done|]. by subst.
  - pose proof (leaves_false _ _ _ _ ctx_done Hwake) as Hle.
    destruct (condition_spec ctx D S0 st (t `max` fire) HI) as (done & st' & t' & Hcond & Hres).
    { right. split; [done|]. lia. }
    rewrite Hcond. destruct done.
    + by intros [= <-].
    + destruct Hres as (HI' & Hne' & Hsz' & Hl'). by apply IH.
Qed.

Lemma loop_total fuel : forall st t fire,
  0 < interval -> D < fire + fuel ->
  is_Some (wait.loop (condition head latency range) interval tickFirst (S fuel) ctx st t fire).
Proof.
  induction fuel as [|fuel IH]; intros st t fire Hi Hle; rewrite loop_S; cbv zeta.
  - rewrite (leaves_late ctx D) by (done || lia). done.
  - destruct (wait.leaves tickFirst ctx t fire); [done|].
    destruct (condition_time ctx st (t `max` fire)) as (done & st' & ->).
    destruct done; [done|]. apply IH; [done|]. unfold wait.next_tick. nia.
Qed.

End loop.

Lemma doneAt_WithTimeout ctx now timeout :
  exists D, doneAt (WithTimeout ctx now timeout) = Some D /\ D <= now + timeout.
Proof.
  unfold doneAt, WithTimeout. cbn.
  destruct (cancelAt ctx), (deadlineAt ctx); eexists; (split; [done|]); lia.
Qed.

Lemma poll_post ctx timeout S0 D out :
  doneAt (WithTimeout ctx 0 timeout) = Some D ->
  wait.PollUntilContextTimeout (condition head latency range) interval tickFirst ctx 0 timeout
    (initState S0) = Some out ->
  Post head latency range (WithTimeout ctx 0 timeout) D S0 out.
Proof.
  intros HD. unfold wait.PollUntilContextTimeout.
  destruct (condition_spec (WithTimeout ctx 0 timeout) D S0 (initState S0) 0)
    as (done & st' & t' & Hcond & Hres).
  { done. }
  { by left. }
  rewrite Hcond. destruct done.
  - by intros [= <-].
  - destruct Hres as (HI' & Hne' & Hsz' & Hl'). by apply loop_post.
Qed.

Lemma poll_total ctx timeout S0 :
  0 < interval ->
  is_Some (wait.PollUntilContextTimeout (condition head latency range) interval tickFirst
             ctx 0 timeout (initState S0)).
Proof.
  intros Hi. unfold wait.PollUntilContextTimeout.
  destruct (condition_time (WithTimeout ctx 0 timeout) (initState S0) 0)
    as (done & st' & ->).
  destruct done; [done|].
  destruct (doneAt_WithTimeout ctx 0 timeout) as (D & HD & Hle).
  apply (loop_total _ D HD); [done|]. lia.
Qed.

(** [waitForAPIServicesOpenAPIV3] in terms of the poll it wraps. *)
Lemma waitFor_unfold ctx timeout services :
  waitForAPIServicesOpenAPIV3 head latency range tickFirst interval ctx timeout services =
  match wait.PollUntilContextTimeout (condition head latency range) interval tickFirst
          ctx 0 timeout (initState (initialGVs services)) with
  | Some (Some e, st, t) =>
      Some (Some (wrap (str "error waiting for api services to become available") e), st, t)
  | r => r
  end.
Proof. reflexivity. Qed.

(** The poller returns, and what it returns satisfies [Post]. *)
Lemma waitFor_spec ctx timeout services :
  0 < interval ->
  exists D r st t,
    doneAt (WithTimeout ctx 0 timeout) = Some D /\ D <= timeout /\
    Post head latency range (WithTimeout ctx 0 timeout) D (initialGVs services) (r, st, t) /\
    waitForAPIServicesOpenAPIV3 head latency range tickFirst interval ctx timeout services =
      Some (match r with
            | Some e => Some (wrap (str "error waiting for api services to become available") e)
            | None => None
            end, st, t).
Proof.
  intros Hi. destruct (doneAt_WithTimeout ctx 0 timeout) as (D & HD & Hle).
  destruct (poll_total ctx timeout (initialGVs services) Hi) as [[[r st] t] Hp].
  exists D, r, st, t. split; [done|]. split; [lia|].
  split; [by eapply poll_post|]. rewrite waitFor_unfold, Hp. by destruct r.
Qed.


(** *** Consequences of [chain] *)

Lemma chain_ok ctx S rs rd :
  chain head latency range ctx S rs -> rd ∈ rs -> round_ok head latency range ctx rd.
Proof.
  revert S. induction rs as [|r rs IH]; intros S; [by intros _ ?%elem_of_nil|].
  intros (_ & Hok & Hc) [->|Hin]%elem_of_cons; [done|]. by eapply IH.
Qed.

Lemma chain_sub ctx S rs j rd :
  chain head latency range ctx S rs -> rs !! j = Some rd -> pre rd ⊆ S.
Proof.
  revert S j. induction rs as [|r rs IH]; intros S j; [done|].
  intros (Hp & Hok & Hc). destruct j as [|j]; cbn.
  - intros [= <-]. by rewrite Hp.
  - intros Hj. specialize (IH _ _ Hc Hj). intros g Hg. rewrite <- Hp.
    eapply failed_pre; [done|]. by apply IH.
Qed.

Lemma chain_drop ctx S rs i rd :
  chain head latency range ctx S rs -> rs !! i = Some rd ->
  chain head latency range ctx (pre rd) (drop i rs).
Proof.
  revert S i. induction rs as [|r rs IH]; intros S i; [done|].
  intros (Hp & Hok & Hc). destruct i as [|i]; cbn.
  - intros [= <-]. done.
  - intros Hi. by eapply IH.
Qed.

Lemma chain_next ctx G rs i r1 r2 :
  chain head latency range ctx G rs -> rs !! i = Some r1 -> rs !! (S i) = Some r2 ->
  pre r2 = failed (probes r1).
Proof.
  intros Hc H1 H2. pose proof (chain_drop ctx G rs i r1 Hc H1) as Hd.
  rewrite (drop_S _ _ _ H1) in Hd. destruct Hd as (_ & _ & Hd).
  destruct (drop (S i) rs) as [|r' rest] eqn:Hdr.
  - apply (f_equal (fun l => l !! 0)) in Hdr. rewrite lookup_drop, Nat.add_0_r in Hdr.
    by rewrite H2 in Hdr.
  - assert (r' = r2) as ->.
    { apply (f_equal (fun l => l !! 0)) in Hdr. rewrite lookup_drop, Nat.add_0_r in Hdr.
      rewrite H2 in Hdr. by injection Hdr. }
    by destruct Hd.
Qed.

Lemma chain_mono ctx S rs i j ri rj :
  chain head latency range ctx S rs -> i <= j ->
  rs !! i = Some ri -> rs !! j = Some rj -> pre rj ⊆ pre ri.
Proof.
  intros Hc Hle Hi Hj. pose proof (chain_drop ctx S rs i ri Hc Hi) as Hd.
  eapply (chain_sub ctx _ _ (j - i)); [done|].
  rewrite lookup_drop. by replace (i + (j - i)) with j by lia.
Qed.

Lemma probes_unique ctx rd g b1 b2 :
  round_ok head latency range ctx rd -> (g, b1) ∈ probes rd -> (g, b2) ∈ probes rd -> b1 = b2.
Proof.
  intros Hok. pose proof (round_ok_perm ctx rd Hok) as Hperm.
  assert (NoDup (probes rd).*1) as Hnd.
  { rewrite Hperm. apply NoDup_elements. }
  revert Hnd. generalize (probes rd). clear. intros ps.
  induction ps as [|[g' b'] ps IH]; [by intros _ ?%elem_of_nil|].
  cbn. intros [Hnin Hnd]%NoDup_cons.
  intros [[= -> ->]|H1]%elem_of_cons [[= ->]|H2]%elem_of_cons; try done.
  - exfalso. apply Hnin. apply list_elem_of_fmap. by exists (g', b2).
  - exfalso. apply Hnin. apply list_elem_of_fmap. by exists (g', b1).
  - by apply IH.
Qed.

Lemma probes_full ctx rd g :
  round_ok head latency range ctx rd -> g ∈ pre rd -> exists b, (g, b) ∈ probes rd.
Proof.
  intros Hok Hin. apply elem_of_elements in Hin.
  rewrite <- (round_ok_perm ctx rd Hok) in Hin.
  apply list_elem_of_fmap in Hin as ([g' b] & -> & Hin). by exists b.
Qed.

Lemma failed_iff ctx rd g :
  round_ok head latency range ctx rd ->
  g ∈ failed (probes rd) <-> g ∈ pre rd /\ (g, true) ∉ probes rd.
Proof.
  intros Hok. split.
  - intros Hf. split; [by eapply failed_pre|].
    apply failed_subseteq in Hf. intros Ht.
    by pose proof (probes_unique ctx rd g _ _ Hok Hf Ht).
  - intros [Hin Hnt]. apply failed_subseteq.
    destruct (probes_full ctx rd g Hok Hin) as [[] Hb]; done.
Qed.

Lemma pending_cons S r rs : pending S (r :: rs) = pending (failed (probes r)) rs.
Proof.
  unfold pending. destruct rs as [|r1 rs]; [done|]. cbn.
  destruct (last (r1 :: rs)) eqn:Hl; [done|]. by apply last_None in Hl.
Qed.

(** The set left after the rounds: registered and never confirmed. *)
Lemma chain_pending ctx S rs g :
  chain head latency range ctx S rs ->
  g ∈ pending S rs <-> g ∈ S /\ forall rd, rd ∈ rs -> (g, true) ∉ probes rd.
Proof.
  revert S. induction rs as [|r rs IH]; intros S.
  - intros _. cbn. split; [|by intros [? _]]. intros ?. split; [done|].
    by intros rd ?%elem_of_nil.
  - intros (Hp & Hok & Hc). rewrite pending_cons, (IH _ Hc), (failed_iff ctx r g Hok), Hp.
    split.
    + intros [[? ?] Hrest]. split; [done|]. intros rd [->|?]%elem_of_cons; auto.
    + intros [? Hall]. split; [split; [done|]|].
      * apply Hall. by left.
      * intros rd ?. apply Hall. by right.
Qed.

Lemma insert_by_perm {A} (less : A -> A -> bool) x l : insert_by less x l ≡ₚ x :: l.
Proof.
  induction l as [|y l IH]; cbn; [done|]. destruct (less y x); [|done].
  rewrite IH. apply Permutation_swap.
Qed.

Lemma sortedGroupVersions_perm gvs : sortedGroupVersions gvs ≡ₚ gvs.
Proof.
  unfold sortedGroupVersions. induction gvs as [|g gvs IH]; cbn; [done|].
  by rewrite insert_by_perm, IH.
Qed.

Lemma last_bind_round_events rs lastr :
  last rs = Some lastr -> last (rs ≫= round_events range) = Some (round_log range lastr).
Proof.
  intros Hl. apply last_Some in Hl as [rs' ->].
  rewrite bind_app. cbn. rewrite app_nil_r. unfold round_events.
  by rewrite app_assoc, last_snoc.
Qed.

Lemma starts_last D rs rd : starts D rs -> last rs = Some rd -> began rd <= D.
Proof.
  destruct rs as [|r rs]; [done|]. intros [H0 Hf].
  destruct rs as [|r1 rs]; cbn.
  - intros [= <-]. lia.
  - intros Hl. change (last (r1 :: rs) = Some rd) in Hl.
    apply last_Some_elem_of in Hl. rewrite Forall_forall in Hf. specialize (Hf _ Hl). lia.
Qed.

(** Every round is over by the instant the context is done. *)
Lemma round_ends ctx D S rs rd :
  doneAt ctx = Some D -> chain head latency range ctx S rs ->
  starts D rs -> rd ∈ rs -> began rd <= ended rd <= D.
Proof.
  intros HD Hc Hs Hin. destruct (chain_ok _ _ _ _ Hc Hin) as [_ He]. rewrite He.
  pose proof (probeEnd_ge ctx (range (began rd) (pre rd)) (began rd)).
  pose proof (probeEnd_le ctx D (range (began rd) (pre rd)) (began rd) HD).
  assert (began rd <= D); [|lia].
  destruct rs as [|r rs]; [by apply elem_of_nil in Hin|]. destruct Hs as [Hz Hf].
  apply elem_of_cons in Hin as [->|Hin]; [lia|].
  rewrite Forall_forall in Hf. by apply Hf.
Qed.

Lemma Err_never ctx t : doneAt ctx = None -> Err ctx t = None.
Proof.
  unfold doneAt, Err. by destruct (cancelAt ctx), (deadlineAt ctx).
Qed.

(** A probe recorded as successful was issued under a live context and
    answered before the round was over. *)
Lemma probeAll_true ctx t gvs g :
  (g, true) ∈ probeAll head latency ctx t gvs ->
  exists t', t <= t' /\ t' + latency t' g <= probeEnd head latency ctx t gvs /\
    head t' g = true /\ Err ctx t' = None.
Proof.
  revert t. induction gvs as [|g' gvs IH]; intros t; cbn; [by intros ?%elem_of_nil|].
  rewrite elem_of_cons. intros [[= -> Hp]|Hin].
  - exists t. split; [lia|].
    pose proof (probeEnd_ge ctx gvs (probe head latency ctx t g').2) as Hge.
    revert Hp Hge. unfold probe. destruct (doneAt ctx) as [d|] eqn:HD.
    + repeat case_bool_decide; cbn; try done. intros Hh Hge.
      split; [lia|]. split; [done|]. apply (Err_live ctx d); [done|lia].
    + cbn. intros Hh Hge. split; [lia|]. split; [done|]. by apply Err_never.
  - destruct (IH _ Hin) as (t' & ? & ? & ? & ?). exists t'.
    pose proof (probe_ge ctx t g'). split; [lia|done].
Qed.

(** A registered group-version that is not left over was confirmed in
    some round. *)
Lemma chain_confirmed ctx S rs g :
  chain head latency range ctx S rs -> g ∈ S -> g ∉ pending S rs ->
  exists rd, rd ∈ rs /\ (g, true) ∈ probes rd.
Proof.
  intros Hc Hg Hnot.
  destruct (decide (Exists (fun rd => (g, true) ∈ probes rd) rs)) as [Hex|Hno].
  - by apply Exists_exists in Hex.
  - exfalso. apply Hnot. apply (chain_pending ctx S rs g Hc). split; [done|].
    intros rd Hrd Hp. apply Hno. apply Exists_exists. by exists rd.
Qed.

End poller_facts.

End poller_facts.

(** ** The orchestrator *)
Module run_facts.
Import run run_inv.
Import apiregistrationv1 extract extract_inv extract_facts.

Section emits.
Context (P : Event -> Prop).

Lemma emits_ret {A} (a : A) : emits P (mret a).
Proof. intros w. exists []. by rewrite app_nil_r. Qed.

Lemma emits_bind {A B} (m : M A) (f : A -> M B) :
  emits P m -> (forall a, emits P (f a)) -> emits P (m ≫= f).
Proof.
  intros Hm Hf w. unfold mbind, M_bind.
  destruct (Hm w) as (e1 & H1 & HP1). destruct (m w) as [[e|a] w1]; cbn in *.
  - by exists e1.
  - destruct (Hf a w1) as (e2 & H2 & HP2). exists (e1 ++ e2).
    rewrite H2, H1, app_assoc. split; [done|]. by apply Forall_app.
Qed.

Lemma emits_orWrap {A} p (m : M A) : emits P m -> emits P (orWrap p m).
Proof.
  intros Hm w. unfold orWrap. destruct (Hm w) as (e1 & H1 & HP1).
  destruct (m w) as [[e|a] w1]; by exists e1.
Qed.

Lemma emits_emit ev : P ev -> emits P (emit ev).
Proof. intros HP w. exists [ev]. split; [done|]. by constructor. Qed.

Lemma emits_forEach {A} (body : A -> M unit) l :
  (forall x, emits P (body x)) -> emits P (forEach body l).
Proof.
  intros Hb. induction l as [|x l IH]; [apply emits_ret|].
  apply emits_bind; [done|]. by intros _.
Qed.

Lemma emits_call evs r : Forall P evs -> emits P (call evs r).
Proof. intros HP w. exists evs. unfold call. by destruct r. Qed.

End emits.

Lemma emits_getPath env (P : Event -> Prop) path :
  P (Get path) -> emits P (getPath env path).
Proof.
  intros HP w. exists [Get path]. rewrite getPath_unfold. cbn zeta.
  destruct (http_get env _ _); (split; [done|by constructor]).
Qed.

Lemma emits_writeJSONFile env dir name data :
  emits ioEvent (persist.writeJSONFile env dir name data).
Proof.
  intros w. rewrite writeJSONFile_unfold. cbn zeta.
  destruct (os_MkdirAll env _ dir).
  { eexists [_; _]. cbn. rewrite <- app_assoc. split; [done|]. by repeat constructor. }
  destruct (json.Indent _ _ data).
  { eexists [_; _]. cbn. rewrite <- app_assoc. split; [done|]. by repeat constructor. }
  destruct (os_WriteFile env _ _ _); eexists [_; _; _]; cbn; rewrite <- !app_assoc;
    (split; [done|]); by repeat constructor.
Qed.

Lemma emits_extractOne env out svc : emits ioEvent (extractOne env out svc).
Proof.
  unfold extractOne. apply emits_bind.
  - apply emits_orWrap. by apply emits_getPath.
  - intros resp. apply emits_orWrap. apply emits_writeJSONFile.
Qed.

Lemma emits_extractOpenAPIv3 env services out :
  emits ioEvent (extractOpenAPIv3 env services out).
Proof.
  unfold extractOpenAPIv3. apply emits_bind; [by apply emits_emit|]. intros _.
  apply emits_forEach. intros svc. apply emits_extractOne.
Qed.

Lemma emits_extractOpenAPIv2 env out : emits ioEvent (extractOpenAPIv2 env out).
Proof.
  unfold extractOpenAPIv2. apply emits_bind; [by apply emits_emit|]. intros _.
  apply emits_bind.
  - apply emits_orWrap. by apply emits_getPath.
  - intros resp. apply emits_orWrap. apply emits_writeJSONFile.
Qed.

Lemma emits_weaken {A} (P Q : Event -> Prop) (m : M A) :
  (forall ev, P ev -> Q ev) -> emits P m -> emits Q m.
Proof.
  intros HPQ Hm w. destruct (Hm w) as (evs & H1 & H2). exists evs. split; [done|].
  eapply Forall_impl; eauto.
Qed.

Lemma emits_run {A} (P : Event -> Prop) (m : M A) w r w' :
  emits P m -> m w = (r, w') -> exists evs, trace w' = trace w ++ evs /\ Forall P evs.
Proof. intros Hm Hr. specialize (Hm w). by rewrite Hr in Hm. Qed.

Lemma bind_inv {A B} (m : M A) (f : A -> M B) w r w' :
  (m ≫= f) w = (r, w') ->
  (exists e, m w = (inl e, w') /\ r = inl e) \/
  (exists a w1, m w = (inr a, w1) /\ f a w1 = (r, w')).
Proof.
  unfold mbind, M_bind. destruct (m w) as [[e|a] w1].
  - intros [= <- <-]. left. eauto.
  - intros Hf. right. eauto.
Qed.

Lemma orWrap_inv {A} p (m : M A) w r w' :
  orWrap p m w = (r, w') ->
  exists r0, m w = (r0, w') /\
    r = match r0 with inl e => inl (wrap p e) | inr a => inr a end.
Proof.
  unfold orWrap. destruct (m w) as [[e|a] w1]; intros [= <- <-]; eauto.
Qed.

Lemma reqs_cons ev evs :
  reqs (ev :: evs) = match req_of ev with Some r => r :: reqs evs | None => reqs evs end.
Proof. unfold reqs. cbn. by destruct (req_of ev). Qed.

Lemma reqs_silent evs : Forall silent evs -> reqs evs = [].
Proof.
  induction 1 as [|ev evs [Hr _] _ IH]; [done|]. unfold reqs in *. cbn. by rewrite Hr.
Qed.

Lemma noproc_silent evs : Forall silent evs -> Forall (fun ev => isProcess ev = false) evs.
Proof. intros H. eapply Forall_impl; [exact H|]. by intros ev [_ ?]. Qed.

Lemma ioEvent_noproc ev : ioEvent ev -> isProcess ev = false.
Proof. by destruct ev. Qed.

Lemma pollEvent_silent ev : pollEvent ev -> silent ev.
Proof. by destruct ev. Qed.

(** The poller only probes and logs. *)
Lemma waitFor_events head latency range tickFirst second ctx timeout services r st t :
  poller.waitForAPIServicesOpenAPIV3 head latency range tickFirst second ctx timeout services
    = Some (r, st, t) ->
  Forall pollEvent (poller.events st).
Proof.
  intros Hw. rewrite poller_facts.waitFor_unfold in Hw.
  destruct (poller_facts.doneAt_WithTimeout ctx 0 timeout) as (D & HD & _).
  destruct (wait.PollUntilContextTimeout _ _ _ _ _ _ _) as [[[r0 st0] t0]|] eqn:Hp; [|done].
  eapply poller_facts.poll_post in Hp; [|exact HD].
  assert (st0 = st) as -> by (destruct r0; by injection Hw).
  destruct Hp as (_ & _ & -> & _).
  induction (poller.rounds st) as [|rd rs IH]; [constructor|].
  cbn. apply Forall_app. split; [|done].
  unfold poller_inv.round_events. apply Forall_app. split.
  - apply Forall_fmap. by apply Forall_true.
  - constructor; [|constructor]. unfold poller_inv.round_log. by case_bool_decide.
Qed.

Lemma emits_waitForAPIServices h services :
  emits silent (waitForAPIServices h services).
Proof.
  intros w. unfold waitForAPIServices.
  destruct (poller.waitForAPIServicesOpenAPIV3 _ _ _ _ _ _) as [[[r st] t]|] eqn:Hw.
  - exists (poller.events st). split; [by destruct r|].
    eapply Forall_impl; [by eapply waitFor_events|]. apply pollEvent_silent.
  - exists []. by rewrite app_nil_r.
Qed.

Lemma waitForAPIServices_files h services w :
  files (waitForAPIServices h services w).2 = files w.
Proof.
  unfold waitForAPIServices.
  destruct (poller.waitForAPIServicesOpenAPIV3 _ _ _ _ _ _) as [[[[e|] st] t]|]; done.
Qed.

Section run_facts.
Variable env : Env.

Lemma extractOpenAPIv3_reqs services out w r w' :
  extractOpenAPIv3 env services out w = (r, w') ->
  exists evs, trace w' = trace w ++ evs /\
    reqs evs `prefix_of` plan3 out services /\
    (r = inr tt -> reqs evs = plan3 out services).
Proof.
  unfold extractOpenAPIv3. intros [(e & [=] & _)|([] & w1 & [= <-] & Hf)]%bind_inv.
  destruct (forEach_extract_any env out services _ r w' Hf) as (evs & Htr & Hp).
  cbn in Htr. eexists (_ :: evs). split; [by rewrite Htr, <- app_assoc|].
  split; [done|]. intros ->.
  apply forEach_extract_ok in Hf as (evs' & outs & Htr' & Hr & _).
  rewrite Htr in Htr'. apply app_inv_head in Htr' as ->. done.
Qed.

Lemma extractOpenAPIv2_reqs out w r w' :
  extractOpenAPIv2 env out w = (r, w') ->
  exists evs, trace w' = trace w ++ evs /\
    reqs evs `prefix_of` [Fetch (str "/openapi/v2"); Store (v2Destination out)] /\
    (r = inr tt -> reqs evs = [Fetch (str "/openapi/v2"); Store (v2Destination out)]).
Proof.
  unfold extractOpenAPIv2. intros [(e & [=] & _)|([] & w1 & [= <-] & Hf)]%bind_inv.
  apply bind_inv in Hf as [(e & Hg & ->)|(resp & w2 & Hg & Hw)].
  - apply orWrap_inv in Hg as (r0 & Hg & _). rewrite getPath_unfold in Hg.
    cbn in Hg. eexists [_; _]. split.
    { destruct (http_get env _ _); injection Hg as <- <-; cbn; by rewrite <- app_assoc. }
    split; [by eexists [_]|done].
  - apply orWrap_inv in Hg as (r0 & Hg & Hr0). rewrite getPath_unfold in Hg.
    cbn in Hg. assert (w2 = {| trace := (trace w ++ [LogInfo (str "Extracting OpenAPI v2") []])
                                        ++ [Get (str "/openapi/v2")]; files := files w |}) as ->.
    { by destruct (http_get env _ _); injection Hg as <- <-. }
    apply orWrap_inv in Hw as (r1 & Hw & ->).
    apply writeJSONFile_spec in Hw as (evs & Htr & Hcase). cbn in Htr.
    eexists (_ :: _ :: evs). split; [by rewrite Htr, <- !app_assoc|].
    rewrite !reqs_cons. cbn [req_of].
    destruct Hcase as [(e & -> & _ & ->)|[(e & o & -> & _ & _ & ->)|(o & -> & _ & _ & -> & _)]].
    + split; [by eexists [_]|done].
    + split; [by exists []|done].
    + split; [by exists []|done].
Qed.

Lemma phases_reqs h services w r w' :
  phases env h services w = (r, w') ->
  exists evs, trace w' = trace w ++ evs /\
    Forall (fun ev => isProcess ev = false) evs /\
    reqs evs `prefix_of` plan (outputDir h) services /\
    (r = inr tt -> reqs evs = plan (outputDir h) services).
Proof.
  intros Hr.
  assert (emits (fun ev => isProcess ev = false) (phases env h services)) as Hem.
  { unfold phases. repeat (apply emits_bind; [|intros _]); apply emits_orWrap.
    - apply emits_call. by repeat constructor.
    - apply emits_call. constructor.
    - eapply emits_weaken; [|apply emits_waitForAPIServices]. by intros ev [_ ?].
    - eapply emits_weaken; [|apply emits_extractOpenAPIv2]. apply ioEvent_noproc.
    - eapply emits_weaken; [|apply emits_extractOpenAPIv3]. apply ioEvent_noproc. }
  destruct (emits_run _ _ _ _ _ Hem Hr) as (evs & Htr & Hnp).
  exists evs. split; [done|]. split; [done|].
  assert (forall evs', trace w' = trace w ++ evs' -> evs' = evs) as Huniq.
  { intros evs' H'. rewrite Htr in H'. by apply app_inv_head in H'. }
  clear Hem Hnp.
  unfold phases in Hr.
  (* wait for the aggregated API *)
  apply bind_inv in Hr as [(e & H1 & ->)|([] & w1 & H1 & Hr)].
  { apply orWrap_inv in H1 as (r0 & H1 & _).
    eapply (emits_run silent) in H1 as (e1 & Ht1 & Hs1);
      [|apply emits_call; by repeat constructor].
    rewrite <- (Huniq _ Ht1), (reqs_silent _ Hs1). split; [by eexists|done]. }
  apply orWrap_inv in H1 as (r0 & H1 & _).
  eapply (emits_run silent) in H1 as (e1 & Ht1 & Hs1);
    [|apply emits_call; by repeat constructor].
  (* clientset *)
  apply bind_inv in Hr as [(e & H2 & ->)|([] & w2 & H2 & Hr)].
  { apply orWrap_inv in H2 as (r0' & H2 & _).
    eapply (emits_run silent) in H2 as (e2 & Ht2 & Hs2); [|apply emits_call; constructor].
    rewrite Ht1, <- app_assoc in Ht2.
    rewrite <- (Huniq _ Ht2), reqs_app, (reqs_silent _ Hs1), (reqs_silent _ Hs2).
    split; [by eexists|done]. }
  apply orWrap_inv in H2 as (r0' & H2 & _).
  eapply (emits_run silent) in H2 as (e2 & Ht2 & Hs2); [|apply emits_call; constructor].
  (* readiness poller *)
  apply bind_inv in Hr as [(e & H3 & ->)|([] & w3 & H3 & Hr)].
  { apply orWrap_inv in H3 as (r0'' & H3 & _).
    eapply (emits_run silent) in H3 as (e3 & Ht3 & Hs3); [|apply emits_waitForAPIServices].
    rewrite Ht2, Ht1, <- !app_assoc in Ht3.
    rewrite <- (Huniq _ Ht3), !reqs_app, (reqs_silent _ Hs1), (reqs_silent _ Hs2),
      (reqs_silent _ Hs3).
    split; [by eexists|done]. }
  apply orWrap_inv in H3 as (r0'' & H3 & _).
  eapply (emits_run silent) in H3 as (e3 & Ht3 & Hs3); [|apply emits_waitForAPIServices].
  (* v2 *)
  apply bind_inv in Hr as [(e & H4 & ->)|([] & w4 & H4 & Hr)].
  { apply orWrap_inv in H4 as (r4 & H4 & _).
    apply extractOpenAPIv2_reqs in H4 as (e4 & Ht4 & [k Hk] & _).
    rewrite Ht3, Ht2, Ht1, <- !app_assoc in Ht4.
    rewrite <- (Huniq _ Ht4), !reqs_app, (reqs_silent _ Hs1), (reqs_silent _ Hs2),
      (reqs_silent _ Hs3). cbn [app].
    split; [|done]. exists (k ++ plan3 (outputDir h) services).
    unfold plan. rewrite app_assoc, <- Hk. done. }
  apply orWrap_inv in H4 as (r4 & H4 & Hr4).
  assert (r4 = inr tt) as -> by (by destruct r4 as [|[]]).
  apply extractOpenAPIv2_reqs in H4 as (e4 & Ht4 & _ & Hv2). specialize (Hv2 eq_refl).
  (* v3 *)
  apply orWrap_inv in Hr as (r5 & H5 & ->).
  apply extractOpenAPIv3_reqs in H5 as (e5 & Ht5 & [k Hk] & Hv3).
  rewrite Ht4, Ht3, Ht2, Ht1, <- !app_assoc in Ht5.
  rewrite <- (Huniq _ Ht5), !reqs_app, (reqs_silent _ Hs1), (reqs_silent _ Hs2),
    (reqs_silent _ Hs3), Hv2. cbn [app]. split.
  - exists k. unfold plan. by rewrite Hk.
  - intros Hok. destruct r5 as [|[]]; [done|]. by rewrite Hv3.
Qed.

End run_facts.

Section run_unfold.
Variable env : Env.
Variable h : Harness.

(** [extractOpenAPI] phase by phase, with the deferred stops written out. *)
Lemma extractOpenAPI_unfold w :
  extractOpenAPI env h w =
  let w1 := after w [StartControlPlane] in
  match StartWithExtensions h with
  | inl e => (inl (wrap (str "failed to start testenv") e), w1)
  | inr services =>
      match client_New h with
      | Some e => (inl (wrap (str "failed to create Kubernetes client") e),
                   after w1 (teardownControlPlane h))
      | None =>
          match apiserver_New h with
          | Some e => (inl (wrap (str "failed to setup api server") e),
                       after w1 (teardownControlPlane h))
          | None =>
              let w2 := after w1 [StartAPIServer] in
              match apiSrv_Start h with
              | Some e => (inl (wrap (str "failed to start api server") e),
                           after w2 (teardownControlPlane h))
              | None =>
                  let res := phases env h services w2 in
                  (res.1, after (after res.2 (teardownAPIServer h)) (teardownControlPlane h))
              end
          end
      end
  end.
Proof.
  unfold extractOpenAPI, after.
  unfold mbind at 1, M_bind at 1, orWrap at 1, startTestEnv.
  destruct (StartWithExtensions h) as [e|services]; [done|].
  unfold defer at 1. unfold mbind at 1, M_bind at 1, orWrap at 1, call at 1.
  cbn [trace files]. rewrite app_nil_r.
  destruct (client_New h); [done|].
  unfold mbind at 1, M_bind at 1, orWrap at 1, call at 1.
  cbn [trace files]. rewrite app_nil_r.
  destruct (apiserver_New h); [done|].
  unfold mbind at 1, M_bind at 1, orWrap at 1, call at 1.
  cbn [trace files].
  destruct (apiSrv_Start h); [done|].
  unfold defer. fold (phases env h services).
  by destruct (phases env h services _) as [r w'].
Qed.

End run_unfold.

End run_facts.

(** ** Further facts about the extraction and the exit code *)
Module extraction_facts.
Import run run_inv run_facts.
Import apiregistrationv1 extract extract_inv extract_facts.

Lemma pair_eta_eq {A B} (x : A * B) a : x.1 = a -> x = (a, x.2).
Proof. destruct x. cbn. by intros ->. Qed.

Lemma returned_eq out :
  (match out with Some _ => true | None => false end) = true ->
  out = Some ((samples.returned out).1.1, (samples.returned out).1.2, (samples.returned out).2).
Proof. destruct out as [[[r st] t]|]; [done|discriminate]. Qed.

Lemma main_code env h w :
  (main env h w).1 = match result_of (extractOpenAPI env h w) with
                     | Some _ => 1%Z
                     | None => 0%Z
                     end.
Proof.
  unfold main, result_of. by destruct (extractOpenAPI env h w) as [[e|[]] w'].
Qed.

Lemma main_files env h w :
  files (main env h w).2 = files (extractOpenAPI env h w).2.
Proof. unfold main. by destruct (extractOpenAPI env h w) as [[e|[]] w']. Qed.

Lemma written_snoc out services svc outs o fs :
  length outs = length services ->
  written out (services ++ [svc]) (outs ++ [o]) fs
  = <[v3Destination out svc := o]> (written out services outs fs).
Proof.
  intros Hlen. unfold written. rewrite zip_with_app by lia. by rewrite foldl_app.
Qed.

(** The last document written to a destination is the one found there. *)
Lemma written_lookup_last out services outs fs j b :
  length outs = length services -> services !! j = Some b ->
  (forall k c, j < k -> services !! k = Some c ->
     v3Destination out c <> v3Destination out b) ->
  written out services outs fs !! v3Destination out b = outs !! j.
Proof.
  revert outs. induction services as [|svc services IH] using rev_ind; intros outs Hlen Hj Hlast.
  { done. }
  destruct outs as [|o outs _] using rev_ind.
  { rewrite length_app in Hlen. cbn in Hlen. lia. }
  rewrite !length_app in Hlen. cbn in Hlen.
  rewrite written_snoc by lia.
  destruct (decide (j = length services)) as [->|Hne].
  - rewrite lookup_app_r, Nat.sub_diag in Hj by lia. injection Hj as ->.
    rewrite lookup_insert_eq. rewrite lookup_app_r by lia.
    replace (length services - length outs) with 0 by lia. done.
  - assert (j < length services) as Hlt.
    { apply lookup_lt_Some in Hj. rewrite length_app in Hj. cbn in Hj. lia. }
    rewrite lookup_app_l in Hj by done.
    rewrite lookup_insert_ne.
    + rewrite lookup_app_l by lia. apply IH; [lia|done|].
      intros k c Hk Hc. apply (Hlast k c Hk). rewrite lookup_app_l; [done|].
      by apply lookup_lt_Some in Hc.
    + apply (Hlast (length services) svc); [lia|].
      by rewrite lookup_app_r, Nat.sub_diag by lia.
Qed.

Lemma written_dom out services outs fs :
  length outs = length services ->
  dom (written out services outs fs)
  = dom fs ∪ list_to_set (v3Destination out <$> services).
Proof.
  revert outs. induction services as [|svc services IH] using rev_ind; intros outs Hlen.
  { destruct outs; [|done]. unfold written. cbn. set_solver. }
  destruct outs as [|o outs _] using rev_ind.
  { rewrite length_app in Hlen. cbn in Hlen. lia. }
  rewrite !length_app in Hlen. cbn in Hlen.
  rewrite written_snoc by lia. rewrite dom_insert_L, IH by lia.
  rewrite fmap_app, list_to_set_app_L. cbn. set_solver.
Qed.

Lemma size_list_to_set_le `{Countable A} (l : list A) :
  size (list_to_set (C := gset A) l) <= length l.
Proof.
  induction l as [|x l IH]; cbn; [by rewrite size_empty|].
  rewrite size_union_alt, size_singleton.
  assert (size (list_to_set (C := gset A) l ∖ {[x]}) <= size (list_to_set (C := gset A) l)).
  { apply subseteq_size. set_solver. }
  lia.
Qed.

Lemma size_list_to_set_dup `{Countable A} (l : list A) :
  ~ NoDup l -> size (list_to_set (C := gset A) l) < length l.
Proof.
  induction l as [|x l IH]; [intros []; constructor|].
  intros Hnd. cbn. destruct (decide (x ∈ l)) as [Hin|Hnin].
  - assert ({[x]} ∪ list_to_set (C := gset A) l = list_to_set l) as -> by set_solver.
    pose proof (size_list_to_set_le l). lia.
  - assert (~ NoDup l) as Hnd' by (intros ?; apply Hnd; by constructor).
    specialize (IH Hnd'). rewrite size_union_alt, size_singleton.
    assert (size (list_to_set (C := gset A) l ∖ {[x]}) <= size (list_to_set (C := gset A) l)).
    { apply subseteq_size. set_solver. }
    lia.
Qed.

Lemma forEach_cooperative env out services w :
  cooperative env -> exists w', forEach (extractOne env out) services w = (inr tt, w').
Proof.
  intros (Hget & Hmk & Hwr). revert w. induction services as [|svc services IH]; intros w.
  { by eexists. }
  rewrite forEach_cons.
  assert (exists w1, extractOne env out svc w = (inr tt, w1)) as [w1 ->]; [|apply IH].
  unfold extractOne. unfold mbind, M_bind, orWrap at 1. rewrite getPath_unfold. cbn zeta.
  destruct (Hget (trace w) (v3Path (Group (Spec svc)) (Version (Spec svc))))
    as (resp & o & -> & Hi).
  unfold orWrap. rewrite writeJSONFile_unfold. cbn zeta. rewrite Hmk, Hi, Hwr. by eexists.
Qed.

Lemma inOrder_perm t (G : gset GroupVersion) : samples.inOrder t G ≡ₚ elements G.
Proof. done. Qed.


End extraction_facts.

(** ** File names of group-versions *)
Module names_facts.
Import apiregistrationv1 filepath filepath_inv filepath_facts.
Import extract extract_inv extract_facts names_inv.

Lemma split_first {A} (x : A) l1 l2 r1 r2 :
  x ∉ l1 -> x ∉ l2 -> l1 ++ x :: r1 = l2 ++ x :: r2 -> l1 = l2 /\ r1 = r2.
Proof.
  revert l2. induction l1 as [|a l1 IH]; intros [|b l2] H1 H2; cbn.
  - by intros [= ->].
  - intros [= <- _]. exfalso. apply H2. by left.
  - intros [= -> _]. exfalso. apply H1. by left.
  - intros [= -> Heq]. destruct (IH l2) as [-> ->]; try done.
    + intros ?. apply H1. by right.
    + intros ?. apply H2. by right.
Qed.

(** Services with plain names and the same file name are of the same
    group and version. *)
Lemma v3FileName_inj a b :
  "_"%char ∉ Group (Spec a) -> "_"%char ∉ Group (Spec b) ->
  v3FileName a = v3FileName b -> groupVersion a = groupVersion b.
Proof.
  intros Ha Hb. unfold v3FileName. intros Heq%app_inv_head.
  change (str "__" ++ ?l) with ("_"%char :: "_"%char :: l) in Heq.
  apply split_first in Heq as [Hg Hrest]; [|done|done].
  injection Hrest as Hv%app_inv_tail.
  unfold groupVersion. by rewrite Hg, Hv.
Qed.

Lemma v3Destination_inj out a b :
  plainNames a -> plainNames b ->
  v3Destination out a = v3Destination out b -> groupVersion a = groupVersion b.
Proof.
  intros (Ha1 & Ha2 & Ha3) (Hb1 & Hb2 & Hb3).
  rewrite !v3Destination_name by done. intros Heq%app_inv_head%app_inv_head.
  by apply v3FileName_inj.
Qed.

Lemma v3Destination_same out a b :
  groupVersion a = groupVersion b -> v3Destination out a = v3Destination out b.
Proof.
  intros Hgv. unfold v3Destination, v3FileName.
  assert (Group (Spec a) = Group (Spec b) /\ Version (Spec a) = Version (Spec b)) as [-> ->].
  { unfold groupVersion in Hgv. by injection Hgv. }
  done.
Qed.

(** Two labellings of a list that identify the same members name as many
    classes. *)
Lemma size_list_to_set_fmap `{Countable B, Countable C} {A} (f : A -> B) (g : A -> C) l :
  (forall x y, x ∈ l -> y ∈ l -> f x = f y <-> g x = g y) ->
  size (list_to_set (f <$> l) : gset B) = size (list_to_set (g <$> l) : gset C).
Proof.
  induction l as [|x l IH]; intros Hfg; [done|].
  cbn [fmap list_fmap list_to_set].
  assert (f x ∈ (list_to_set (f <$> l) : gset B) <-> g x ∈ (list_to_set (g <$> l) : gset C))
    as Hmem.
  { rewrite !elem_of_list_to_set, !list_elem_of_fmap. split.
    - intros (y & Hy & Hin). exists y. split; [|done].
      apply (Hfg x y); [by left|by right|done].
    - intros (y & Hy & Hin). exists y. split; [|done].
      apply (Hfg x y); [by left|by right|done]. }
  assert (size (list_to_set (f <$> l) : gset B) = size (list_to_set (g <$> l) : gset C)) as IH'.
  { apply IH. intros y z Hy Hz. apply Hfg; by right. }
  destruct (decide (f x ∈ (list_to_set (f <$> l) : gset B))) as [Hin|Hnin].
  - rewrite (subseteq_union_1_L {[f x]}) by set_solver.
    rewrite (subseteq_union_1_L {[g x]}) by (apply Hmem in Hin; set_solver). done.
  - rewrite size_union by set_solver.
    rewrite size_union by (rewrite Hmem in Hnin; set_solver).
    by rewrite !size_singleton, IH'.
Qed.

End names_facts.

(** ** Directories *)
Module directory_facts.
Import filepath filepath_inv filepath_facts directory_inv samples_posix.

Lemma madeDirs_app a b : madeDirs (a ++ b) = madeDirs a ++ madeDirs b.
Proof. unfold madeDirs. apply omap_app. Qed.

(** The path [writeJSONFile] derives from a name whose base is [..], [.]
    or [/] names a directory. *)
Lemma destination_directory dir name :
  Base name = str ".." \/ Base name = str "." \/ Base name = [Separator] ->
  isDirectory dir (persist.destination dir name).
Proof.
  unfold persist.destination, isDirectory. intros Hb.
  destruct dir as [|c dir].
  - cbn [Join]. destruct Hb as [-> | [-> | ->]]; cbn; auto.
  - cbn [Join]. change (joinSep [c :: dir; ?b]) with ((c :: dir) ++ Separator :: b).
    destruct Hb as [-> | [-> | ->]].
    + right; left. done.
    + left. by apply Clean_snoc_dot.
    + left. by apply (Clean_snoc_sep (c :: dir)).
Qed.

Lemma env_posix_refuses resp : refusesDirectories (env_posix resp).
Proof.
  intros pre post dir p data _ Hdir. cbn.
  assert (namesDirectory (pre ++ MkdirAll dir :: post) p = true) as ->; [|by eexists].
  unfold namesDirectory.
  destruct Hdir as [Hp|[Hp|[-> | [-> | ->]]]]; try (cbn; by rewrite ?orb_true_r).
  - apply orb_true_iff. right. apply existsb_exists. exists dir. split.
    + rewrite madeDirs_app. apply in_or_app. right. by left.
    + by rewrite Hp, bool_decide_true.
  - apply orb_true_iff. right. apply existsb_exists. exists dir. split.
    + rewrite madeDirs_app. apply in_or_app. right. by left.
    + rewrite Hp, (bool_decide_true (_ = Clean (dir ++ _))) by done. apply orb_true_r.
Qed.

End directory_facts.

(** * The claims: persistence and naming *)
Section claims_persist.
Import apiregistrationv1 filepath filepath_inv filepath_facts extract extract_inv extract_facts extraction_facts.
Import directory_inv.

(** C4, as amended. Whenever [writeJSONFile] succeeds, compacting the
    bytes it stored gives the compact form of the payload it was handed:
    both [json.Compact] calls succeed with the same bytes. The stored
    bytes therefore compact back to the payload itself exactly when the
    payload was already compact. *)
Theorem writeJSONFile_compact_roundtrip env dir name payload w w' :
  persist.writeJSONFile env dir name payload w = (inr tt, w') ->
  exists written c,
    files w' !! persist.destination dir name = Some written /\
    json.Compact written = inr c /\ json.Compact payload = inr c.
Proof.
  intros H. apply writeJSONFile_spec in H as (evs & _ & Hcase).
  destruct Hcase as [(? & ? & _)|[(? & ? & ? & _)|(out & _ & Hi & Hf & _)]]; try done.
  apply json_facts.Compact_Indent in Hi as (c & Hc1 & Hc2);
    [|constructor|by repeat constructor].
  exists out, c. rewrite Hf, lookup_insert_eq. done.
Qed.

Lemma writeJSONFile_compact_roundtrip_witness :
  let r := persist.writeJSONFile (samples.env_ok samples.spaced) (str "out")
             (str "swagger.json") samples.spaced samples.w0 in
  r = (inr tt, r.2) /\
  exists written c,
    files r.2 !! persist.destination (str "out") (str "swagger.json") = Some written /\
    json.Compact written = inr c /\ json.Compact samples.spaced = inr c.
Proof.
  cbv zeta.
  assert (persist.writeJSONFile (samples.env_ok samples.spaced) (str "out")
            (str "swagger.json") samples.spaced samples.w0
          = (inr tt, (persist.writeJSONFile (samples.env_ok samples.spaced) (str "out")
                        (str "swagger.json") samples.spaced samples.w0).2)) as Hr.
  { apply pair_eta_eq. vm_compute. reflexivity. }
  split; [exact Hr|].
  exact (writeJSONFile_compact_roundtrip (samples.env_ok samples.spaced)
           (str "out") (str "swagger.json") samples.spaced samples.w0 _ Hr).
Defined.

(** C4, as stated, fails: the accepted payload [{"a": 1}] is stored
    pretty-printed in [out/swagger.json], and compacting the stored bytes
    gives [{"a":1}], which is not the fetched payload. *)
Lemma writeJSONFile_roundtrip_counterexample :
  let r := persist.writeJSONFile (samples.env_ok samples.spaced) (str "out")
             (str "swagger.json") samples.spaced samples.w0 in
  let stored := files r.2 !! str "out/swagger.json" in
  r.1 = inr tt /\
  json.Compact <$> stored = Some (inr samples.compacted) /\
  json.Compact <$> stored <> Some (inr samples.spaced).
Proof.
  cbv zeta. split; [vm_compute; reflexivity|].
  split; [vm_compute; reflexivity|]. vm_compute. discriminate.
Qed.

(** C9, as amended. When the base component of [name] is a proper entry
    name (not [..], [.] or [/]), every file [writeJSONFile] touches is that
    base component directly inside the cleaned directory: no other file
    changes, and no other file name is handed to [os.WriteFile]. When the
    base component is [..], [.] or [/], the name handed to [os.WriteFile]
    is not inside the directory: it is the directory itself or its parent.
    On a file system that cannot open a directory for writing the call
    then fails and every file is left as it was. *)
Theorem writeJSONFile_inside_dir env dir name data w :
  let target := inDir (Clean dir) (Base name) in
  let r := persist.writeJSONFile env dir name data w in
  (Base name <> str ".." -> Base name <> str "." -> Base name <> [Separator] ->
   noSep (Base name) /\
   persist.destination dir name = target /\
   (forall q, q <> target -> files r.2 !! q = files w !! q) /\
   (forall f d, WriteFile f d ∈ trace r.2 -> WriteFile f d ∈ trace w \/ f = target)) /\
  (Base name = str ".." \/ Base name = str "." \/ Base name = [Separator] ->
   isDirectory dir (persist.destination dir name) /\
   (forall f d, WriteFile f d ∈ trace r.2 ->
      WriteFile f d ∈ trace w \/ f = persist.destination dir name) /\
   (refusesDirectories env -> files r.2 = files w /\ exists e, r.1 = inl e)).
Proof.
  cbv zeta. split.
  - intros H1 H2 H3.
    assert (properElem (Base name)) as Hp.
    { destruct (Base_shape name) as [?|[?|[? ?]]]; done. }
    assert (persist.destination dir name = inDir (Clean dir) (Base name)) as Hd.
    { unfold persist.destination. by apply Join_dir_elem. }
    split; [apply Hp|]. split; [done|]. split.
    + intros q Hq.
      destruct (persist.writeJSONFile env dir name data w) as [r w'] eqn:Hw.
      apply writeJSONFile_spec in Hw as (evs & _ & Hcase). rewrite Hd in Hcase. cbn.
      destruct Hcase as [(? & _ & -> & _)|[(? & ? & _ & _ & Hf & _)|(out & _ & _ & -> & _)]];
        [done|by apply Hf|by rewrite lookup_insert_ne].
    + intros f d Hin. rewrite <- Hd. by eapply writeJSONFile_writes.
  - intros Hb. pose proof (directory_facts.destination_directory dir name Hb) as Hdir.
    split; [done|]. split; [intros f d Hin; by eapply writeJSONFile_writes|].
    intros Hfs. rewrite writeJSONFile_unfold. cbv zeta.
    destruct (os_MkdirAll env _ dir) as [e|] eqn:Hmk; [by eauto|].
    destruct (json.Indent _ _ data) as [e|out]; [by eauto|].
    destruct (Hfs (trace w ++ [LogInfo (str "Writing file")
                                 [str "OutputDirectory"; dir; str "File"; name]])
                [] dir (persist.destination dir name) out Hmk Hdir) as [e He].
    rewrite He. by eauto.
Qed.

Lemma writeJSONFile_inside_dir_witness :
  let env := samples_posix.env_posix samples.spaced in
  let target := inDir (Clean (str "out/v3")) (Base (str "../etc/passwd")) in
  let r := persist.writeJSONFile env (str "out/v3") (str "../etc/passwd")
             samples.spaced samples.w0 in
  Base (str "../etc/passwd") <> str ".." /\
  Base (str "../etc/passwd") <> str "." /\
  Base (str "../etc/passwd") <> [Separator] /\
  target = str "out/v3/passwd" /\ r.1 = inr tt /\
  noSep (Base (str "../etc/passwd")) /\
  persist.destination (str "out/v3") (str "../etc/passwd") = target /\
  (forall q, q <> target -> files r.2 !! q = files samples.w0 !! q) /\
  (forall f d, WriteFile f d ∈ trace r.2 -> WriteFile f d ∈ trace samples.w0 \/ f = target).
Proof.
  cbv zeta.
  assert (Base (str "../etc/passwd") <> str "..") as H1 by (vm_compute; discriminate).
  assert (Base (str "../etc/passwd") <> str ".") as H2 by (vm_compute; discriminate).
  assert (Base (str "../etc/passwd") <> [Separator]) as H3 by (vm_compute; discriminate).
  split; [exact H1|]. split; [exact H2|]. split; [exact H3|].
  split; [vm_compute; reflexivity|]. split; [vm_compute; reflexivity|].
  exact (proj1 (writeJSONFile_inside_dir (samples_posix.env_posix samples.spaced)
                  (str "out/v3") (str "../etc/passwd") samples.spaced samples.w0) H1 H2 H3).
Defined.

(** C9, as stated, fails: for the name [..] the base component is [..]
    itself and the write is aimed at [.], the parent of the directory
    [out], not at an entry of [out]. On a file system that cannot open a
    directory the call fails there, "error writing file .: open .: is a
    directory", and no file is written at all. *)
Lemma writeJSONFile_parent_counterexample :
  let env := samples_posix.env_posix samples.spaced in
  let r := persist.writeJSONFile env (str "out") (str "..") samples.spaced samples.w0 in
  refusesDirectories env /\
  persist.destination (str "out") (str "..") = str "." /\
  (exists d, last (trace r.2) = Some (WriteFile (str ".") d)) /\
  (~ exists b, b <> [] /\ noSep b /\
      persist.destination (str "out") (str "..") = inDir (Clean (str "out")) b) /\
  Error <$> (match r.1 with inl e => Some e | inr _ => None end)
    = Some (str "error writing file .: open .: is a directory") /\
  files r.2 = files samples.w0.
Proof.
  cbv zeta. split; [apply directory_facts.env_posix_refuses|].
  split; [vm_compute; reflexivity|]. split; [eexists; vm_compute; reflexivity|].
  split.
  { intros (b & Hb & _ & Heq). vm_compute in Heq. by destruct b. }
  split; vm_compute; reflexivity.
Qed.


(** C8, as amended. For a group and a version without a path separator,
    the only file the v3 loop writes for the service is
    [apis__<group>__<version>_openapi.json] directly inside the cleaned
    [<output>/v3]; the only file the v2 extraction writes is
    [swagger.json] directly inside the cleaned output directory. *)
Theorem extraction_file_names env out svc w f d :
  noSep (Group (Spec svc)) -> noSep (Version (Spec svc)) ->
  (WriteFile f d ∈ trace (extractOne env out svc w).2 ->
     WriteFile f d ∈ trace w \/
     f = Clean (out ++ str "/v3") ++ str "/" ++ str "apis__" ++ Group (Spec svc)
           ++ str "__" ++ Version (Spec svc) ++ str "_openapi.json") /\
  (WriteFile f d ∈ trace (extractOpenAPIv2 env out w).2 ->
     WriteFile f d ∈ trace w \/ f = inDir (Clean out) (str "swagger.json")).
Proof.
  intros Hg Hv. split.
  - intros [?| ->]%extractOne_writes; [by left|right].
    by apply v3Destination_name.
  - intros [?| ->]%extractOpenAPIv2_writes; [by left|right].
    apply v2Destination_name.
Qed.

Lemma extraction_file_names_witness :
  let svc := samples.service "foo.example.com" "v1" in
  let env := samples.env_ok samples.spaced in
  noSep (Group (Spec svc)) /\ noSep (Version (Spec svc)) /\
  Clean (str "out" ++ str "/v3") ++ str "/" ++ str "apis__" ++ Group (Spec svc)
    ++ str "__" ++ Version (Spec svc) ++ str "_openapi.json"
  = str "out/v3/apis__foo.example.com__v1_openapi.json" /\
  forall f d,
  (WriteFile f d ∈ trace (extractOne env (str "out") svc samples.w0).2 ->
     WriteFile f d ∈ trace samples.w0 \/
     f = Clean (str "out" ++ str "/v3") ++ str "/" ++ str "apis__" ++ Group (Spec svc)
           ++ str "__" ++ Version (Spec svc) ++ str "_openapi.json") /\
  (WriteFile f d ∈ trace (extractOpenAPIv2 env (str "out") samples.w0).2 ->
     WriteFile f d ∈ trace samples.w0 \/ f = inDir (Clean (str "out")) (str "swagger.json")).
Proof.
  cbv zeta. split; [by repeat constructor|]. split; [by repeat constructor|].
  split; [vm_compute; reflexivity|]. intros f d.
  apply (extraction_file_names (samples.env_ok samples.spaced) (str "out")
           (samples.service "foo.example.com" "v1") samples.w0 f d);
    by repeat constructor.
Defined.

(** C8, as stated, fails for a group that contains a separator: the file
    written for group [a/b], version [v1] is [b__v1_openapi.json]. *)
Lemma extraction_file_names_counterexample :
  let svc := samples.service "a/b" "v1" in
  let r := extractOne (samples.env_ok samples.spaced) (str "out") svc samples.w0 in
  r.1 = inr tt /\
  (map_to_list (files r.2)).*1 = [str "out/v3/b__v1_openapi.json"] /\
  str "out/v3/b__v1_openapi.json"
    <> str "out/v3/" ++ str "apis__" ++ Group (Spec svc) ++ str "__"
         ++ Version (Spec svc) ++ str "_openapi.json".
Proof.
  cbv zeta. split; [vm_compute; reflexivity|].
  split; [vm_compute; reflexivity|]. vm_compute. discriminate.
Qed.

End claims_persist.

(** * The claims: the readiness poller *)
Section claims_poller.
Import context poller poller_inv poller_facts extraction_facts.

(** C3. Across the rounds of one run the set of unconfirmed
    group-versions only shrinks: every round probes each member of its
    pre-round set exactly once (no early exit), the first round ranges over
    the registered set, every later round over exactly the group-versions
    whose probe failed in the round before, and the set of a later round is
    a subset of the set of any earlier one. *)
Theorem poller_set_shrinks head latency range tickFirst second ctx timeout services r st t :
  (forall t G, range t G ≡ₚ elements G) ->
  waitForAPIServicesOpenAPIV3 head latency range tickFirst second ctx timeout services = Some (r, st, t) ->
  (forall rd, rd ∈ rounds st -> (probes rd).*1 ≡ₚ elements (pre rd)) /\
  (forall rd, rounds st !! 0 = Some rd -> pre rd = initialGVs services) /\
  (forall i r1 r2, rounds st !! i = Some r1 -> rounds st !! (S i) = Some r2 ->
     pre r2 = failed (probes r1) /\ pre r2 ⊆ pre r1) /\
  (forall i j ri rj, i <= j -> rounds st !! i = Some ri -> rounds st !! j = Some rj ->
     pre rj ⊆ pre ri).
Proof.
  intros Hperm Hw. rewrite waitFor_unfold in Hw.
  destruct (doneAt_WithTimeout ctx 0 timeout) as (D & HD & _).
  destruct (wait.PollUntilContextTimeout _ _ _ _ _ _ _) as [[[r0 st0] t0]|] eqn:Hp; [|done].
  eapply poll_post in Hp; [|exact HD].
  assert (st0 = st) as -> by (destruct r0; by injection Hw).
  destruct Hp as (Hc & _).
  split; [|split; [|split]].
  - intros rd Hin. eapply round_ok_perm; [done|]. by eapply chain_ok.
  - intros rd H0. destruct (rounds st) as [|r' rs]; [done|].
    injection H0 as ->. by destruct Hc.
  - intros i r1 r2 H1 H2. split; [by eapply chain_next|].
    eapply (chain_mono _ _ _ Hperm _ _ _ i (S i)); eauto.
  - intros i j ri rj Hle Hi Hj. by eapply chain_mono.
Qed.

Lemma poller_set_shrinks_witness :
  let services := [samples.service "a" "v1"; samples.service "b" "v1"] in
  let out := waitForAPIServicesOpenAPIV3 (samples.from 3) samples.oneTick samples.inOrder samples.ctxFirst 2
               Background 30 services in
  let st := (samples.returned out).1.2 in
  (forall t G, samples.inOrder t G ≡ₚ elements G) /\
  out = Some ((samples.returned out).1.1, st, (samples.returned out).2) /\
  length (rounds st) = 3 /\
  (forall rd, rd ∈ rounds st -> (probes rd).*1 ≡ₚ elements (pre rd)) /\
  (forall rd, rounds st !! 0 = Some rd -> pre rd = initialGVs services) /\
  (forall i r1 r2, rounds st !! i = Some r1 -> rounds st !! (S i) = Some r2 ->
     pre r2 = failed (probes r1) /\ pre r2 ⊆ pre r1) /\
  (forall i j ri rj, i <= j -> rounds st !! i = Some ri -> rounds st !! j = Some rj ->
     pre rj ⊆ pre ri).
Proof.
  cbv zeta. split; [apply inOrder_perm|].
  match goal with |- ?o = _ /\ _ =>
    assert (o = Some ((samples.returned o).1.1, (samples.returned o).1.2,
                      (samples.returned o).2)) as Hout
      by (apply returned_eq; vm_compute; reflexivity)
  end.
  split; [exact Hout|]. split; [vm_compute; reflexivity|].
  exact (poller_set_shrinks (samples.from 3) samples.oneTick samples.inOrder samples.ctxFirst
           2 Background 30 _ _ _ _ inOrder_perm Hout).
Defined.

(** C1, as amended. The poller always returns. When it returns an error
    and the signal never fired, the error is the context's deadline error
    wrapped in one fixed message, so the error value itself names no
    group-version; the poller's set then holds exactly the registered
    group-versions that were never confirmed by a probe, it is not empty,
    the poller returned no earlier than the deadline, and the last log
    line of the run lists that set under [UnavailableGroupVersions]. *)
Theorem poller_timeout_report head latency range tickFirst second timeout services :
  (forall t G, range t G ≡ₚ elements G) -> 0 < second ->
  let out := waitForAPIServicesOpenAPIV3 head latency range tickFirst second Background timeout services in
  is_Some out /\
  forall e st t, out = Some (Some e, st, t) ->
    e = wrap (str "error waiting for api services to become available") ctxDeadlineExceeded /\
    timeout <= t /\
    testGVs st <> ∅ /\
    (forall g, g ∈ testGVs st <->
       g ∈ initialGVs services /\ forall rd, rd ∈ rounds st -> (g, true) ∉ probes rd) /\
    exists names,
      last (events st) = Some (LogInfo (str "Not all API services are available")
                                 (str "UnavailableGroupVersions" :: names)) /\
      names ≡ₚ schema.String <$> elements (testGVs st).
Proof.
  intros Hperm Hsec. cbv zeta.
  destruct (waitFor_spec head latency range tickFirst second Background timeout services Hsec)
    as (D & r0 & st0 & t0 & HD & HDle & HP & Hout).
  rewrite Hout. split; [done|]. intros e st t Heq.
  destruct r0 as [e0|]; [|done]. injection Heq as <- <- <-.
  injection HD as <-. cbn in HP.
  destruct HP as (Hc & Hs & Hev & lastr & Hlast & Herr & Htg & Hsz & Ht).
  assert (e0 = ctxDeadlineExceeded) as ->.
  { unfold Err in Herr. cbn in Herr. destruct (bool_decide _); [by injection Herr|done]. }
  split; [done|]. split; [lia|]. split.
  { intros Hempty. apply Hsz. rewrite Hempty. apply size_empty. }
  split.
  { intros g. rewrite Htg.
    rewrite <- (chain_pending head latency range Hperm _ (initialGVs services) (rounds st0) g Hc).
    unfold pending. by rewrite Hlast. }
  rewrite Hev, (last_bind_round_events _ _ _ Hlast). unfold round_log.
  rewrite <- Htg. rewrite bool_decide_false by done.
  eexists. split; [done|].
  by rewrite sortedGroupVersions_perm, Hperm.
Qed.

Lemma poller_timeout_report_witness :
  let services := [samples.service "foo.example.com" "v1"; samples.service "bar" "v2"] in
  let late := fun (t : nat) (g : GroupVersion) =>
    bool_decide (g = samples.gv "bar" "v2") && bool_decide (2 <= t) in
  let out := waitForAPIServicesOpenAPIV3 late samples.oneTick samples.inOrder samples.ctxFirst 1 Background 5 services in
  (forall t G, samples.inOrder t G ≡ₚ elements G) /\ 0 < 1 /\
  is_Some (samples.returned out).1.1 /\
  elements (testGVs (samples.returned out).1.2) = [samples.gv "foo.example.com" "v1"] /\
  is_Some out /\
  forall e st t, out = Some (Some e, st, t) ->
    e = wrap (str "error waiting for api services to become available") ctxDeadlineExceeded /\
    5 <= t /\
    testGVs st <> ∅ /\
    (forall g, g ∈ testGVs st <->
       g ∈ initialGVs services /\ forall rd, rd ∈ rounds st -> (g, true) ∉ probes rd) /\
    exists names,
      last (events st) = Some (LogInfo (str "Not all API services are available")
                                 (str "UnavailableGroupVersions" :: names)) /\
      names ≡ₚ schema.String <$> elements (testGVs st).
Proof.
  cbv zeta. split; [apply inOrder_perm|]. split; [lia|].
  split; [refine (bool_decide_unpack _ _); vm_compute; exact I|].
  split; [vm_compute; reflexivity|].
  apply (poller_timeout_report _ samples.oneTick samples.inOrder samples.ctxFirst 1 5);
    [apply inOrder_perm|lia].
Defined.

(** C1, as stated, fails: after a timeout with [foo.example.com/v1]
    outstanding, the returned error reads "error waiting for api services
    to become available: context deadline exceeded" and does not mention
    the group-version. *)
Lemma poller_timeout_error_counterexample :
  let out := waitForAPIServicesOpenAPIV3 samples.never samples.oneTick samples.inOrder samples.ctxFirst 1 Background 3
               [samples.service "foo.example.com" "v1"] in
  exists e,
    (samples.returned out).1.1 = Some e /\
    out = Some (Some e, (samples.returned out).1.2, (samples.returned out).2) /\
    samples.gv "foo.example.com" "v1" ∈ testGVs (samples.returned out).1.2 /\
    Error e = str "error waiting for api services to become available: context deadline exceeded" /\
    contains (schema.String (samples.gv "foo.example.com" "v1")) (Error e) = false /\
    contains (str "foo.example.com") (Error e) = false.
Proof.
  cbv zeta. eexists.
  match goal with |- ?r = _ /\ _ => assert (r = Some _) as Hr by (vm_compute; reflexivity) end.
  split; [exact Hr|]. split.
  { rewrite <- Hr. apply returned_eq. vm_compute. reflexivity. }
  split; [refine (bool_decide_unpack _ _); vm_compute; exact I|].
  split; [vm_compute; reflexivity|]. split; vm_compute; reflexivity.
Qed.

(** C6. If the signal fires at instant [c], before the deadline, the
    poller returns by instant [c], in one of two ways. Either it returns
    nil, and then every registered group-version had answered a probe by
    [c]: the poll was over when the signal fired. Or it returns the
    cancellation error under its fixed message, at instant [c] itself,
    with the group-versions that no probe confirmed left in its set, which
    is not empty: the request in flight is ended by the context, the
    probes left in the round fail at once and no further round is begun.
    This holds for every instant [c] and whatever the timeout, the poll
    interval, the latency of the requests and the outcome of a race
    between tick and signal. *)
Theorem poller_cancel_prompt head latency range tickFirst second timeout services c :
  (forall t G, range t G ≡ₚ elements G) -> 0 < second -> c < timeout ->
  exists r st t,
    waitForAPIServicesOpenAPIV3 head latency range tickFirst second
      {| cancelAt := Some c; deadlineAt := None |} timeout services = Some (r, st, t) /\
    ((r = None /\ t <= c /\
      forall g, g ∈ initialGVs services ->
        exists t', t' + latency t' g <= c /\ head t' g = true) \/
     (r = Some (wrap (str "error waiting for api services to become available") ctxCanceled) /\
      t = c /\ testGVs st <> ∅ /\
      forall g, g ∈ testGVs st <->
        g ∈ initialGVs services /\ forall rd, rd ∈ rounds st -> (g, true) ∉ probes rd)).
Proof.
  intros Hperm Hsec Hc.
  destruct (waitFor_spec head latency range tickFirst second
              {| cancelAt := Some c; deadlineAt := None |} timeout services Hsec)
    as (D & r0 & st & t & HD & HDle & HP & Hout).
  exists (match r0 with
          | Some e => Some (wrap (str "error waiting for api services to become available") e)
          | None => None
          end), st, t.
  split; [done|].
  assert (D = c) as -> by (cbn in HD; injection HD as <-; lia).
  cbn in HP. destruct HP as (Hch & Hs & Hev & lastr & Hlast & Hres).
  assert (lastr ∈ rounds st) as Hin by (by apply last_Some_elem_of).
  pose proof (round_ends head latency range _ _ _ _ _ HD Hch Hs Hin) as Hend.
  destruct r0 as [e|].
  - right. destruct Hres as (Herr & Htg & Hsz & ->).
    replace (ended lastr `max` c) with c in * by lia.
    split. { unfold Err in Herr. cbn in Herr.
             rewrite bool_decide_true in Herr by lia. by injection Herr as <-. }
    split; [done|]. split.
    { intros Hempty. apply Hsz. rewrite Hempty. apply size_empty. }
    intros g. rewrite Htg.
    rewrite <- (chain_pending head latency range Hperm _ (initialGVs services) (rounds st) g Hch).
    unfold pending. by rewrite Hlast.
  - left. split; [done|]. destruct Hres as [Hsz ->]. split; [lia|].
    intros g Hg. apply size_empty_inv, leibniz_equiv in Hsz.
    destruct (chain_confirmed head latency range Hperm _ _ (rounds st) g Hch Hg)
      as (rd & Hrd & Hp).
    { unfold pending. rewrite Hlast, Hsz. apply not_elem_of_empty. }
    pose proof (round_ends head latency range _ _ _ _ _ HD Hch Hs Hrd) as Hendr.
    destruct (chain_ok head latency range _ _ _ _ Hch Hrd) as [Hok Hte].
    rewrite Hok in Hp. apply probeAll_true in Hp as (t' & _ & Hle & Hh & _).
    exists t'. split; [|done]. rewrite <- Hte in Hle. lia.
Qed.

Lemma poller_cancel_prompt_witness :
  let services := [samples.service "a" "v1"; samples.service "b" "v1"] in
  let ctx := {| cancelAt := Some 3; deadlineAt := None |} in
  let slow := fun (t : nat) (g : GroupVersion) => 2 in
  let out := waitForAPIServicesOpenAPIV3 samples.never slow samples.inOrder samples.tickWins
               5 ctx 300 services in
  (forall t G, samples.inOrder t G ≡ₚ elements G) /\ 0 < 5 /\ 3 < 300 /\
  (samples.returned out).1.1
    = Some (wrap (str "error waiting for api services to become available") ctxCanceled) /\
  (samples.returned out).2 = 3 /\
  exists r st t,
    out = Some (r, st, t) /\
    ((r = None /\ t <= 3 /\
      forall g, g ∈ initialGVs services ->
        exists t', t' + slow t' g <= 3 /\ samples.never t' g = true) \/
     (r = Some (wrap (str "error waiting for api services to become available") ctxCanceled) /\
      t = 3 /\ testGVs st <> ∅ /\
      forall g, g ∈ testGVs st <->
        g ∈ initialGVs services /\ forall rd, rd ∈ rounds st -> (g, true) ∉ probes rd)).
Proof.
  cbv zeta. split; [apply inOrder_perm|]. split; [lia|]. split; [lia|].
  split; [vm_compute; reflexivity|]. split; [vm_compute; reflexivity|].
  apply (poller_cancel_prompt samples.never (fun _ _ => 2) samples.inOrder samples.tickWins
           5 300); [apply inOrder_perm|lia|lia].
Defined.

End claims_poller.

(** * The claims: the orchestrator and the extraction *)
Section claims_run.
Import run run_inv run_facts.
Import names_inv.
Import apiregistrationv1 extract extract_inv extract_facts extraction_facts.

(** C2, as amended. In every run in which the aggregated server's Start
    succeeded, the processes are started and stopped in the order control
    plane, aggregated server, aggregated server, control plane, whatever
    the later phases return; and whatever the two stop calls return, the
    error [extractOpenAPI] returns, the exit code and the files on disk
    are the same. *)
Theorem teardown_reverse_order env h w services :
  StartWithExtensions h = inr services -> client_New h = None ->
  apiserver_New h = None -> apiSrv_Start h = None ->
  (exists evs,
     trace (extractOpenAPI env h w).2 = trace w ++ evs /\
     filter (fun ev => isProcess ev = true) evs
       = [StartControlPlane; StartAPIServer; StopAPIServer; StopControlPlane]) /\
  (forall a b,
     result_of (extractOpenAPI env (with_stops h a b) w)
       = result_of (extractOpenAPI env h w) /\
     (main env (with_stops h a b) w).1 = (main env h w).1 /\
     files (main env (with_stops h a b) w).2 = files (main env h w).2).
Proof.
  intros H1 H2 H3 H4. split.
  - rewrite extractOpenAPI_unfold, H1, H2, H3, H4. cbv zeta.
    destruct (phases env h services _) as [r w'] eqn:Hp.
    apply phases_reqs in Hp as (evs & Htr & Hnp & _).
    exists ([StartControlPlane; StartAPIServer] ++ evs
            ++ teardownAPIServer h ++ teardownControlPlane h).
    split.
    { unfold after in *. cbn [trace fst snd] in *. rewrite Htr.
      by rewrite <- !app_assoc. }
    rewrite !filter_app.
    assert (filter (fun ev => isProcess ev = true) evs = []) as ->.
    { clear Htr. induction Hnp as [|ev evs Hev _ IH]; [done|].
      rewrite filter_cons_False by (by rewrite Hev). done. }
    unfold teardownAPIServer, teardownControlPlane, teardown.
    by destruct (apiSrv_Stop h), (StopWithExtensions h).
  - intros a b.
    assert (result_of (extractOpenAPI env (with_stops h a b) w)
              = result_of (extractOpenAPI env h w)
            /\ files (extractOpenAPI env (with_stops h a b) w).2
              = files (extractOpenAPI env h w).2) as [Hr Hf].
    { rewrite !extractOpenAPI_unfold. cbn [with_stops StartWithExtensions client_New
        apiserver_New apiSrv_Start]. rewrite H1, H2, H3, H4. cbv zeta.
      change (phases env (with_stops h a b) services) with (phases env h services).
      by destruct (phases env h services _) as [r w']. }
    split; [done|]. split.
    + by rewrite !main_code, Hr.
    + by rewrite !main_files.
Qed.

Lemma teardown_reverse_order_witness :
  let services := [samples.service "a" "v1"] in
  let h := samples_run.harness services in
  let env := samples.env_unreachable samples.spaced (str "/openapi/v2") in
  StartWithExtensions h = inr services /\ client_New h = None /\
  apiserver_New h = None /\ apiSrv_Start h = None /\
  (main env h samples.w0).1 = 1%Z /\
  (exists evs,
     trace (extractOpenAPI env h samples.w0).2 = trace samples.w0 ++ evs /\
     filter (fun ev => isProcess ev = true) evs
       = [StartControlPlane; StartAPIServer; StopAPIServer; StopControlPlane]) /\
  (forall a b,
     result_of (extractOpenAPI env (with_stops h a b) samples.w0)
       = result_of (extractOpenAPI env h samples.w0) /\
     (main env (with_stops h a b) samples.w0).1 = (main env h samples.w0).1 /\
     files (main env (with_stops h a b) samples.w0).2 = files (main env h samples.w0).2).
Proof.
  cbv zeta. do 4 (split; [reflexivity|]). split; [vm_compute; reflexivity|].
  by apply (teardown_reverse_order _ _ _ [samples.service "a" "v1"]).
Defined.

(** C2, as stated, fails: when the aggregated server's Start is attempted
    and fails, only the control plane is stopped. *)
Lemma teardown_start_failed_counterexample :
  let h := samples_run.harness_bad_binary [samples.service "a" "v1"] in
  let r := extractOpenAPI (samples.env_ok samples.spaced) h samples.w0 in
  trace r.2 = [StartControlPlane; StartAPIServer; StopControlPlane] /\
  StartAPIServer ∈ trace r.2 /\ StopAPIServer ∉ trace r.2.
Proof.
  cbv zeta. split; [vm_compute; reflexivity|].
  change (trace _) with [StartControlPlane; StartAPIServer; StopControlPlane].
  split.
  - rewrite !elem_of_cons. auto.
  - rewrite !elem_of_cons, elem_of_nil. intros [?|[?|[?|?]]]; done.
Qed.

(** C5. The fetches and file writes of a run, in the order they are
    issued, form a prefix of the plan: the v2 fetch, the write of
    [swagger.json], then for every registered service, in registration
    order, its v3 fetch followed by the write of its file. In a run that
    succeeds they are exactly the plan, which depends on nothing but the
    output directory and the registered list. *)
Theorem extraction_order env h w services r w' :
  StartWithExtensions h = inr services ->
  extractOpenAPI env h w = (r, w') ->
  exists evs, trace w' = trace w ++ evs /\
    reqs evs `prefix_of` plan (outputDir h) services /\
    (r = inr tt -> reqs evs = plan (outputDir h) services).
Proof.
  intros Hs. rewrite extractOpenAPI_unfold, Hs. cbv zeta. unfold after. cbn [trace files].
  destruct (client_New h).
  { intros [= <- <-]. eexists. cbn [trace]. rewrite <- app_assoc. split; [done|].
    unfold teardownControlPlane, teardown. split; [|done].
    destruct (StopWithExtensions h); by eexists. }
  destruct (apiserver_New h).
  { intros [= <- <-]. eexists. cbn [trace]. rewrite <- app_assoc. split; [done|].
    unfold teardownControlPlane, teardown. split; [|done].
    destruct (StopWithExtensions h); by eexists. }
  destruct (apiSrv_Start h).
  { intros [= <- <-]. eexists. cbn [trace]. rewrite <- !app_assoc. split; [done|].
    unfold teardownControlPlane, teardown. split; [|done].
    destruct (StopWithExtensions h); by eexists. }
  destruct (phases env h services _) as [r0 w0] eqn:Hp.
  apply phases_reqs in Hp as (evs & Htr & _ & Hpre & Hok).
  intros [= <- <-]. cbn [trace fst snd] in *.
  exists ([StartControlPlane] ++ [StartAPIServer] ++ evs
          ++ teardownAPIServer h ++ teardownControlPlane h).
  split; [by rewrite Htr, <- !app_assoc|].
  assert (reqs ([StartControlPlane] ++ [StartAPIServer] ++ evs
                ++ teardownAPIServer h ++ teardownControlPlane h) = reqs evs) as ->.
  { rewrite !reqs_app. unfold teardownAPIServer, teardownControlPlane, teardown.
    destruct (apiSrv_Stop h), (StopWithExtensions h); cbn; by rewrite app_nil_r. }
  done.
Qed.

Lemma extraction_order_witness :
  let services := [samples.service "a.example.com" "v1"; samples.service "b" "v2"] in
  let h := samples_run.harness services in
  let env := samples.env_ok samples.spaced in
  let res := extractOpenAPI env h samples.w0 in
  StartWithExtensions h = inr services /\ res = (res.1, res.2) /\ res.1 = inr tt /\
  reqs (trace res.2) =
    [Fetch (str "/openapi/v2"); Store (str "out/swagger.json");
     Fetch (str "/openapi/v3/apis/a.example.com/v1");
     Store (str "out/v3/apis__a.example.com__v1_openapi.json");
     Fetch (str "/openapi/v3/apis/b/v2");
     Store (str "out/v3/apis__b__v2_openapi.json")] /\
  exists evs, trace res.2 = trace samples.w0 ++ evs /\
    reqs evs `prefix_of` plan (outputDir h) services /\
    (res.1 = inr tt -> reqs evs = plan (outputDir h) services).
Proof.
  cbv zeta. split; [reflexivity|]. split; [by destruct (extractOpenAPI _ _ _)|].
  split; [vm_compute; reflexivity|]. split; [vm_compute; reflexivity|].
  apply (extraction_order (samples.env_ok samples.spaced) (samples_run.harness _)
           samples.w0 _ _ _ eq_refl).
  by destruct (extractOpenAPI _ _ _).
Defined.


(** C7, as amended. When the services before [x] were extracted and the
    step for [x] fails, [extractOpenAPIv3] returns that error at once: the
    world it leaves is the one the failing step left, so no later service
    is fetched; every file other than the one the failing step was writing
    keeps its content, the files of the earlier services exist, and when
    the step failed before its write nothing on disk changed. *)
Theorem extraction_abort env out pre x post w w1 e w2 :
  forEach (extractOne env out) pre
    (after w [LogInfo (str "Extracting OpenAPI v3") []]) = (inr tt, w1) ->
  extractOne env out x w1 = (inl e, w2) ->
  extractOpenAPIv3 env (pre ++ x :: post) out w = (inl e, w2) /\
  (forall y, y ∈ pre -> is_Some (files w1 !! v3Destination out y)) /\
  (forall q, q <> v3Destination out x -> files w2 !! q = files w1 !! q) /\
  exists evs, trace w2 = trace w1 ++ evs /\
    (reqs evs = [Fetch (svcPath x)] /\ files w2 = files w1 \/
     reqs evs = [Fetch (svcPath x); Store (v3Destination out x)]).
Proof.
  intros Hpre Hx. split; [|split; [|split]].
  - unfold extractOpenAPIv3. unfold mbind, M_bind, emit.
    change {| trace := trace w ++ [LogInfo (str "Extracting OpenAPI v3") []];
              files := files w |}
      with (after w [LogInfo (str "Extracting OpenAPI v3") []]).
    rewrite forEach_app, Hpre, forEach_cons, Hx. done.
  - apply forEach_extract_ok in Hpre as (evs & outs & _ & _ & Hlen & ->).
    clear Hx. generalize (files (after w [LogInfo (str "Extracting OpenAPI v3") []])).
    revert outs Hlen. induction pre as [|p pre IH] using rev_ind; intros outs Hlen fs y.
    { by intros ?%elem_of_nil. }
    destruct outs as [|o outs _] using rev_ind.
    { rewrite length_app in Hlen. cbn in Hlen. lia. }
    rewrite !length_app in Hlen. cbn in Hlen.
    rewrite written_snoc by lia.
    intros [Hin|Heq%list_elem_of_singleton]%elem_of_app; [|subst y].
    + destruct (decide (v3Destination out p = v3Destination out y)) as [->|Hne].
      * by rewrite lookup_insert_eq.
      * rewrite lookup_insert_ne by done. apply IH; [lia|done].
    + by rewrite lookup_insert_eq.
  - apply extractOne_spec in Hx as (evs & _ & Hcase).
    destruct Hcase as [(? & _ & -> & _)|[(? & _ & Hf & _)|(? & ? & _)]]; try done.
  - apply extractOne_spec in Hx as (evs & Htr & Hcase). exists evs. split; [done|].
    destruct Hcase as [(? & _ & -> & ->)|[(? & _ & _ & ->)|(? & ? & _)]]; try done; auto.
Qed.

Lemma extraction_abort_witness :
  let a := samples.service "a" "v1" in
  let b := samples.service "b" "v1" in
  let c := samples.service "c" "v1" in
  let env := samples.env_unreachable samples.spaced (str "/openapi/v3/apis/b/v1") in
  let w := after samples.w0 [LogInfo (str "Extracting OpenAPI v3") []] in
  let r1 := forEach (extractOne env (str "out")) [a] w in
  let r2 := extractOne env (str "out") b r1.2 in
  exists e,
  r1 = (inr tt, r1.2) /\ r2 = (inl e, r2.2) /\
  extractOpenAPIv3 env ([a] ++ b :: [c]) (str "out") samples.w0 = (inl e, r2.2) /\
  (forall y, y ∈ [a] -> is_Some (files r1.2 !! v3Destination (str "out") y)) /\
  (forall q, q <> v3Destination (str "out") b -> files r2.2 !! q = files r1.2 !! q) /\
  exists evs, trace r2.2 = trace r1.2 ++ evs /\
    (reqs evs = [Fetch (svcPath b)] /\ files r2.2 = files r1.2 \/
     reqs evs = [Fetch (svcPath b); Store (v3Destination (str "out") b)]).
Proof.
  cbv zeta. eexists.
  match goal with |- ?r1 = _ /\ ?r2 = _ /\ _ =>
    assert (r1 = (inr tt, r1.2)) as H1 by (apply pair_eta_eq; vm_compute; reflexivity);
    assert (r2 = (inl _, r2.2)) as H2 by (apply pair_eta_eq; vm_compute; reflexivity)
  end.
  split; [exact H1|]. split; [exact H2|].
  exact (extraction_abort
           (samples.env_unreachable samples.spaced (str "/openapi/v3/apis/b/v1"))
           (str "out") [samples.service "a" "v1"] (samples.service "b" "v1")
           [samples.service "c" "v1"] samples.w0 _ _ _ H1 H2).
Defined.

(** C7, as stated, fails: with the same group-version registered twice
    and the disk full at the second write, the file written for the first
    descriptor is left truncated by the failing step. *)
Lemma extraction_abort_counterexample :
  let a := samples.service "a" "v1" in
  let env := samples.env_full samples.spaced in
  let w := after samples.w0 [LogInfo (str "Extracting OpenAPI v3") []] in
  let r1 := forEach (extractOne env (str "out")) [a] w in
  let r2 := extractOne env (str "out") a r1.2 in
  let r := extractOpenAPIv3 env [a; a] (str "out") samples.w0 in
  r1.1 = inr tt /\ is_Some (result_of r2) /\ result_of r = result_of r2 /\
  files r.2 = files r2.2 /\
  length <$> files r1.2 !! v3Destination (str "out") a = Some 11 /\
  files r2.2 !! v3Destination (str "out") a = Some [].
Proof.
  cbv zeta. split; [vm_compute; reflexivity|].
  split; [refine (bool_decide_unpack _ _); vm_compute; exact I|].
  split; [reflexivity|]. split; [reflexivity|].
  split; vm_compute; reflexivity.
Qed.

(** C10, as amended. Two registered descriptors with the same group and
    version do not make a run fail. The poller's set holds the pair once,
    so it has fewer members than there are descriptors; the poll returns,
    its first round sends one probe to each distinct group-version and to
    nothing else, and no round probes a group-version twice. The
    extraction performs one fetch per descriptor and derives the same file
    for both; with collaborators that do not fail it succeeds, every later
    write replaces an earlier one to the same file, and the v3 files it
    leaves are exactly the destinations of the registered services, one
    per distinct destination. These are as many as there are distinct
    group-versions when the names are plain: no separator in a group or a
    version, no underscore in a group. *)
Theorem duplicate_group_version head latency range tickFirst second ctx timeout env out
    services i j a b w :
  (forall t G, range t G ≡ₚ elements G) -> 0 < second ->
  i < j -> services !! i = Some a -> services !! j = Some b ->
  groupVersion a = groupVersion b ->
  (poller.initialGVs services = list_to_set (groupVersion <$> services) /\
   size (poller.initialGVs services) < length services /\
   exists r st t r0,
     poller.waitForAPIServicesOpenAPIV3 head latency range tickFirst second ctx timeout services
       = Some (r, st, t) /\
     poller.rounds st !! 0 = Some r0 /\
     (poller.probes r0).*1 ≡ₚ elements (poller.initialGVs services) /\
     length (poller.probes r0) < length services /\
     forall rd, rd ∈ poller.rounds st -> NoDup (poller.probes rd).*1) /\
  v3Destination out a = v3Destination out b /\
  (cooperative env ->
   exists w' evs outs,
     extractOpenAPIv3 env services out w = (inr tt, w') /\
     trace w' = trace w ++ evs /\
     reqs evs = plan3 out services /\
     length outs = length services /\
     files w' = written out services outs (files w) /\
     dom (files w') = dom (files w) ∪ list_to_set (v3Destination out <$> services) /\
     (forall k c, services !! k = Some c ->
        (forall k' c', k < k' -> services !! k' = Some c' ->
           v3Destination out c' <> v3Destination out c) ->
        files w' !! v3Destination out c = outs !! k) /\
     ((forall svc, svc ∈ services -> plainNames svc) ->
      size (list_to_set (v3Destination out <$> services) : gset (list ascii))
      = size (poller.initialGVs services))).
Proof.
  intros Hperm Hsec Hij Hi Hj Hgv.
  assert (size (poller.initialGVs services) < length services) as Hfew.
  { unfold poller.initialGVs. fold groupVersion.
    rewrite <- (length_fmap groupVersion services).
    apply size_list_to_set_dup. intros Hnd.
    assert (i = j); [|lia].
    eapply (NoDup_lookup _ i j (groupVersion a) Hnd).
    - by rewrite list_lookup_fmap, Hi.
    - by rewrite list_lookup_fmap, Hj, Hgv. }
  split; [|split].
  - split; [done|]. split; [done|].
    destruct (poller_facts.waitFor_spec head latency range tickFirst second ctx timeout
                services Hsec) as (D & r0 & st & t & HD & HDle & HP & Hout).
    assert (poller_inv.chain head latency range (context.WithTimeout ctx 0 timeout)
              (poller.initialGVs services) (poller.rounds st) /\
            poller.rounds st <> []) as [Hc Hne].
    { destruct r0; cbn in HP; destruct HP as (Hc & _ & _ & lastr & Hlast & _);
        (split; [done|]); intros Hnil; by rewrite Hnil in Hlast. }
    destruct (poller.rounds st) as [|rd0 rs] eqn:Hrs; [done|].
    pose proof Hc as (Hpre & Hok & _).
    pose proof (poller_facts.round_ok_perm head latency range Hperm _ _ Hok) as Hp0.
    rewrite Hpre in Hp0.
    eexists _, st, t, rd0. split; [exact Hout|]. rewrite Hrs.
    split; [done|]. split; [done|]. split.
    + rewrite <- (length_fmap fst), Hp0.
      change (length (elements (poller.initialGVs services)))
        with (size (poller.initialGVs services)). done.
    + intros rd Hin.
      rewrite (poller_facts.round_ok_perm head latency range Hperm
                 (context.WithTimeout ctx 0 timeout) rd); [apply NoDup_elements|].
      by eapply poller_facts.chain_ok.
  - by apply names_facts.v3Destination_same.
  - intros Hco.
    destruct (forEach_cooperative env out services
                (after w [LogInfo (str "Extracting OpenAPI v3") []]) Hco) as [w' Hf].
    assert (extractOpenAPIv3 env services out w = (inr tt, w')) as Hx.
    { unfold extractOpenAPIv3. unfold mbind, M_bind, emit. exact Hf. }
    destruct (extractOpenAPIv3_reqs env services out w _ _ Hx) as (evs & Htr & _ & Hr).
    apply forEach_extract_ok in Hf as (_ & outs & _ & _ & Hlen & Hfs).
    cbn [after files] in Hfs.
    exists w', evs, outs. split; [done|]. split; [done|]. split; [by apply Hr|].
    split; [done|]. split; [done|]. split; [|split].
    + rewrite Hfs. by apply written_dom.
    + intros k c Hk Hlast. rewrite Hfs. by apply written_lookup_last.
    + intros Hplain. unfold poller.initialGVs. fold groupVersion.
      apply names_facts.size_list_to_set_fmap. intros x y Hx' Hy'. split.
      * apply names_facts.v3Destination_inj; by apply Hplain.
      * apply names_facts.v3Destination_same.
Qed.

Lemma duplicate_group_version_witness :
  let a := samples.service "a" "v1" in
  let c := samples.service "c" "v1" in
  let services := [a; c; a] in
  let env := samples.env_ok samples.spaced in
  (forall t G, samples.inOrder t G ≡ₚ elements G) /\ 0 < 3 /\
  0 < 2 /\ services !! 0 = Some a /\ services !! 2 = Some a /\
  groupVersion a = groupVersion a /\ cooperative env /\
  (forall svc, svc ∈ services -> plainNames svc) /\
  (poller.initialGVs services = list_to_set (groupVersion <$> services) /\
   size (poller.initialGVs services) < length services /\
   exists r st t r0,
     poller.waitForAPIServicesOpenAPIV3 (samples.from 2) samples.oneTick samples.inOrder
       samples.ctxFirst 3 context.Background 30 services = Some (r, st, t) /\
     poller.rounds st !! 0 = Some r0 /\
     (poller.probes r0).*1 ≡ₚ elements (poller.initialGVs services) /\
     length (poller.probes r0) < length services /\
     forall rd, rd ∈ poller.rounds st -> NoDup (poller.probes rd).*1) /\
  v3Destination (str "out") a = v3Destination (str "out") a /\
  (cooperative env ->
   exists w' evs outs,
     extractOpenAPIv3 env services (str "out") samples.w0 = (inr tt, w') /\
     trace w' = trace samples.w0 ++ evs /\
     reqs evs = plan3 (str "out") services /\
     length outs = length services /\
     files w' = written (str "out") services outs (files samples.w0) /\
     dom (files w') = dom (files samples.w0)
                      ∪ list_to_set (v3Destination (str "out") <$> services) /\
     (forall k c, services !! k = Some c ->
        (forall k' c', k < k' -> services !! k' = Some c' ->
           v3Destination (str "out") c' <> v3Destination (str "out") c) ->
        files w' !! v3Destination (str "out") c = outs !! k) /\
     ((forall svc, svc ∈ services -> plainNames svc) ->
      size (list_to_set (v3Destination (str "out") <$> services) : gset (list ascii))
      = size (poller.initialGVs services))).
Proof.
  cbv zeta.
  assert (cooperative (samples.env_ok samples.spaced)) as Hco.
  { split; [|done]. intros hst p. eexists _, _. split; [reflexivity|].
    vm_compute. reflexivity. }
  split; [apply inOrder_perm|]. split; [lia|]. split; [lia|]. split; [reflexivity|].
  split; [reflexivity|]. split; [reflexivity|]. split; [exact Hco|].
  split.
  { intros svc Hin. unfold plainNames.
    repeat (apply elem_of_cons in Hin as [->|Hin]); [..|by apply elem_of_nil in Hin];
      (split; [by repeat constructor|]); (split; [by repeat constructor|]);
      cbn; intros Hu; repeat (apply elem_of_cons in Hu as [Hu|Hu]; [discriminate Hu|]);
      by apply elem_of_nil in Hu. }
  apply (duplicate_group_version (samples.from 2) samples.oneTick samples.inOrder
           samples.ctxFirst 3 context.Background 30
           (samples.env_ok samples.spaced) (str "out") _ 0 2
           (samples.service "a" "v1") (samples.service "a" "v1") samples.w0);
    [apply inOrder_perm|lia|lia|reflexivity|reflexivity|reflexivity].
Defined.

(** C10, as stated, fails: with [a__b/c] registered once and [a/b__c]
    twice there are two distinct group-versions, the extraction succeeds
    after three fetches, and the output holds a single v3 file,
    [apis__a__b__c_openapi.json], which both group-versions share. *)
Lemma duplicate_group_version_counterexample :
  let x := samples.service "a__b" "c" in
  let y := samples.service "a" "b__c" in
  let services := [x; y; y] in
  let r := extractOpenAPIv3 (samples.env_ok samples.spaced) services (str "out") samples.w0 in
  services !! 1 = Some y /\ services !! 2 = Some y /\
  r.1 = inr tt /\
  omap (fun ev => match ev with Get p => Some p | _ => None end) (trace r.2)
    = [svcPath x; svcPath y; svcPath y] /\
  size (poller.initialGVs services) = 2 /\
  (map_to_list (files r.2)).*1 = [str "out/v3/apis__a__b__c_openapi.json"].
Proof.
  cbv zeta. split; [reflexivity|]. split; [reflexivity|].
  split; [vm_compute; reflexivity|]. split; [vm_compute; reflexivity|].
  split; vm_compute; reflexivity.
Qed.

End claims_run.

(** * Further facts *)

Module order_facts.
Import poller order_inv poller_facts.

Lemma byte_lt_spec a b : byte_lt a b = true <-> (N_of_ascii a < N_of_ascii b)%N.
Proof. unfold byte_lt. apply N.ltb_lt. Qed.

Lemma byte_eq_N a b : byte_eq a b = true <-> N_of_ascii a = N_of_ascii b.
Proof.
  unfold byte_eq. rewrite Ascii.eqb_eq. split; [by intros ->|].
  intros H. by rewrite <- (ascii_N_embedding a), <- (ascii_N_embedding b), H.
Qed.

Lemma bytes_lt_cons x a y b :
  bytes_lt (x :: a) (y :: b) = true <->
  (N_of_ascii x < N_of_ascii y)%N \/ (N_of_ascii x = N_of_ascii y /\ bytes_lt a b = true).
Proof.
  cbn [bytes_lt]. rewrite orb_true_iff, andb_true_iff, byte_lt_spec, byte_eq_N. done.
Qed.

Lemma bytes_lt_asym a : forall b, bytes_lt a b = true -> bytes_lt b a = false.
Proof.
  induction a as [|x a IH]; intros [|y b]; try done.
  rewrite bytes_lt_cons. intros H. apply not_true_is_false. rewrite bytes_lt_cons.
  intros H'. destruct H as [H|[H1 H2]], H' as [H'|[H1' H2']]; try lia.
  apply IH in H2. congruence.
Qed.

Lemma bytes_le_trans a : forall b c, bytes_le a b -> bytes_le b c -> bytes_le a c.
Proof.
  unfold bytes_le. induction a as [|x a IH]; intros b c; [by destruct c|].
  destruct b as [|y b]; [done|]. destruct c as [|z c]; [done|].
  intros H1%not_true_iff_false H2%not_true_iff_false. apply not_true_is_false.
  rewrite bytes_lt_cons in *. intros [H|[He H]].
  - apply H1. destruct (N.lt_trichotomy (N_of_ascii y) (N_of_ascii x)) as [?|[?|?]]; [by left|..].
    + exfalso. apply H2. left. lia.
    + exfalso. apply H2. left. lia.
  - destruct (N.lt_trichotomy (N_of_ascii y) (N_of_ascii x)) as [?|[Hyx|?]]; [apply H1; by left|..].
    + destruct (bytes_lt b a) eqn:Hba; [apply H1; by right|].
      destruct (bytes_lt c b) eqn:Hcb; [apply H2; right; split; [lia|done]|].
      by rewrite (IH b c) in H.
    + apply H2. left. lia.
Qed.

Lemma insert_by_sorted {A} (key : A -> list ascii) x l :
  let R := fun a b => bytes_le (key a) (key b) in
  StronglySorted R l ->
  StronglySorted R (insert_by (fun a b => bytes_lt (key a) (key b)) x l).
Proof.
  intros R. induction 1 as [|y l Hs IH Hall]; cbn [insert_by]; [by repeat constructor|].
  destruct (bytes_lt (key y) (key x)) eqn:Hyx.
  - constructor; [done|]. rewrite (insert_by_perm _ x l). constructor; [|done].
    by apply bytes_lt_asym.
  - constructor; [by constructor|]. constructor; [done|].
    eapply Forall_impl; [exact Hall|]. intros z Hz. by apply (bytes_le_trans _ (key y)).
Qed.

Lemma sortedGroupVersions_keySorted gvs : keySorted (sortedGroupVersions gvs).
Proof.
  unfold sortedGroupVersions, keySorted.
  induction gvs as [|g gvs IH]; [constructor|].
  cbn [foldr]. by apply (insert_by_sorted schema.String).
Qed.

End order_facts.

Module poller_more.
Import context poller poller_inv poller_facts extract_inv.

Section poller_more.
Variable head : nat -> GroupVersion -> bool.
Variable latency : nat -> GroupVersion -> nat.
Variable range : nat -> gset GroupVersion -> list GroupVersion.
Variable tickFirst : nat -> bool.
Variable interval : nat.

(** What a returned poll satisfies, from the equation of its return. *)
Lemma waitFor_post ctx timeout services r st t :
  waitForAPIServicesOpenAPIV3 head latency range tickFirst interval ctx timeout services = Some (r, st, t) ->
  exists D r0,
    doneAt (WithTimeout ctx 0 timeout) = Some D /\ D <= timeout /\
    Post head latency range (WithTimeout ctx 0 timeout) D (initialGVs services) (r0, st, t) /\
    r = (wrap (str "error waiting for api services to become available")) <$> r0.
Proof.
  rewrite waitFor_unfold.
  destruct (wait.PollUntilContextTimeout _ _ _ _ _ _ _) as [[[r0 st0] t0]|] eqn:Hp; [|by destruct r].
  destruct (doneAt_WithTimeout ctx 0 timeout) as (D & HD & Hle).
  intros Heq. exists D, r0. split; [done|]. split; [lia|].
  eapply poll_post in Hp; [|exact HD].
  destruct r0; injection Heq as <- <- <-; done.
Qed.

Lemma initialGVs_elem services svc :
  svc ∈ services -> groupVersion svc ∈ initialGVs services.
Proof.
  intros Hin. unfold initialGVs. rewrite elem_of_list_to_set, list_elem_of_fmap.
  by exists svc.
Qed.

Lemma probeAll_heads ctx t gvs g b :
  (g, b) ∈ probeAll head latency ctx t gvs -> g ∈ gvs.
Proof.
  intros Hin. rewrite <- (probeAll_fst head latency ctx t gvs). rewrite list_elem_of_fmap.
  by exists (g, b).
Qed.

(** The closure appends one round that begins when it is called. *)
Lemma condition_round ctx st t :
  exists done st' rd,
    condition head latency range ctx st t
      = (done, None, st', probeEnd head latency ctx t (range t (testGVs st))) /\
    rounds st' = rounds st ++ [rd] /\ began rd = t.
Proof.
  unfold condition. case_bool_decide; do 3 eexists; (split; [done|]); cbn; done.
Qed.

Local Abbreviation paced := (pace_inv.paced interval).

Lemma paced_snoc rs rd :
  paced rs -> length rs * interval <= began rd -> paced (rs ++ [rd]).
Proof.
  unfold pace_inv.paced. intros Hp Hle i r Hi. apply lookup_app_Some in Hi as [Hi|[Hlen Hi]]; [by apply Hp|].
  apply list_lookup_singleton_Some in Hi as [Hi ->].
  assert (i = length rs) as -> by lia. done.
Qed.

Lemma loop_paced fuel : forall ctx st t fire out,
  paced (rounds st) -> length (rounds st) * interval <= fire ->
  wait.loop (condition head latency range) interval tickFirst fuel ctx st t fire = Some out ->
  paced (rounds out.1.2).
Proof.
  induction fuel as [|fuel IH]; intros ctx st t fire out Hp Hf; [done|].
  rewrite loop_S. cbv zeta.
  destruct (wait.leaves tickFirst ctx t fire).
  { by intros [= <-]. }
  destruct (condition_round ctx st (t `max` fire)) as (done & st' & rd & -> & Hr & Hb).
  assert (paced (rounds st')) as Hp'.
  { rewrite Hr. apply paced_snoc; [done|]. lia. }
  destruct done; [by intros [= <-]|].
  apply IH; [done|]. rewrite Hr, length_app. cbn. unfold wait.next_tick. nia.
Qed.

Lemma poll_paced ctx timeout S0 out :
  wait.PollUntilContextTimeout (condition head latency range) interval tickFirst ctx 0 timeout (initState S0)
    = Some out ->
  paced (rounds out.1.2).
Proof.
  unfold wait.PollUntilContextTimeout.
  destruct (condition_round (WithTimeout ctx 0 timeout) (initState S0) 0)
    as (done & st' & rd & -> & Hr & Hb).
  assert (paced (rounds st')) as Hp'.
  { rewrite Hr. apply paced_snoc; [by intros i r ?|]. cbn. lia. }
  destruct done; [by intros [= <-]|].
  apply loop_paced; [done|]. rewrite Hr. cbn. lia.
Qed.

Lemma starts_by D rs i rd : starts D rs -> rs !! i = Some rd -> began rd <= D.
Proof.
  destruct rs as [|r rs]; [done|]. intros [Hz Hf] Hi.
  destruct i as [|i]; [injection Hi as <-; lia|]. cbn in Hi. rewrite Forall_forall in Hf.
  apply Hf. by eapply list_elem_of_lookup_2.
Qed.

End poller_more.
End poller_more.

Module run_more.
Import run run_inv run_facts confine_inv.
Import apiregistrationv1 extract extract_inv extract_facts.
Import context poller poller_inv poller_facts poller_more.

Section emits_more.
Context (P : Event -> Prop).

Lemma emits_forEach_in {A} (body : A -> M unit) l :
  (forall x, x ∈ l -> emits P (body x)) -> emits P (forEach body l).
Proof.
  induction l as [|x l IH]; intros Hb; [apply emits_ret|].
  apply emits_bind; [apply Hb; by left|]. intros _. apply IH.
  intros y Hy. apply Hb. by right.
Qed.

Lemma emits_writeJSONFile_gen env dir name data :
  (forall m kv, P (LogInfo m kv)) -> P (MkdirAll dir) ->
  (forall d, P (WriteFile (persist.destination dir name) d)) ->
  emits P (persist.writeJSONFile env dir name data).
Proof.
  intros Hl Hm Hw w. rewrite writeJSONFile_unfold. cbn zeta.
  destruct (os_MkdirAll env _ dir).
  { eexists [_; _]. cbn. rewrite <- app_assoc. split; [done|]. by repeat constructor. }
  destruct (json.Indent _ _ data).
  { eexists [_; _]. cbn. rewrite <- app_assoc. split; [done|]. by repeat constructor. }
  destruct (os_WriteFile env _ _ _); eexists [_; _; _]; cbn; rewrite <- !app_assoc;
    (split; [done|]); by repeat constructor.
Qed.

End emits_more.

Lemma probePath_svcPath svc : probePath (groupVersion svc) = svcPath svc.
Proof. reflexivity. Qed.

Lemma initialGVs_inv services g :
  g ∈ initialGVs services -> exists svc, svc ∈ services /\ g = groupVersion svc.
Proof.
  unfold initialGVs. rewrite elem_of_list_to_set, list_elem_of_fmap.
  intros (svc & -> & Hin). by exists svc.
Qed.

(** The poller sends its requests to registered services only. *)
Lemma waitFor_heads head latency range tickFirst second ctx timeout services r st t p :
  (forall t G, range t G ≡ₚ elements G) ->
  waitForAPIServicesOpenAPIV3 head latency range tickFirst second ctx timeout services = Some (r, st, t) ->
  Head p ∈ events st -> exists svc, svc ∈ services /\ p = svcPath svc.
Proof.
  intros Hperm Hw Hin.
  apply waitFor_post in Hw as (D & r0 & HD & HDle & HP & Hr).
  assert (chain head latency range (WithTimeout ctx 0 timeout) (initialGVs services) (rounds st) /\
          events st = rounds st ≫= round_events range) as [Hc Hev] by (destruct r0; split; apply HP).
  rewrite Hev in Hin. apply list_elem_of_bind in Hin as (rd & Hin & Hrd).
  unfold round_events in Hin. apply elem_of_app in Hin as [Hin|Hin].
  - apply list_elem_of_fmap in Hin as ([g b] & [= ->] & Hgb).
    pose proof (chain_ok head latency range _ _ _ _ Hc Hrd) as Hok.
    assert (g ∈ pre rd) as Hpre.
    { apply elem_of_elements. rewrite <- (round_ok_perm head latency range Hperm _ _ Hok).
      apply list_elem_of_fmap. by exists (g, b). }
    apply list_elem_of_lookup in Hrd as [j Hj].
    apply (chain_sub head latency range Hperm _ _ _ _ _ Hc Hj) in Hpre.
    apply initialGVs_inv in Hpre as (svc & Hs & ->). by exists svc.
  - apply list_elem_of_singleton in Hin. unfold round_log in Hin. by case_bool_decide.
Qed.

Section run_more.
Variable env : Env.
Variable h : Harness.

Lemma waitForAPIServices_unfold services w :
  waitForAPIServices h services w =
  match readiness h services with
  | Some (Some e, st, _) => (inl e, after w (poller.events st))
  | Some (None, st, _) => (inr tt, after w (poller.events st))
  | None => (inl (ext (str "poll loop out of fuel")), w)
  end.
Proof.
  unfold waitForAPIServices, readiness, signalCtx, after.
  by destruct (waitForAPIServicesOpenAPIV3 _ _ _ _ _ _) as [[[[e|] st] t]|].
Qed.

(** The statements after the second [defer], phase by phase. *)
Lemma phases_unfold services w :
  phases env h services w =
  let w1 := after w [WaitAPIServicesReady] in
  match WaitUntilAPIServicesReadyWithTimeout h with
  | Some e => (inl (wrap (str "failed to wait for api server to become ready") e), w1)
  | None =>
      match kubernetes_NewForConfig h with
      | Some e => (inl (wrap (str "failed to create clientset from config") e), w1)
      | None =>
          match readiness h services with
          | None =>
              (inl (wrap (str "failed to wait for the api services to become available")
                         (ext (str "poll loop out of fuel"))), w1)
          | Some (Some e, st, _) =>
              (inl (wrap (str "failed to wait for the api services to become available") e),
               after w1 (poller.events st))
          | Some (None, st, _) =>
              let w2 := after w1 (poller.events st) in
              match extractOpenAPIv2 env (outputDir h) w2 with
              | (inl e, w3) => (inl (wrap (str "failed to extract OpenAPI v2 spec") e), w3)
              | (inr _, w3) =>
                  orWrap (str "failed to extract OpenAPI v3 spec")
                    (extractOpenAPIv3 env services (outputDir h)) w3
              end
          end
      end
  end.
Proof.
  unfold phases.
  unfold mbind at 1, M_bind at 1, orWrap at 1, call at 1. cbn [trace files].
  unfold after at 1. cbn [trace files].
  destruct (WaitUntilAPIServicesReadyWithTimeout h); [done|].
  unfold mbind at 1, M_bind at 1, orWrap at 1, call at 1. cbn [trace files].
  rewrite app_nil_r.
  destruct (kubernetes_NewForConfig h); [done|].
  unfold mbind at 1, M_bind at 1, orWrap at 1.
  rewrite waitForAPIServices_unfold. unfold after. cbn [trace files].
  destruct (readiness h services) as [[[[e|] st] t]|]; [done| |done].
  unfold mbind at 1, M_bind at 1, orWrap at 1.
  by destruct (extractOpenAPIv2 env (outputDir h) _) as [[e|[]] w3].
Qed.

End run_more.
End run_more.

Module run_frame_facts.
Import run run_inv run_facts confine_inv run_more.
Import apiregistrationv1 extract extract_inv extract_facts.
Import context poller poller_inv poller_facts poller_more.

Section frame.
Variable env : Env.

Lemma writeJSONFile_frame dir name data w q :
  q <> persist.destination dir name ->
  files (persist.writeJSONFile env dir name data w).2 !! q = files w !! q.
Proof.
  intros Hq. destruct (persist.writeJSONFile env dir name data w) as [r w'] eqn:Hw.
  apply writeJSONFile_spec in Hw as (evs & _ & Hcase). cbn.
  destruct Hcase as [(e & _ & -> & _)|[(e & o & _ & _ & Hf & _)|(o & _ & _ & -> & _)]].
  - done.
  - by apply Hf.
  - by rewrite lookup_insert_ne.
Qed.

Lemma getPath_files path w : files (getPath env path w).2 = files w.
Proof. rewrite getPath_unfold. cbn zeta. by destruct (http_get env _ _). Qed.

Lemma extractOne_frame out svc w q :
  q <> v3Destination out svc ->
  files (extractOne env out svc w).2 !! q = files w !! q.
Proof.
  intros Hq. destruct (extractOne env out svc w) as [r w'] eqn:Hw. cbn.
  apply extractOne_spec in Hw as (evs & _ & Hcase).
  destruct Hcase as [(e & _ & -> & _)|[(e & _ & Hf & _)|(o & _ & -> & _)]].
  - done.
  - by apply Hf.
  - by rewrite lookup_insert_ne.
Qed.

Lemma forEach_frame out services : forall w q,
  (forall svc, svc ∈ services -> q <> v3Destination out svc) ->
  files (forEach (extractOne env out) services w).2 !! q = files w !! q.
Proof.
  induction services as [|svc l IH]; intros w q Hq; [done|].
  rewrite forEach_cons.
  pose proof (extractOne_frame out svc w q) as H1.
  destruct (extractOne env out svc w) as [[e|[]] w1]; cbn in *.
  - apply H1, Hq. by left.
  - rewrite IH; [apply H1, Hq; by left|]. intros s Hs. apply Hq. by right.
Qed.

Lemma extractOpenAPIv3_frame out services w q :
  (forall svc, svc ∈ services -> q <> v3Destination out svc) ->
  files (extractOpenAPIv3 env services out w).2 !! q = files w !! q.
Proof.
  intros Hq. unfold extractOpenAPIv3, mbind, M_bind, emit. cbn.
  by rewrite forEach_frame.
Qed.

Lemma extractOpenAPIv2_frame out w q :
  q <> v2Destination out ->
  files (extractOpenAPIv2 env out w).2 !! q = files w !! q.
Proof.
  intros Hq. unfold extractOpenAPIv2, mbind, M_bind, emit. cbn [fst snd].
  unfold orWrap at 1.
  pose proof (getPath_files (str "/openapi/v2")
                {| trace := trace w ++ [LogInfo (str "Extracting OpenAPI v2") []];
                   files := files w |}) as Hg.
  destruct (getPath env _ _) as [[e|resp] w1]; cbn in Hg |- *; [by rewrite Hg|].
  unfold orWrap.
  pose proof (writeJSONFile_frame out (str "swagger.json") resp w1 q Hq) as Hw.
  destruct (persist.writeJSONFile env out _ resp w1) as [[e|[]] w2]; cbn in *;
    by rewrite Hw, Hg.
Qed.

Variable h : Harness.

Lemma phases_frame services w q :
  q <> v2Destination (outputDir h) ->
  (forall svc, svc ∈ services -> q <> v3Destination (outputDir h) svc) ->
  files (phases env h services w).2 !! q = files w !! q.
Proof.
  intros H2 H3. rewrite phases_unfold. cbv zeta.
  destruct (WaitUntilAPIServicesReadyWithTimeout h); [done|].
  destruct (kubernetes_NewForConfig h); [done|].
  destruct (readiness h services) as [[[[e|] st] t]|]; [done| |done].
  pose proof (extractOpenAPIv2_frame (outputDir h)
                (after (after w [WaitAPIServicesReady]) (poller.events st)) q H2) as Hv2.
  destruct (extractOpenAPIv2 env (outputDir h) _) as [[e|[]] w3]; cbn in Hv2; [done|].
  unfold orWrap.
  pose proof (extractOpenAPIv3_frame (outputDir h) services w3 q H3) as Hv3.
  destruct (extractOpenAPIv3 env services (outputDir h) w3) as [[e|[]] w4]; cbn in *;
    by rewrite Hv3.
Qed.

End frame.
End run_frame_facts.

Module confine_facts.
Import run run_inv run_facts confine_inv run_more.
Import apiregistrationv1 extract extract_inv extract_facts.
Import context poller poller_inv poller_facts poller_more.

Section confine.
Variable env : Env.
Variable h : Harness.
Hypothesis range_perm : forall t G, range h t G ≡ₚ elements G.

Lemma emits_allowed_waitFor services :
  emits (allowed (outputDir h) services) (waitForAPIServices h services).
Proof.
  intros w. rewrite waitForAPIServices_unfold.
  destruct (readiness h services) as [[[r st] t]|] eqn:Hw.
  - exists (poller.events st). split; [by destruct r|].
    apply Forall_forall. intros ev Hev.
    pose proof (waitFor_events _ _ _ _ _ _ _ _ _ _ _ Hw) as Hpoll.
    rewrite Forall_forall in Hpoll. specialize (Hpoll _ Hev).
    destruct ev; try done. cbn.
    by eapply (waitFor_heads _ _ _ _ _ _ _ _ _ _ _ _ range_perm Hw).
  - exists []. by rewrite app_nil_r.
Qed.

Lemma emits_allowed_v2 services :
  emits (allowed (outputDir h) services) (extractOpenAPIv2 env (outputDir h)).
Proof.
  unfold extractOpenAPIv2. apply emits_bind; [by apply emits_emit|]. intros _.
  apply emits_bind.
  - apply emits_orWrap. apply emits_getPath. by left.
  - intros resp. apply emits_orWrap. apply emits_writeJSONFile_gen; [done|by left|].
    intros d. by left.
Qed.

Lemma emits_allowed_v3 services :
  emits (allowed (outputDir h) services) (extractOpenAPIv3 env services (outputDir h)).
Proof.
  unfold extractOpenAPIv3. apply emits_bind; [by apply emits_emit|]. intros _.
  apply emits_forEach_in. intros svc Hin. unfold extractOne. apply emits_bind.
  - apply emits_orWrap. apply emits_getPath. right. by exists svc.
  - intros resp. apply emits_orWrap. apply emits_writeJSONFile_gen; [done| |].
    + right. split; [done|]. by intros ->; apply elem_of_nil in Hin.
    + intros d. right. by exists svc.
Qed.

Lemma emits_allowed_phases services :
  emits (allowed (outputDir h) services) (phases env h services).
Proof.
  unfold phases. repeat (apply emits_bind; [|intros _]); apply emits_orWrap.
  - apply emits_call. by repeat constructor.
  - apply emits_call. constructor.
  - apply emits_allowed_waitFor.
  - apply emits_allowed_v2.
  - apply emits_allowed_v3.
Qed.

Lemma allowed_teardown services ev r msg :
  (ev = StopAPIServer \/ ev = StopControlPlane) ->
  Forall (allowed (outputDir h) services) (teardown ev r msg).
Proof. intros [-> | ->]; unfold teardown; destruct r; by repeat constructor. Qed.

End confine.
End confine_facts.

Module filled_facts.
Import run run_inv run_facts confine_inv run_more filled_inv.
Import apiregistrationv1 extract extract_inv extract_facts json_inv json_facts.

Lemma Indent_nonempty prefix indent src out :
  allSpace prefix -> allSpace indent ->
  json.Indent prefix indent src = inr out -> out <> [].
Proof.
  intros Hp Hi H. destruct (Compact_Indent _ _ _ _ Hp Hi H) as (c & _ & Hc).
  intros ->. by vm_compute in Hc.
Qed.

Lemma filled_insert fs f o p : o <> [] -> filled fs p -> filled (<[f := o]> fs) p.
Proof.
  intros Ho (o' & Hl & Hne). destruct (decide (p = f)) as [->|Hpf].
  - exists o. by rewrite lookup_insert_eq.
  - exists o'. by rewrite lookup_insert_ne.
Qed.

Lemma filled_insert_eq fs f o : o <> [] -> filled (<[f := o]> fs) f.
Proof. intros Ho. exists o. by rewrite lookup_insert_eq. Qed.

Section filled.
Variable env : Env.

Lemma writeJSONFile_ok dir name data w w' :
  persist.writeJSONFile env dir name data w = (inr tt, w') ->
  exists out, out <> [] /\ files w' = <[persist.destination dir name := out]> (files w).
Proof.
  intros Hw. apply writeJSONFile_spec in Hw as (evs & _ & Hcase).
  destruct Hcase as [(e & ? & _)|[(e & o & ? & _)|(o & _ & Hi & Hf & _)]]; [done..|].
  exists o. split; [|done].
  eapply Indent_nonempty; [| |exact Hi]; [constructor|by repeat constructor].
Qed.

Lemma extractOne_ok out svc w w' :
  extractOne env out svc w = (inr tt, w') ->
  exists o, o <> [] /\ files w' = <[v3Destination out svc := o]> (files w).
Proof.
  unfold extractOne. intros Hr.
  apply bind_inv in Hr as [(e & _ & ?)|(resp & w1 & Hg & Hw)]; [done|].
  apply orWrap_inv in Hg as (r0 & Hg & Hr0).
  pose proof (run_frame_facts.getPath_files env
    (v3Path (Group (Spec svc)) (Version (Spec svc))) w) as Hgf.
  rewrite Hg in Hgf. cbn in Hgf.
  apply orWrap_inv in Hw as (r1 & Hw & Hr1). destruct r1 as [|[]]; [done|].
  apply writeJSONFile_ok in Hw as (o & Ho & Hf). exists o. split; [done|].
  by rewrite Hf, Hgf.
Qed.

Lemma forEach_filled out services : forall w w',
  forEach (extractOne env out) services w = (inr tt, w') ->
  (forall p, filled (files w) p -> filled (files w') p) /\
  (forall svc, svc ∈ services -> filled (files w') (v3Destination out svc)).
Proof.
  induction services as [|svc l IH]; intros w w'.
  { intros [= <-]. split; [done|]. by intros svc ?%elem_of_nil. }
  rewrite forEach_cons. destruct (extractOne env out svc w) as [[e|[]] w1] eqn:H1; [done|].
  intros Hl. apply extractOne_ok in H1 as (o & Ho & Hf).
  destruct (IH _ _ Hl) as [Hkeep Hnew]. split.
  - intros p Hp. apply Hkeep. rewrite Hf. by apply filled_insert.
  - intros s [->|Hs]%elem_of_cons; [|by apply Hnew].
    apply Hkeep. rewrite Hf. by apply filled_insert_eq.
Qed.

Lemma extractOpenAPIv3_filled out services w w' :
  extractOpenAPIv3 env services out w = (inr tt, w') ->
  (forall p, filled (files w) p -> filled (files w') p) /\
  (forall svc, svc ∈ services -> filled (files w') (v3Destination out svc)).
Proof.
  unfold extractOpenAPIv3. intros Hr.
  apply bind_inv in Hr as [(e & _ & ?)|([] & w1 & He & Hl)]; [done|].
  injection He as <-. by apply forEach_filled in Hl.
Qed.

Lemma extractOpenAPIv2_filled out w w' :
  extractOpenAPIv2 env out w = (inr tt, w') -> filled (files w') (v2Destination out).
Proof.
  unfold extractOpenAPIv2. intros Hr.
  apply bind_inv in Hr as [(e & _ & ?)|([] & w1 & He & Hr)]; [done|].
  apply bind_inv in Hr as [(e & _ & ?)|(resp & w2 & Hg & Hw)]; [done|].
  apply orWrap_inv in Hw as (r1 & Hw & Hr1). destruct r1 as [|[]]; [done|].
  apply writeJSONFile_ok in Hw as (o & Ho & Hf). rewrite Hf. by apply filled_insert_eq.
Qed.

Lemma extractOpenAPI_filled h w w' services :
  StartWithExtensions h = inr services ->
  extractOpenAPI env h w = (inr tt, w') ->
  filled (files w') (v2Destination (outputDir h)) /\
  forall svc, svc ∈ services -> filled (files w') (v3Destination (outputDir h) svc).
Proof.
  intros Hs. rewrite extractOpenAPI_unfold, Hs. cbv zeta.
  destruct (client_New h); [done|]. destruct (apiserver_New h); [done|].
  destruct (apiSrv_Start h); [done|].
  destruct (phases env h services _) as [r0 w0] eqn:Hp. cbn [fst snd].
  intros [= -> <-]. unfold after. cbn [files].
  rewrite phases_unfold in Hp. cbv zeta in Hp.
  destruct (WaitUntilAPIServicesReadyWithTimeout h); [done|].
  destruct (kubernetes_NewForConfig h); [done|].
  destruct (readiness h services) as [[[[e|] st] t]|]; [done| |done].
  destruct (extractOpenAPIv2 env (outputDir h) _) as [[e|[]] w3] eqn:H2; [done|].
  apply extractOpenAPIv2_filled in H2.
  apply orWrap_inv in Hp as (r3 & H3 & Hr3). destruct r3 as [|[]]; [done|].
  apply extractOpenAPIv3_filled in H3 as [Hkeep Hnew]. split; [by apply Hkeep|done].
Qed.

End filled.
End filled_facts.

Module json_more.
Import json json_inv json_facts.

Section same_scanner.
Variables prefix indent : list ascii.

(** [Indent] and [Compact] drive the scanner through the same states. *)
Lemma indent_compact_scanner src : forall s ni dep,
  (indent_loop prefix indent s ni dep src).1 = (compact_loop s src).1.
Proof.
  induction src as [|c src IH]; intros s ni dep; [done|].
  rewrite indent_loop_cons. cbn [compact_loop].
  destruct (scan s c) as [s' v].
  destruct v; try (apply IH); try done;
    destruct (indent_byte prefix indent ni dep c _) as [[w ni'] dep'];
    specialize (IH s' ni' dep');
    destruct (indent_loop prefix indent s' ni' dep' src) as [sf out];
    destruct (compact_loop s' src) as [sc oc]; cbn in *; done.
Qed.

Lemma finish_inl s out out' e : finish s out = inl e -> finish s out' = inl e.
Proof. unfold finish. destruct (eof s) as [s1 v]. by destruct v. Qed.

(** [Indent] rejects a document exactly when [Compact] does, with the
    same error. *)
Lemma Indent_error_iff src e :
  Indent prefix indent src = inl e <-> Compact src = inl e.
Proof.
  unfold Indent, Compact.
  pose proof (indent_compact_scanner src newScanner false 0%Z) as Hs.
  destruct (indent_loop prefix indent newScanner false 0 src) as [s1 o1].
  destruct (compact_loop newScanner src) as [s2 o2]. cbn in Hs. subst s2.
  split; apply finish_inl.
Qed.

Lemma indent_loop_blank ws : forall s ni dep,
  idle s -> allSpace ws -> indent_loop prefix indent s ni dep ws = (s, []).
Proof.
  induction ws as [|c ws IH]; intros s ni dep Hid Hws; [done|].
  apply Forall_cons in Hws as [Hc Hws].
  rewrite indent_loop_cons, (idle_space s c Hid Hc). by apply IH.
Qed.

(** A document of white space only, the empty one included, is rejected. *)
Lemma Indent_blank ws :
  allSpace ws ->
  Indent prefix indent ws = inl (ext (str "unexpected end of JSON input")).
Proof.
  intros Hws. unfold Indent. rewrite indent_loop_blank; [|done|done]. reflexivity.
Qed.

End same_scanner.
End json_more.

Module layout_facts.
Import filepath filepath_inv filepath_facts.
Import apiregistrationv1 extract extract_inv extract_facts.

Lemma takeElem_app a b : noSep a -> takeElem (a ++ b) = a ++ takeElem b.
Proof.
  induction 1 as [|c a Hc _ IH]; [done|]. cbn. by rewrite Hc, IH.
Qed.

Lemma dropSeps_head c l : isSep c = false -> dropSeps (c :: l) = c :: l.
Proof. intros H. cbn. by rewrite H. Qed.

(** The base of a name that ends in a non-empty run without separator. *)
Lemma Base_suffix pre suf :
  suf <> [] -> noSep suf ->
  Base (pre ++ suf) = reverse (takeElem (reverse pre)) ++ suf.
Proof.
  intros Hne Hns. unfold Base.
  destruct (pre ++ suf) as [|c l] eqn:Heq.
  { by apply app_eq_nil in Heq as [_ ->]. }
  rewrite <- Heq. clear c l Heq.
  rewrite reverse_app.
  assert (noSep (reverse suf)) as Hr by (by apply noSep_reverse).
  assert (reverse suf <> []) as Hrne.
  { intros H. apply Hne. apply (f_equal reverse) in H. by rewrite reverse_involutive in H. }
  destruct (reverse suf) as [|c rs] eqn:Hrs; [done|].
  apply Forall_cons in Hr as [Hc Hrs'].
  rewrite <- app_comm_cons, dropSeps_head by done.
  rewrite app_comm_cons, takeElem_app by (by constructor).
  rewrite reverse_app, <- Hrs, reverse_involutive.
  destruct (reverse (takeElem (reverse pre)) ++ suf) eqn:Hd; [|done].
  by apply app_eq_nil in Hd as [_ ->].
Qed.

Lemma v3FileName_split svc :
  v3FileName svc = (str "apis__" ++ Group (Spec svc) ++ str "__" ++ Version (Spec svc))
                   ++ str "_openapi.json".
Proof. unfold v3FileName. by rewrite <- !app_assoc. Qed.

Lemma v3_base svc :
  exists stem, noSep stem /\ Base (v3FileName svc) = stem ++ str "_openapi.json".
Proof.
  rewrite v3FileName_split, Base_suffix; [|done|by repeat constructor].
  eexists. split; [|done]. apply noSep_reverse, takeElem_noSep.
Qed.

Lemma v3_base_proper svc : properElem (Base (v3FileName svc)).
Proof.
  destruct (v3_base svc) as (stem & Hs & ->).
  split; [by destruct stem|]. split.
  { apply Forall_app. split; [done|]. by repeat constructor. }
  assert (forall l : list ascii, length l <= 2 -> stem ++ str "_openapi.json" <> l) as Hlen.
  { intros l Hl Heq. apply (f_equal length) in Heq. rewrite length_app in Heq.
    cbn in Heq. lia. }
  split; apply Hlen; cbn; lia.
Qed.

End layout_facts.

Module reindent_facts.
Import json json_inv json_facts reindent_inv.

Section reindent.
Variables prefix indent : list ascii.
Hypothesis prefix_space : allSpace prefix.
Hypothesis indent_space : allSpace indent.

Local Abbreviation loop := (indent_loop prefix indent).
Local Abbreviation byte := (indent_byte prefix indent).

Lemma reindent_cons s c s' v ni dep X :
  scan s c = (s', v) -> v <> scanSkipSpace -> v <> scanError ->
  loop s ni dep (c :: X) =
  written_first (byte ni dep c v).1.1
    (loop s' (byte ni dep c v).1.2 (byte ni dep c v).2 X).
Proof.
  intros H Hv1 Hv2. rewrite indent_loop_cons, H.
  destruct (byte ni dep c v) as [[w ni'] dep']. cbn [fst snd].
  destruct (loop s' ni' dep' X) as [sf out]. by destruct v.
Qed.

Lemma reindent_skip_ws d ni dep ws X :
  idle d -> allSpace ws -> loop d ni dep (ws ++ X) = loop d ni dep X.
Proof.
  intros Hi. induction 1 as [|w ws Hw _ IH]; [done|].
  cbn [app]. by rewrite indent_loop_cons, (idle_space d w Hi Hw).
Qed.

Lemma good_not_error s c s' v : good s -> scan s c = (s', v) -> good s' -> v <> scanError.
Proof.
  intros Hg H Hg'. destruct (scan_good _ _ _ _ Hg H) as [[_ ?]|[? _]]; [done|]. by destruct Hg'.
Qed.

Lemma reindent_one d s c s' v ni dep X :
  eqv d s -> good s -> scan s c = (s', v) -> good s' -> v <> scanSkipSpace ->
  loop d ni dep (c :: X) =
  written_first (byte ni dep c v).1.1
    (loop s' (byte ni dep c v).1.2 (byte ni dep c v).2 X).
Proof.
  intros He Hg H Hg' Hv. pose proof (good_not_error _ _ _ _ Hg H Hg') as Hve.
  apply reindent_cons; [|done..]. eapply scan_eqv; eauto.
Qed.

Lemma reindent_close d s c s' v dep ws X :
  closing s d -> good s -> scan s c = (s', v) -> good s' ->
  v <> scanContinue -> v <> scanSkipSpace -> c = "}" \/ c = "]" -> allSpace ws ->
  loop d false dep (ws ++ c :: X) =
  written_first (byte false dep c v).1.1
    (loop s' (byte false dep c v).1.2 (byte false dep c v).2 X).
Proof.
  intros Hcl Hg H Hg' Hv1 Hv2 Hc Hws. revert d Hcl.
  induction Hws as [|w ws Hw _ IH]; intros d Hcl.
  - cbn [app]. apply reindent_cons; [|done|exact (good_not_error _ _ _ _ Hg H Hg')].
    eapply closing_scan; eauto.
  - cbn [app].
    destruct (closing_space _ _ _ _ _ _ Hcl H Hg' Hv1 Hv2 Hc Hw) as (d' & Hd' & Hcl').
    rewrite indent_loop_cons, Hd'. by apply IH.
Qed.

Local Opaque newline.

(** What the loop writes for a byte when no indent is pending: the byte,
    after a line break when it closes a composite, before white space
    when it is a comma or a colon. *)
Lemma byte_plain_shape dep c v :
  v <> scanContinue -> 
  byte false dep c v =
    if byte_eq c "{" || byte_eq c "[" then ([c], true, dep)
    else if byte_eq c "," then (c :: newline prefix indent dep, false, dep)
    else if byte_eq c ":" then ([c; " "], false, dep)
    else if byte_eq c "}" || byte_eq c "]" then
      (newline prefix indent (dep - 1) ++ [c], false, (dep - 1)%Z)
    else ([c], false, dep).
Proof. intros Hv. unfold indent_byte. cbn [andb]. rewrite !app_nil_l. by destruct v. Qed.

(** Reading back what was written for one byte, no indent pending. *)
Lemma reindent_plain d s c s' v dep X :
  eqv d s -> good s -> scan s c = (s', v) -> good s' -> v <> scanSkipSpace ->
  loop d false dep ((byte false dep c v).1.1 ++ X) =
  written_first (byte false dep c v).1.1
    (loop s' (byte false dep c v).1.2 (byte false dep c v).2 X).
Proof.
  intros He Hg H Hg' Hv.
  assert (v = scanContinue \/ v <> scanContinue) as [->|Hvc]
    by (destruct v; auto; right; done).
  { change ((byte false dep c scanContinue).1.1) with [c]. by eapply reindent_one. }
  pose proof (reindent_one d s c s' v false dep) as Hone.
  rewrite (byte_plain_shape dep c v Hvc) in *.
  destruct (byte_eq_spec c "{") as [->|?]; cbn [orb fst snd] in *.
  { by apply Hone. }
  destruct (byte_eq_spec c "[") as [->|?]; cbn [orb fst snd] in *.
  { by apply Hone. }
  destruct (byte_eq_spec c ",") as [->|?]; cbn [fst snd] in *.
  { change ((?a :: ?l) ++ X) with (a :: l ++ X). rewrite Hone by done.
    rewrite reindent_skip_ws; [done| |apply newline_space; done].
    eapply scan_punct_idle; eauto. }
  destruct (byte_eq_spec c ":") as [->|?]; cbn [fst snd] in *.
  { change ([":"; " "] ++ X) with (":" :: [" "] ++ X). rewrite Hone by done.
    rewrite reindent_skip_ws; [done| |by repeat constructor].
    eapply scan_punct_idle; eauto. }
  assert (c = "}" \/ c = "]" ->
          loop d false dep ((newline prefix indent (dep - 1) ++ [c]) ++ X) =
          written_first (newline prefix indent (dep - 1) ++ [c])
            (loop s' false (dep - 1) X)) as Hclose.
  { intros Hc. rewrite <- app_assoc. cbn [app].
    pose proof (reindent_close d s c s' v dep (newline prefix indent (dep - 1)) X) as Hcl.
    rewrite (byte_plain_shape dep c v Hvc) in Hcl.
    destruct Hc as [-> | ->]; cbn [byte_eq Ascii.eqb orb fst snd] in Hcl;
      apply Hcl; auto using newline_space; by left. }
  destruct (byte_eq_spec c "}") as [->|?]; cbn [orb fst snd] in *.
  { apply Hclose. by left. }
  destruct (byte_eq_spec c "]") as [->|?]; cbn [orb fst snd] in *.
  { apply Hclose. by right. }
  by apply Hone.
Qed.

(** Reading back what was written for one byte. *)
Lemma reindent_byte d s c s' v ni dep X :
  eqv d s -> good s -> (ni = true -> orEmpty (step s) = true) ->
  scan s c = (s', v) -> good s' -> v <> scanSkipSpace ->
  loop d ni dep ((byte ni dep c v).1.1 ++ X) =
  written_first (byte ni dep c v).1.1
    (loop s' (byte ni dep c v).1.2 (byte ni dep c v).2 X).
Proof.
  intros He Hg Hni H Hg' Hv. destruct ni; [|by apply (reindent_plain d s)].
  specialize (Hni eq_refl).
  assert (d = s) as ->.
  { destruct He as [?|(_ & _ & ->)]; [done|]. by destruct d. }
  assert (idle s) as Hidle.
  { unfold idle. by destruct (step s). }
  pose proof (good_not_error _ _ _ _ Hg H Hg') as Hve.
  destruct (isEnd v) eqn:Hend.
  - assert ((byte true dep c v).1.1 = [c]) as Hw.
    { assert (c = "}" \/ c = "]") as Hc.
      { apply (scan_end_is_close s c s' v); [done|]. destruct v; auto; done. }
      unfold indent_byte. destruct v; try done; destruct Hc as [-> | ->]; reflexivity. }
    rewrite Hw at 1. cbn [app]. by apply reindent_cons.
  - rewrite emit_fire by done.
    destruct (byte false (dep + 1) c v) as [[w0 n0] d0] eqn:He0. cbn [fst snd].
    rewrite <- app_assoc.
    rewrite reindent_skip_ws by eauto using newline_space.
    (* the bytes written after the line break begin with [c] *)
    assert (exists rest, w0 = c :: rest /\ allSpace rest /\ (rest <> [] -> idle s'))
      as (rest & -> & Hrest & Hidle').
    { assert (v = scanContinue \/ v <> scanContinue) as [->|Hvc]
        by (destruct v; auto; right; done).
      { injection He0 as <- _ _. exists []. split; [done|]. split; [constructor|done]. }
      rewrite (byte_plain_shape _ c v Hvc) in He0.
      destruct (byte_eq_spec c "{") as [->|?]; cbn [orb] in He0.
      { injection He0 as <- _ _. exists []. split; [done|]. split; [constructor|done]. }
      destruct (byte_eq_spec c "[") as [->|?]; cbn [orb] in He0.
      { injection He0 as <- _ _. exists []. split; [done|]. split; [constructor|done]. }
      destruct (byte_eq_spec c ",") as [->|?].
      { injection He0 as <- _ _. eexists. split; [done|].
        split; [apply newline_space; done|]. intros _. eapply scan_punct_idle; eauto. }
      destruct (byte_eq_spec c ":") as [->|?].
      { injection He0 as <- _ _. eexists. split; [done|].
        split; [by repeat constructor|]. intros _. eapply scan_punct_idle; eauto. }
      assert (c = "}" \/ c = "]" -> False) as Hnc.
      { intros Hc. destruct (scan_close_orEmpty s c s' v Hni H Hg' Hc) as [-> | ->]; done. }
      destruct (byte_eq_spec c "}") as [->|?]; [exfalso; apply Hnc; by left|].
      destruct (byte_eq_spec c "]") as [->|?]; [exfalso; apply Hnc; by right|].
      cbn [orb] in He0. injection He0 as <- _ _. exists [].
      split; [done|]. split; [constructor|done]. }
    cbn [app]. rewrite (reindent_cons s c s' v true dep) by done.
    rewrite emit_fire, He0 by done. cbn [fst snd].
    destruct rest as [|b rest]; [by rewrite app_nil_l|].
    rewrite reindent_skip_ws; [done| |done]. by apply Hidle'.
Qed.

(** Running the loop over its own output writes that output again. *)
Lemma reindent_loop src : forall s ni dep d sF out,
  good s -> eqv d s -> (ni = true -> orEmpty (step s) = true) ->
  loop s ni dep src = (sF, out) -> err sF = None ->
  exists dF, loop d ni dep out = (dF, out) /\ eqv dF sF.
Proof.
  induction src as [|c src IH]; intros s ni dep d sF out Hg He Hni Hl HsF.
  { cbn in Hl. injection Hl as <- <-. by exists d. }
  rewrite indent_loop_cons in Hl.
  destruct (scan s c) as [s' v] eqn:Hs.
  destruct (scan_good _ _ _ _ Hg Hs) as [[Hg' Hve]|[Herr Hst]].
  - destruct (decide (v = scanSkipSpace)) as [->|Hvs].
    + apply (IH s' ni dep d sF out); auto.
      { eapply scan_skip_eqv; eauto. }
      { intros Hn. by rewrite (scan_skip_orEmpty _ _ _ Hs (Hni Hn)), Hni. }
    + pose proof (reindent_byte d s c s' v ni dep) as Hb.
      destruct (byte ni dep c v) as [[w ni'] dep'] eqn:Hem. cbn [fst snd] in Hb.
      destruct (loop s' ni' dep' src) as [sf out'] eqn:Hl'.
      assert ((sf, w ++ out') = (sF, out)) as [= -> <-] by (by destruct v).
      assert (ni' = true -> orEmpty (step s') = true) as Hni'.
      { destruct (emit_sim prefix indent prefix_space indent_space d s c s' v ni dep
                    w ni' dep' []) as [_ ?]; auto. }
      destruct (IH s' ni' dep' s' sF out') as (dF & H1 & H2); auto.
      { by left. }
      exists dF. split; [|done]. rewrite Hb by done. by rewrite H1.
  - exfalso. apply Herr.
    destruct v; try (injection Hl as <- <-; done);
      try (rewrite indent_sticky in Hl by done; injection Hl as <- <-; done);
      destruct (byte ni dep c _) as [[w ni'] dep'];
      rewrite indent_sticky in Hl by done; injection Hl as <- <-; done.
Qed.

(** [Indent] leaves its own output as it is. *)
Lemma Indent_idempotent src out :
  Indent prefix indent src = inr out -> Indent prefix indent out = inr out.
Proof.
  unfold Indent.
  destruct (loop newScanner false 0 src) as [sF o] eqn:Hl.
  intros [-> Heof]%finish_inr.
  destruct (reindent_loop src newScanner false 0%Z newScanner sF o) as (dF & H1 & H2); auto.
  - done.
  - by left.
  - by apply eof_end in Heof as [? _].
  - rewrite H1. apply finish_end. by apply (eqv_eof _ sF).
Qed.

End reindent.
End reindent_facts.

Module healthy_facts.
Import run run_inv run_facts confine_inv run_more filled_inv filled_facts.
Import apiregistrationv1 extract extract_inv extract_facts extraction_facts.
Import context poller poller_inv poller_facts poller_more.

(** Probes of endpoints that all answer within [b], under a context
    that leaves room for all of them. *)
Lemma probeAll_up head latency ctx b gvs : forall t,
  (forall t g, head t g = true) -> 0 < b -> (forall t g, latency t g <= b) ->
  (forall d, doneAt ctx = Some d -> t + length gvs * b <= d) ->
  failed (probeAll head latency ctx t gvs) = ∅ /\
  probeEnd head latency ctx t gvs <= t + length gvs * b.
Proof.
  induction gvs as [|g gvs IH]; intros t Hup Hb Hlat Hlive; [split; [done|cbn; lia]|].
  cbn [probeAll probeEnd].
  assert (probe head latency ctx t g = (true, t + latency t g)) as Hp.
  { unfold probe. pose proof (Hlat t g). destruct (doneAt ctx) as [d|] eqn:HD.
    - specialize (Hlive d eq_refl). cbn [length] in Hlive.
      rewrite bool_decide_false by nia. rewrite bool_decide_false by nia. by rewrite Hup.
    - by rewrite Hup. }
  rewrite Hp. cbn [fst snd]. pose proof (Hlat t g).
  destruct (IH (t + latency t g)) as [Hf He]; [done|done|done| |].
  { intros d HD. specialize (Hlive d HD). cbn [length] in Hlive. nia. }
  split.
  - unfold failed in *. rewrite filter_cons, decide_False by (cbn; done). exact Hf.
  - cbn [length]. nia.
Qed.

(** When every endpoint answers and the timeout leaves room for one probe
    per group-version, the first round confirms them all. *)
Lemma waitFor_up head latency range tickFirst second timeout services b :
  (forall t G, range t G ≡ₚ elements G) ->
  (forall t g, head t g = true) ->
  0 < b -> (forall t g, latency t g <= b) ->
  size (initialGVs services) * b <= timeout ->
  exists st t,
    waitForAPIServicesOpenAPIV3 head latency range tickFirst second Background timeout services
      = Some (None, st, t) /\
    t <= size (initialGVs services) * b /\
    length (rounds st) = 1.
Proof.
  intros Hperm Hup Hb Hlat Hsz.
  unfold waitForAPIServicesOpenAPIV3, wait.PollUntilContextTimeout, condition.
  cbn [testGVs rounds events].
  assert (length (range 0 (initialGVs services)) = size (initialGVs services)) as Hlen.
  { by rewrite Hperm. }
  destruct (probeAll_up head latency (WithTimeout Background 0 timeout) b
              (range 0 (initialGVs services)) 0 Hup Hb Hlat) as [Hf He].
  { intros d [= <-]. rewrite Hlen. lia. }
  rewrite Hf, bool_decide_true by apply size_empty.
  eexists _, _. split; [done|]. split; [|done]. rewrite Hlen in He. lia.
Qed.

Section healthy.
Variable env : Env.
Hypothesis coop : cooperative env.

Lemma writeJSONFile_cooperative dir name data out w :
  json.Indent [] ["009"] data = inr out ->
  exists w', persist.writeJSONFile env dir name data w = (inr tt, w').
Proof.
  intros Hi. destruct coop as (_ & Hm & Hw).
  rewrite writeJSONFile_unfold. cbv zeta. rewrite Hm, Hi, Hw. by eexists.
Qed.

Lemma extractOpenAPIv2_cooperative out w :
  exists w', extractOpenAPIv2 env out w = (inr tt, w').
Proof.
  unfold extractOpenAPIv2, mbind, M_bind, emit. unfold orWrap at 1.
  rewrite getPath_unfold. cbv zeta. cbn [trace files].
  destruct coop as (Hg & _ & _).
  destruct (Hg (trace w ++ [LogInfo (str "Extracting OpenAPI v2") []]) (str "/openapi/v2"))
    as (resp & o & -> & Hi).
  unfold orWrap.
  destruct (writeJSONFile_cooperative out (str "swagger.json") resp o
              {| trace := (trace w ++ [LogInfo (str "Extracting OpenAPI v2") []])
                          ++ [Get (str "/openapi/v2")]; files := files w |} Hi) as [w' ->].
  by exists w'.
Qed.

Lemma extractOpenAPIv3_cooperative services out w :
  exists w', extractOpenAPIv3 env services out w = (inr tt, w').
Proof.
  unfold extractOpenAPIv3, mbind, M_bind, emit.
  apply (forEach_cooperative env out services _ coop).
Qed.

End healthy.
End healthy_facts.

Module legacy_facts.
Import run run_inv run_facts.
Import apiregistrationv1 extract_facts.

Section legacy_facts.
Variable env : Env.

Lemma emits_createAndWrite file data : emits ioEvent (legacy.createAndWrite env file data).
Proof.
  intros w. unfold legacy.createAndWrite. exists [WriteFile file data].
  destruct (os_WriteFile env _ _ _); (split; [done|by repeat constructor]).
Qed.

Lemma emits_MkdirAll dir : emits ioEvent (persist.MkdirAll_ env dir).
Proof.
  intros w. unfold persist.MkdirAll_. exists [MkdirAll dir].
  destruct (os_MkdirAll env _ _); (split; [done|by repeat constructor]).
Qed.

Lemma emits_Indent data : emits ioEvent (persist.Indent_ data).
Proof. intros w. exists []. by rewrite app_nil_r. Qed.

Lemma emits_legacy_writeFile resp dir name :
  emits ioEvent (legacy.writeFile env resp dir name).
Proof.
  unfold legacy.writeFile. apply emits_bind; [by apply emits_emit|]. intros _.
  apply emits_bind; [apply emits_orWrap, emits_MkdirAll|]. intros _.
  apply emits_bind; [apply emits_orWrap, emits_Indent|]. intros out.
  apply emits_createAndWrite.
Qed.

Lemma emits_legacy_getPath path : emits ioEvent (legacy.getPath env path).
Proof.
  intros w. exists [Get path]. unfold legacy.getPath.
  destruct (http_get env _ _); (split; [done|by repeat constructor]).
Qed.

Lemma emits_legacy_v3 services out : emits ioEvent (legacy.extractOpenAPIv3 env services out).
Proof.
  unfold legacy.extractOpenAPIv3. apply emits_bind; [by apply emits_emit|]. intros _.
  apply emits_forEach. intros svc. unfold legacy.extractOne. apply emits_bind.
  - apply emits_orWrap, emits_legacy_getPath.
  - intros resp. apply emits_orWrap, emits_legacy_writeFile.
Qed.

Lemma emits_legacy_v2 out : emits ioEvent (legacy.extractOpenAPIv2 env out).
Proof.
  unfold legacy.extractOpenAPIv2. apply emits_bind; [by apply emits_emit|]. intros _.
  apply emits_bind.
  - intros w. exists [Get (str "/openapi/v2")].
    destruct (http_get env _ _); (split; [done|by repeat constructor]).
  - intros resp. apply emits_orWrap, emits_legacy_writeFile.
Qed.

End legacy_facts.
End legacy_facts.

Module deadline_facts.
Import context poller poller_inv poller_facts poller_more.

(** Probes under a context that is done all fail, and take no time. *)
Lemma probeAll_dead head latency ctx d gvs : forall t,
  doneAt ctx = Some d -> d <= t ->
  probeAll head latency ctx t gvs = (fun g => (g, false)) <$> gvs /\
  probeEnd head latency ctx t gvs = t.
Proof.
  induction gvs as [|g gvs IH]; intros t HD Hle; [done|].
  cbn [probeAll probeEnd fmap list_fmap].
  assert (probe head latency ctx t g = (false, t)) as ->.
  { unfold probe. rewrite HD. by rewrite bool_decide_true by done. }
  cbn [fst snd]. destruct (IH t HD Hle) as [-> ->]. done.
Qed.

Lemma failed_all (gvs : list GroupVersion) :
  failed ((fun g => (g, false)) <$> gvs) = list_to_set gvs.
Proof.
  unfold failed. f_equal. induction gvs as [|g gvs IH]; [done|].
  cbn [fmap list_fmap]. rewrite filter_cons, decide_True by done. cbn. by rewrite IH.
Qed.

End deadline_facts.

Module content_facts.
Import run run_inv run_facts confine_inv run_more run_frame_facts.
Import filepath filepath_inv filepath_facts layout_facts.
Import apiregistrationv1 extract extract_inv extract_facts.

Lemma v2Destination_suffix out :
  exists d, v2Destination out = d ++ str "swagger.json".
Proof.
  rewrite v2Destination_name. unfold inDir.
  destruct (decide _); [by exists []|]. destruct (decide _); [by exists [Separator]|].
  exists (Clean out ++ [Separator]). by rewrite <- app_assoc.
Qed.

(** No v3 document goes where [swagger.json] goes. *)
Lemma v3_v2_apart out svc : v3Destination out svc <> v2Destination out.
Proof.
  destruct (v2Destination_suffix out) as (d2 & ->).
  destruct (v3_base svc) as (stem & _ & Hb).
  unfold v3Destination, persist.destination.
  rewrite Join_dir_elem by apply v3_base_proper. rewrite Hb.
  assert (exists d3, inDir (Clean (v3Dir out)) (stem ++ str "_openapi.json")
                     = d3 ++ str "_openapi.json") as (d3 & ->).
  { unfold inDir. destruct (decide _); [by exists stem|].
    destruct (decide _); [by exists (Separator :: stem)|].
    exists (Clean (v3Dir out) ++ Separator :: stem). by rewrite <- app_assoc. }
  intros Heq. apply (f_equal reverse) in Heq. rewrite !reverse_app in Heq.
  change (reverse (str "_openapi.json")) with (str "nosj.ipanepo_") in Heq.
  change (reverse (str "swagger.json")) with (str "nosj.reggaws") in Heq.
  discriminate Heq.
Qed.

Section content.
Variable env : Env.

Lemma extractOpenAPIv2_ok out w w' :
  extractOpenAPIv2 env out w = (inr tt, w') ->
  exists resp stored,
    http_get env (trace w ++ [LogInfo (str "Extracting OpenAPI v2") []]) (str "/openapi/v2")
      = inr resp /\
    json.Indent [] ["009"] resp = inr stored /\
    files w' = <[v2Destination out := stored]> (files w).
Proof.
  unfold extractOpenAPIv2. intros Hr.
  apply bind_inv in Hr as [(e & _ & ?)|([] & w1 & He & Hr)]; [done|].
  injection He as <-.
  apply bind_inv in Hr as [(e & _ & ?)|(resp & w2 & Hg & Hw)]; [done|].
  apply orWrap_inv in Hg as (r0 & Hg & Hr0). rewrite getPath_unfold in Hg.
  cbv zeta in Hg. cbn [trace files] in Hg.
  destruct (http_get env _ _) as [e|resp0] eqn:Hget; injection Hg as <- <-; [done|].
  injection Hr0 as <-.
  apply orWrap_inv in Hw as (r1 & Hw & Hr1). destruct r1 as [|[]]; [done|].
  apply writeJSONFile_spec in Hw as (evs & _ & Hcase).
  destruct Hcase as [(e & ? & _)|[(e & o & ? & _)|(o & _ & Hi & Hf & _)]]; [done..|].
  exists resp, o. done.
Qed.

End content.
End content_facts.

Module served_facts.
Import run run_inv run_facts confine_inv run_more run_frame_facts served_inv.
Import apiregistrationv1 extract extract_inv extract_facts.

Section served.
Variable env : Env.

Lemma fetched_mono tr tr' path stored :
  tr `prefix_of` tr' -> fetched env tr path stored -> fetched env tr' path stored.
Proof.
  intros Hpre (hist & resp & Hh & Hg & Hi). exists hist, resp.
  split; [by etrans|done].
Qed.

Lemma extractOne_fetch out svc w w' :
  extractOne env out svc w = (inr tt, w') ->
  exists stored,
    trace w `prefix_of` trace w' /\
    fetched env (trace w') (svcPath svc) stored /\
    files w' = <[v3Destination out svc := stored]> (files w).
Proof.
  unfold extractOne. intros Hr.
  apply bind_inv in Hr as [(e & _ & ?)|(resp & w1 & Hg & Hw)]; [done|].
  apply orWrap_inv in Hg as (r0 & Hg & Hr0). rewrite getPath_unfold in Hg.
  cbv zeta in Hg.
  destruct (http_get env (trace w) _) as [e|resp0] eqn:Hget; injection Hg as <- <-; [done|].
  injection Hr0 as <-.
  apply orWrap_inv in Hw as (r1 & Hw & Hr1). destruct r1 as [|[]]; [done|].
  apply writeJSONFile_spec in Hw as (evs & Htr & Hcase). cbn [trace files] in Htr, Hcase.
  destruct Hcase as [(e & ? & _)|[(e & o & ? & _)|(o & _ & Hi & Hf & _)]]; [done..|].
  exists o. split; [|split; [|done]].
  - rewrite Htr, <- app_assoc. by apply prefix_app_r.
  - exists (trace w), resp. split; [|done]. rewrite Htr. by apply prefix_app_r.
Qed.

Lemma forEach_served out all services : forall w w',
  services ⊆ all ->
  forEach (extractOne env out) services w = (inr tt, w') ->
  trace w `prefix_of` trace w' /\
  (forall p, served env out all w p -> served env out all w' p) /\
  (forall svc, svc ∈ services -> served env out all w' (v3Destination out svc)).
Proof.
  induction services as [|svc l IH]; intros w w' Hsub.
  { intros [= <-]. split; [done|]. split; [done|]. by intros svc ?%elem_of_nil. }
  rewrite forEach_cons. destruct (extractOne env out svc w) as [[e|[]] w1] eqn:H1; [done|].
  intros Hl. apply extractOne_fetch in H1 as (stored & Hpre1 & Hfetch & Hf).
  destruct (IH w1 w') as (Hpre & Hkeep & Hnew); [set_solver|done|].
  assert (served env out all w1 (v3Destination out svc)) as Hhere.
  { exists svc, stored. split; [set_solver|]. split; [done|]. split; [done|].
    by rewrite Hf, lookup_insert_eq. }
  split; [by etrans|]. split.
  - intros p (s & st & Hs & Hd & Hfe & Hfi). apply Hkeep.
    destruct (decide (p = v3Destination out svc)) as [->|Hne]; [done|].
    exists s, st. split; [done|]. split; [done|].
    split; [by eapply fetched_mono|]. by rewrite Hf, lookup_insert_ne.
  - intros s [->|Hs]%elem_of_cons; [by apply Hkeep|by apply Hnew].
Qed.

Lemma extractOpenAPIv3_served out services w w' :
  extractOpenAPIv3 env services out w = (inr tt, w') ->
  forall svc, svc ∈ services -> served env out services w' (v3Destination out svc).
Proof.
  unfold extractOpenAPIv3. intros Hr.
  apply bind_inv in Hr as [(e & _ & ?)|([] & w1 & He & Hl)]; [done|].
  by apply (forEach_served out services) in Hl as (_ & _ & ?).
Qed.

End served.
End served_facts.

(** * Further properties of the readiness poller *)

Section extras_sort.
Import poller order_inv order_facts poller_facts.

(** X1. [sortedGroupVersions] returns the group-versions it was given, each as
    often as it was given, ordered so that their [String()] keys never
    decrease. *)
Theorem sortedGroupVersions_sorted gvs :
  sortedGroupVersions gvs ≡ₚ gvs /\ keySorted (sortedGroupVersions gvs).
Proof.
  split; [apply sortedGroupVersions_perm|apply sortedGroupVersions_keySorted].
Qed.
End extras_sort.

Section extras_poller.
Import context poller poller_inv poller_facts poller_more extract_inv order_inv order_facts.

(** X2. With no registered service the readiness wait returns nil at once,
    without a single request, whatever the timeout and even under a
    context that is already done. *)
Theorem poller_no_services head latency range tickFirst second ctx timeout :
  (forall t G, range t G ≡ₚ elements G) ->
  waitForAPIServicesOpenAPIV3 head latency range tickFirst second ctx timeout [] =
    Some (None,
          {| testGVs := ∅;
             rounds := [{| pre := ∅; began := 0; probes := []; ended := 0 |}];
             events := [LogInfo (str "All API services are available") []] |}, 0).
Proof.
  intros Hperm. unfold waitForAPIServicesOpenAPIV3, wait.PollUntilContextTimeout, condition.
  cbn [testGVs rounds events initialGVs fmap list_fmap list_to_set].
  assert (forall t, range t (∅ : gset GroupVersion) = []) as Hnil.
  { intros t. apply Permutation_nil_r. by rewrite Hperm, elements_empty. }
  change (foldr _ _ []) with (∅ : gset GroupVersion).
  rewrite Hnil. cbn. done.
Qed.

Lemma poller_no_services_witness :
  (forall t G, samples.inOrder t G ≡ₚ elements G) /\
  waitForAPIServicesOpenAPIV3 samples.never samples.oneTick samples.inOrder samples.ctxFirst 1
    {| cancelAt := Some 0; deadlineAt := None |} 0 [] =
    Some (None,
          {| testGVs := ∅;
             rounds := [{| pre := ∅; began := 0; probes := []; ended := 0 |}];
             events := [LogInfo (str "All API services are available") []] |}, 0).
Proof.
  split; [apply extraction_facts.inOrder_perm|].
  apply (poller_no_services samples.never samples.oneTick samples.inOrder samples.ctxFirst 1).
  apply extraction_facts.inOrder_perm.
Defined.

(** X3. When the readiness wait returns nil, every registered service was
    confirmed: some round holds a successful probe of its group-version,
    the request went to the service's v3 path and was answered while the
    poll's context was still live. *)
Theorem poller_success_confirms head latency range tickFirst second ctx timeout services st t svc :
  (forall t G, range t G ≡ₚ elements G) ->
  waitForAPIServicesOpenAPIV3 head latency range tickFirst second ctx timeout services = Some (None, st, t) ->
  svc ∈ services ->
  exists rd t',
    rd ∈ rounds st /\ (groupVersion svc, true) ∈ probes rd /\
    head t' (groupVersion svc) = true /\
    Err (WithTimeout ctx 0 timeout) t' = None /\
    Head (svcPath svc) ∈ events st.
Proof.
  intros Hperm Hw Hin.
  apply waitFor_post in Hw as (D & r0 & HD & HDle & HP & Hr).
  destruct r0; [done|]. cbn in HP.
  destruct HP as (Hc & Hs & Hev & lastr & Hlast & Hsz & Ht).
  apply size_empty_inv in Hsz. apply leibniz_equiv in Hsz.
  pose proof (initialGVs_elem services svc Hin) as Hg.
  destruct (decide (Exists (fun rd => (groupVersion svc, true) ∈ probes rd) (rounds st)))
    as [Hex|Hno].
  - apply Exists_exists in Hex as (rd & Hrd & Hp).
    destruct (chain_ok head latency range _ _ _ _ Hc Hrd) as [Hok _].
    rewrite Hok in Hp.
    destruct (probeAll_true head latency _ _ _ _ Hp) as (t' & _ & _ & Hh & He).
    exists rd, t'. split; [done|]. split; [by rewrite Hok|]. split; [done|]. split; [done|].
    rewrite Hev. apply list_elem_of_bind. exists rd. split; [|done].
    unfold round_events. apply elem_of_app. left. rewrite Hok.
    apply list_elem_of_fmap. by exists (groupVersion svc, true).
  - exfalso. assert (groupVersion svc ∈ pending (initialGVs services) (rounds st)) as Hpend.
    { apply (chain_pending head latency range Hperm _ _ _ _ Hc). split; [done|].
      intros rd Hrd Hp. apply Hno. apply Exists_exists. by exists rd. }
    unfold pending in Hpend. rewrite Hlast, Hsz in Hpend. set_solver.
Qed.

Lemma poller_success_confirms_witness :
  let services := [samples.service "a" "v1"; samples.service "b" "v1"] in
  let out := waitForAPIServicesOpenAPIV3 (samples.from 3) samples.oneTick samples.inOrder samples.ctxFirst 2
               Background 30 services in
  let st := (samples.returned out).1.2 in
  (forall t G, samples.inOrder t G ≡ₚ elements G) /\
  out = Some (None, st, (samples.returned out).2) /\
  samples.service "b" "v1" ∈ services /\
  exists rd t',
    rd ∈ rounds st /\ (groupVersion (samples.service "b" "v1"), true) ∈ probes rd /\
    samples.from 3 t' (groupVersion (samples.service "b" "v1")) = true /\
    Err (WithTimeout Background 0 30) t' = None /\
    Head (svcPath (samples.service "b" "v1")) ∈ events st.
Proof.
  cbv zeta.
  assert (forall t G, samples.inOrder t G ≡ₚ elements G) as Hperm
    by apply extraction_facts.inOrder_perm.
  split; [done|].
  match goal with |- ?o = _ /\ _ =>
    assert (o = Some (None, (samples.returned o).1.2, (samples.returned o).2)) as Hout
  end.
  { match goal with |- ?o = _ =>
      rewrite (extraction_facts.returned_eq o) at 1 by (vm_compute; reflexivity);
      replace ((samples.returned o).1.1) with (@None error) by (vm_compute; reflexivity)
    end. done. }
  split; [exact Hout|].
  assert (samples.service "b" "v1" ∈ [samples.service "a" "v1"; samples.service "b" "v1"])
    as Hin by (right; left).
  split; [exact Hin|].
  exact (poller_success_confirms (samples.from 3) samples.oneTick samples.inOrder
           samples.ctxFirst 2 Background 30 _ _ _ _ Hperm Hout Hin).
Defined.

(** X4. The pace of the poll: round number [i] (from 0) never begins before
    [i] intervals have passed, and no round begins after the timeout. The
    poller thus makes at most one round per interval,
    [timeout / interval + 1] rounds at most. A round can begin at the very
    instant of the deadline, when the tick of that instant wins the race
    against the context. *)
Theorem poller_round_pace head latency range tickFirst second ctx timeout services r st t i rd :
  waitForAPIServicesOpenAPIV3 head latency range tickFirst second ctx timeout services = Some (r, st, t) ->
  rounds st !! i = Some rd ->
  i * second <= began rd /\ began rd <= timeout /\ i * second <= timeout.
Proof.
  intros Hw Hi.
  assert (i * second <= began rd) as Hpace.
  { rewrite waitFor_unfold in Hw.
    destruct (wait.PollUntilContextTimeout _ _ _ _ _ _ _) as [[[r0 st0] t0]|] eqn:Hp; [|done].
    apply poll_paced in Hp. cbn in Hp.
    assert (st0 = st) as -> by (destruct r0; by injection Hw). by apply Hp. }
  split; [done|].
  apply waitFor_post in Hw as (D & r0 & HD & HDle & HP & Hr).
  assert (starts D (rounds st)) as Hs by (destruct r0; apply HP).
  pose proof (starts_by _ _ _ _ Hs Hi). lia.
Qed.

Lemma poller_round_pace_witness :
  let services := [samples.service "a" "v1"] in
  let out := waitForAPIServicesOpenAPIV3 samples.never samples.oneTick samples.inOrder
               samples.tickWins 2 Background 4 services in
  let st := (samples.returned out).1.2 in
  let rd := default {| pre := ∅; began := 0; probes := []; ended := 0 |} (rounds st !! 2) in
  out = Some ((samples.returned out).1.1, st, (samples.returned out).2) /\
  rounds st !! 2 = Some rd /\ began rd = 4 /\ length (rounds st) = 3 /\
  length (rounds (samples.returned
            (waitForAPIServicesOpenAPIV3 samples.never samples.oneTick samples.inOrder
               samples.ctxFirst 2 Background 4 services)).1.2) = 2 /\
  2 * 2 <= began rd /\ began rd <= 4 /\ 2 * 2 <= 4.
Proof.
  cbv zeta.
  match goal with |- ?o = _ /\ _ =>
    assert (o = Some ((samples.returned o).1.1, (samples.returned o).1.2,
                      (samples.returned o).2)) as Hout
      by (apply extraction_facts.returned_eq; vm_compute; reflexivity)
  end.
  split; [exact Hout|].
  match goal with |- ?l = Some ?d /\ _ =>
    assert (l = Some d) as Hl by (vm_compute; reflexivity)
  end.
  split; [exact Hl|]. split; [vm_compute; reflexivity|].
  split; [vm_compute; reflexivity|]. split; [vm_compute; reflexivity|].
  exact (poller_round_pace samples.never samples.oneTick samples.inOrder samples.tickWins
           2 Background 4 _ _ _ _ 2 _ Hout Hl).
Defined.

(** X5. The readiness wait always returns, and never later than the
    timeout: a request in flight when the deadline passes is ended by the
    context, the probes left in that round fail at once, and no round
    follows. *)
Theorem poller_returns_by_deadline head latency range tickFirst second ctx timeout services :
  (forall t G, range t G ≡ₚ elements G) -> 0 < second ->
  exists r st t,
    waitForAPIServicesOpenAPIV3 head latency range tickFirst second ctx timeout services = Some (r, st, t) /\
    t <= timeout.
Proof.
  intros Hperm Hsec.
  destruct (waitFor_spec head latency range tickFirst second ctx timeout services Hsec)
    as (D & r0 & st & t & HD & HDle & HP & Hout).
  eexists _, st, t. split; [exact Hout|].
  assert (exists lastr, last (rounds st) = Some lastr /\ chain head latency range
            (WithTimeout ctx 0 timeout) (initialGVs services) (rounds st) /\
            starts D (rounds st) /\ t <= ended lastr `max` D) as (lastr & Hlast & Hc & Hs & Ht).
  { destruct r0; cbn in HP; destruct HP as (Hc & Hs & _ & lastr & Hlast & Hres);
      exists lastr; (split; [done|]); (split; [done|]); (split; [done|]).
    - destruct Hres as (_ & _ & _ & ->). done.
    - destruct Hres as [_ ->]. lia. }
  assert (lastr ∈ rounds st) as Hin by (by apply last_Some_elem_of).
  pose proof (round_ends head latency range _ _ _ _ _ HD Hc Hs Hin). lia.
Qed.

Lemma poller_returns_by_deadline_witness :
  let services := [samples.service "a" "v1"; samples.service "b" "v1"] in
  (forall t G, samples.inOrder t G ≡ₚ elements G) /\ 0 < 1 /\
  exists r st t,
    waitForAPIServicesOpenAPIV3 samples.never samples.oneTick samples.inOrder samples.ctxFirst 1 Background 3 services
      = Some (r, st, t) /\
    t <= 3.
Proof.
  cbv zeta. split; [apply extraction_facts.inOrder_perm|]. split; [lia|].
  apply (poller_returns_by_deadline samples.never samples.oneTick samples.inOrder
           samples.ctxFirst 1 Background 3);
    [apply extraction_facts.inOrder_perm|lia].
Defined.

(** X6. A group-version that answered a probe is never probed again: it is in
    the set of no later round and no later round holds a probe of it. *)
Theorem poller_confirmed_once head latency range tickFirst second ctx timeout services r st t i j ri rj g :
  (forall t G, range t G ≡ₚ elements G) ->
  waitForAPIServicesOpenAPIV3 head latency range tickFirst second ctx timeout services = Some (r, st, t) ->
  i < j -> rounds st !! i = Some ri -> rounds st !! j = Some rj ->
  (g, true) ∈ probes ri ->
  (g ∉ pre rj) /\ forall b, (g, b) ∉ probes rj.
Proof.
  intros Hperm Hw Hij Hi Hj Hp.
  apply waitFor_post in Hw as (D & r0 & HD & HDle & HP & Hr).
  assert (chain head latency range (WithTimeout ctx 0 timeout) (initialGVs services) (rounds st))
    as Hc by (destruct r0; apply HP).
  assert (g ∉ pre rj) as Hnot.
  { destruct (lookup_lt_is_Some_2 (rounds st) (S i)) as [r1 H1].
    { apply lookup_lt_Some in Hj. lia. }
    pose proof (chain_next head latency range _ _ _ _ _ _ Hc Hi H1) as Hpre.
    assert (S i <= j) as Hle by lia.
    pose proof (chain_mono head latency range Hperm _ _ _ (S i) j r1 rj Hc Hle H1 Hj) as Hsub.
    assert (round_ok head latency range (WithTimeout ctx 0 timeout) ri) as Hoki.
    { eapply chain_ok; [done|]. by eapply list_elem_of_lookup_2. }
    intros Hin. apply Hsub in Hin. rewrite Hpre in Hin.
    apply (failed_iff head latency range Hperm _ _ _ Hoki) in Hin. by destruct Hin. }
  split; [done|]. intros b Hb. apply Hnot.
  assert (round_ok head latency range (WithTimeout ctx 0 timeout) rj) as Hok.
  { eapply chain_ok; [done|]. by eapply list_elem_of_lookup_2. }
  apply elem_of_elements. rewrite <- (round_ok_perm head latency range Hperm _ _ Hok).
  apply list_elem_of_fmap. by exists (g, b).
Qed.

Lemma poller_confirmed_once_witness :
  let services := [samples.service "a" "v1"; samples.service "b" "v1"] in
  let head := fun (t : nat) (g : GroupVersion) =>
    bool_decide (g = samples.gv "a" "v1") || bool_decide (3 <= t) in
  let out := waitForAPIServicesOpenAPIV3 head samples.oneTick samples.inOrder samples.ctxFirst 2 Background 30 services in
  let st := (samples.returned out).1.2 in
  let none := {| pre := ∅; began := 0; probes := []; ended := 0 |} in
  let r0 := default none (rounds st !! 0) in
  let r1 := default none (rounds st !! 1) in
  (forall t G, samples.inOrder t G ≡ₚ elements G) /\
  out = Some ((samples.returned out).1.1, st, (samples.returned out).2) /\
  0 < 1 /\ rounds st !! 0 = Some r0 /\ rounds st !! 1 = Some r1 /\
  (samples.gv "a" "v1", true) ∈ probes r0 /\
  (samples.gv "a" "v1" ∉ pre r1) /\ forall b, (samples.gv "a" "v1", b) ∉ probes r1.
Proof.
  cbv zeta.
  assert (forall t G, samples.inOrder t G ≡ₚ elements G) as Hperm
    by apply extraction_facts.inOrder_perm.
  split; [done|].
  match goal with |- ?o = _ /\ _ =>
    assert (o = Some ((samples.returned o).1.1, (samples.returned o).1.2,
                      (samples.returned o).2)) as Hout
      by (apply extraction_facts.returned_eq; vm_compute; reflexivity)
  end.
  split; [exact Hout|]. split; [lia|].
  match goal with |- ?l = Some ?d /\ _ =>
    assert (l = Some d) as H0 by (vm_compute; reflexivity)
  end.
  split; [exact H0|].
  match goal with |- ?l = Some ?d /\ _ =>
    assert (l = Some d) as H1 by (vm_compute; reflexivity)
  end.
  split; [exact H1|].
  match goal with |- ?P /\ _ =>
    assert P as Hp by (refine (bool_decide_unpack _ _); vm_compute; exact I)
  end.
  split; [exact Hp|].
  assert (0 < 1) as Hlt by lia.
  exact (poller_confirmed_once _ samples.oneTick samples.inOrder samples.ctxFirst
           2 Background 30 _ _ _ _ 0 1 _ _ _ Hperm Hout Hlt H0 H1 Hp).
Defined.

(** X7. Every "Not all API services are available" line of the poller lists,
    under [UnavailableGroupVersions], the keys of a non-empty list of
    group-versions in non-decreasing order. *)
Theorem poller_log_sorted head latency range tickFirst second ctx timeout services r st t kvs :
  (forall t G, range t G ≡ₚ elements G) ->
  waitForAPIServicesOpenAPIV3 head latency range tickFirst second ctx timeout services = Some (r, st, t) ->
  LogInfo (str "Not all API services are available") kvs ∈ events st ->
  exists gvs,
    kvs = str "UnavailableGroupVersions" :: (schema.String <$> gvs) /\
    gvs <> [] /\ keySorted gvs /\
    exists rd, rd ∈ rounds st /\ gvs ≡ₚ elements (failed (probes rd)).
Proof.
  intros Hperm Hw Hin.
  apply waitFor_post in Hw as (D & r0 & HD & HDle & HP & Hr).
  assert (events st = rounds st ≫= round_events range) as Hev by (destruct r0; apply HP).
  rewrite Hev in Hin. apply list_elem_of_bind in Hin as (rd & Hin & Hrd).
  unfold round_events in Hin. apply elem_of_app in Hin as [Hin|Hin].
  { apply list_elem_of_fmap in Hin as (? & ? & ?). done. }
  apply list_elem_of_singleton in Hin. unfold round_log in Hin.
  case_bool_decide as Hsz; [done|]. injection Hin as ->.
  eexists. split; [done|].
  assert (sortedGroupVersions (range (ended rd) (failed (probes rd)))
          ≡ₚ elements (failed (probes rd))) as Hp.
  { by rewrite sortedGroupVersions_perm, Hperm. }
  split.
  { intros Hnil. rewrite Hnil in Hp. apply Permutation_nil in Hp.
    apply Hsz. unfold size, set_size. cbn. by rewrite Hp. }
  split; [|by exists rd].
  apply sortedGroupVersions_keySorted.
Qed.

Lemma poller_log_sorted_witness :
  let services := [samples.service "b" "v1"; samples.service "a" "v1"] in
  let out := waitForAPIServicesOpenAPIV3 (samples.from 3) samples.oneTick samples.inOrder samples.ctxFirst 2
               Background 30 services in
  let st := (samples.returned out).1.2 in
  let kvs := [str "UnavailableGroupVersions"; str "a/v1"; str "b/v1"] in
  (forall t G, samples.inOrder t G ≡ₚ elements G) /\
  out = Some ((samples.returned out).1.1, st, (samples.returned out).2) /\
  LogInfo (str "Not all API services are available") kvs ∈ events st /\
  exists gvs,
    kvs = str "UnavailableGroupVersions" :: (schema.String <$> gvs) /\
    gvs <> [] /\ keySorted gvs /\
    exists rd, rd ∈ rounds st /\ gvs ≡ₚ elements (failed (probes rd)).
Proof.
  cbv zeta.
  assert (forall t G, samples.inOrder t G ≡ₚ elements G) as Hperm
    by apply extraction_facts.inOrder_perm.
  split; [done|].
  match goal with |- ?o = _ /\ _ =>
    assert (o = Some ((samples.returned o).1.1, (samples.returned o).1.2,
                      (samples.returned o).2)) as Hout
      by (apply extraction_facts.returned_eq; vm_compute; reflexivity)
  end.
  split; [exact Hout|].
  match goal with |- ?P /\ _ =>
    assert P as Hin by (refine (bool_decide_unpack _ _); vm_compute; exact I)
  end.
  split; [exact Hin|].
  exact (poller_log_sorted (samples.from 3) samples.oneTick samples.inOrder
           samples.ctxFirst 2 Background 30 _ _ _ _ _ Hperm Hout Hin).
Defined.

End extras_poller.

(** * Further properties of the program *)

Section extras_run.
Import run run_inv run_facts confine_inv run_more run_frame_facts.
Import apiregistrationv1 extract extract_inv extract_facts extraction_facts.

(** X8. The extraction changes, through its own calls of [os.WriteFile],
    no file other than its destinations: a path that is neither
    [swagger.json] in the output directory nor the v3 file of a registered
    service holds after [extractOpenAPIv2], and after [extractOpenAPIv3]
    run next, what it held before, however the two steps end. *)
Theorem extraction_frame env out services w q :
  q <> v2Destination out ->
  (forall svc, svc ∈ services -> q <> v3Destination out svc) ->
  let w2 := (extractOpenAPIv2 env out w).2 in
  files w2 !! q = files w !! q /\
  files (extractOpenAPIv3 env services out w2).2 !! q = files w !! q.
Proof.
  intros H2 H3. cbv zeta.
  pose proof (extractOpenAPIv2_frame env out w q H2) as Hv2.
  split; [done|]. by rewrite extractOpenAPIv3_frame.
Qed.

Lemma extraction_frame_witness :
  let services := [samples.service "a" "v1"] in
  let env := samples.env_ok samples.spaced in
  let w := {| trace := []; files := {[ str "out/notes.txt" := str "keep" ]} |} in
  let q := str "out/notes.txt" in
  let w2 := (extractOpenAPIv2 env (str "out") w).2 in
  let w3 := (extractOpenAPIv3 env services (str "out") w2).2 in
  q <> v2Destination (str "out") /\
  (forall svc, svc ∈ services -> q <> v3Destination (str "out") svc) /\
  is_Some (files w3 !! v2Destination (str "out")) /\
  is_Some (files w3 !! v3Destination (str "out") (samples.service "a" "v1")) /\
  files w2 !! q = files w !! q /\
  files w3 !! q = files w !! q.
Proof.
  cbv zeta.
  assert (str "out/notes.txt" <> v2Destination (str "out")) as H2
    by (vm_compute; discriminate).
  assert (forall svc, svc ∈ [samples.service "a" "v1"] ->
            str "out/notes.txt" <> v3Destination (str "out") svc) as H3.
  { intros svc ->%list_elem_of_singleton. vm_compute. discriminate. }
  split; [exact H2|]. split; [exact H3|].
  split; [refine (bool_decide_unpack _ _); vm_compute; exact I|].
  split; [refine (bool_decide_unpack _ _); vm_compute; exact I|].
  exact (extraction_frame (samples.env_ok samples.spaced) (str "out")
           [samples.service "a" "v1"] _ _ H2 H3).
Defined.
End extras_run.

Section extras_confined.
Import run run_inv run_facts confine_inv run_more confine_facts.
Import apiregistrationv1 extract extract_inv extract_facts extraction_facts.

(** X9. The arguments of the calls [main.go] makes itself. Whatever
    happens in a run, no path is handed to [AbsPath] other than
    [/openapi/v2] and the v3 paths of the registered services, no
    directory name to [os.MkdirAll] other than the output directory and,
    when a service is registered, the name of its [v3] subdirectory, no
    file name to [os.WriteFile] other than the destinations, and
    [os.Exit] is called, if at all, with code 1. What the libraries do
    with these arguments, and what the test environment and the API
    server do on their own, is outside this statement. *)
Theorem run_confined env h w services :
  (forall t G, range h t G ≡ₚ elements G) ->
  StartWithExtensions h = inr services ->
  exists evs, trace (main env h w).2 = trace w ++ evs /\
    Forall (allowed (outputDir h) services) evs.
Proof.
  intros Hperm Hs.
  assert (exists evs, trace (extractOpenAPI env h w).2 = trace w ++ evs /\
            Forall (allowed (outputDir h) services) evs) as (evs & Htr & Hall).
  { rewrite extractOpenAPI_unfold, Hs. cbv zeta. unfold after. cbn [trace files].
    destruct (client_New h).
    { eexists. cbn [snd trace]. rewrite <- app_assoc. split; [done|].
      apply Forall_app. split; [by repeat constructor|]. apply allowed_teardown. by right. }
    destruct (apiserver_New h).
    { eexists. cbn [snd trace]. rewrite <- app_assoc. split; [done|].
      apply Forall_app. split; [by repeat constructor|]. apply allowed_teardown. by right. }
    destruct (apiSrv_Start h).
    { eexists. cbn [snd trace]. rewrite <- !app_assoc. split; [done|].
      apply Forall_app. split; [by repeat constructor|].
      apply Forall_app. split; [by repeat constructor|]. apply allowed_teardown. by right. }
    destruct (phases env h services _) as [r0 w0] eqn:Hp.
    eapply emits_run in Hp as (evs & Htr & Hall); [|by apply emits_allowed_phases].
    cbn [snd trace] in *. eexists. rewrite Htr, <- !app_assoc. split; [done|].
    apply Forall_app. split; [by repeat constructor|].
    apply Forall_app. split; [by repeat constructor|].
    apply Forall_app. split; [done|].
    apply Forall_app. split; apply allowed_teardown; [by left|by right]. }
  unfold main. destruct (extractOpenAPI env h w) as [[e|[]] w'] eqn:Hr; cbn [snd trace] in *.
  - exists (evs ++ [LogError e (str "failed to extract OpenAPI"); Exit 1]).
    rewrite Htr, <- app_assoc. split; [done|].
    apply Forall_app. split; [done|]. by repeat constructor.
  - by exists evs.
Qed.

Lemma run_confined_witness :
  let services := [samples.service "a" "v1"] in
  let h := samples_run.harness services in
  (forall t G, range h t G ≡ₚ elements G) /\
  StartWithExtensions h = inr services /\
  exists evs, trace (main (samples.env_ok samples.spaced) h samples.w0).2
              = trace samples.w0 ++ evs /\
    Forall (allowed (outputDir h) services) evs.
Proof.
  cbv zeta. split; [apply inOrder_perm|]. split; [reflexivity|].
  apply (run_confined (samples.env_ok samples.spaced)
           (samples_run.harness [samples.service "a" "v1"]) samples.w0
           [samples.service "a" "v1"]); [apply inOrder_perm|reflexivity].
Defined.

(** X10. Every process is stopped exactly when its start succeeded: the
    starts and stops of a run are, in order, the start of the control
    plane alone when it failed; with its stop when the run failed before
    the API server was started; with the start of the API server in
    between when that start failed; and both starts followed by both
    stops, the API server first, in every other run. *)
Theorem teardown_matches_startup env h w :
  exists evs,
    trace (extractOpenAPI env h w).2 = trace w ++ evs /\
    filter (fun ev => isProcess ev = true) evs =
      match StartWithExtensions h with
      | inl _ => [StartControlPlane]
      | inr _ =>
          match client_New h, apiserver_New h with
          | None, None =>
              match apiSrv_Start h with
              | Some _ => [StartControlPlane; StartAPIServer; StopControlPlane]
              | None =>
                  [StartControlPlane; StartAPIServer; StopAPIServer; StopControlPlane]
              end
          | _, _ => [StartControlPlane; StopControlPlane]
          end
      end.
Proof.
  rewrite extractOpenAPI_unfold. cbv zeta. unfold after. cbn [trace files].
  assert (forall ev r msg, isProcess ev = true ->
            filter (fun ev => isProcess ev = true) (teardown ev r msg) = [ev]) as Htd.
  { intros ev r msg Hev. unfold teardown. destruct r; cbn.
    - rewrite decide_True by done. done.
    - rewrite decide_True by done. done. }
  destruct (StartWithExtensions h) as [e|services].
  { eexists [_]. cbn [snd trace]. split; [done|]. done. }
  destruct (client_New h).
  { eexists. cbn [snd trace]. rewrite <- app_assoc. split; [done|].
    rewrite filter_app. unfold teardownControlPlane. rewrite Htd by done.
    cbn. by destruct (apiserver_New h). }
  destruct (apiserver_New h).
  { eexists. cbn [snd trace]. rewrite <- app_assoc. split; [done|].
    rewrite filter_app. unfold teardownControlPlane. by rewrite Htd by done. }
  destruct (apiSrv_Start h).
  { eexists. cbn [snd trace]. rewrite <- !app_assoc. split; [done|].
    rewrite !filter_app. unfold teardownControlPlane. rewrite Htd by done. reflexivity. }
  destruct (phases env h services _) as [r0 w0] eqn:Hp.
  apply phases_reqs in Hp as (evs & Htr & Hnp & _).
  cbn [snd trace] in *. eexists. rewrite Htr, <- !app_assoc. split; [done|].
  rewrite !filter_app. unfold teardownControlPlane, teardownAPIServer. rewrite !Htd by done.
  assert (filter (fun ev => isProcess ev = true) evs = []) as ->; [|reflexivity].
  clear Htr. induction Hnp as [|ev evs Hev _ IH]; [done|].
  rewrite filter_cons, decide_False by (by rewrite Hev). done.
Qed.

End extras_confined.

Section extras_outcome.
Import run run_inv run_facts confine_inv run_more filled_inv filled_facts.
Import apiregistrationv1 extract extract_inv extract_facts extraction_facts.

(** X11. After a run that [main] ends with code 0, [swagger.json] and the
    v3 file of every registered service exist and none of them is empty. *)
Theorem run_files_nonempty env h w services :
  StartWithExtensions h = inr services ->
  (main env h w).1 = 0%Z ->
  filled (files (main env h w).2) (v2Destination (outputDir h)) /\
  forall svc, svc ∈ services ->
    filled (files (main env h w).2) (v3Destination (outputDir h) svc).
Proof.
  intros Hs Hcode. rewrite main_code in Hcode. rewrite main_files.
  destruct (extractOpenAPI env h w) as [[e|[]] w'] eqn:Hrun; [done|].
  cbn [snd]. by apply (extractOpenAPI_filled env h w w' services).
Qed.

Lemma run_files_nonempty_witness :
  let services := [samples.service "a" "v1"] in
  let h := samples_run.harness services in
  let env := samples.env_ok samples.spaced in
  StartWithExtensions h = inr services /\ (main env h samples.w0).1 = 0%Z /\
  filled (files (main env h samples.w0).2) (v2Destination (outputDir h)) /\
  forall svc, svc ∈ services ->
    filled (files (main env h samples.w0).2) (v3Destination (outputDir h) svc).
Proof.
  cbv zeta. split; [reflexivity|].
  match goal with |- ?c = _ /\ _ =>
    assert (c = 0%Z) as Hc by (vm_compute; reflexivity)
  end.
  split; [exact Hc|].
  exact (run_files_nonempty (samples.env_ok samples.spaced)
           (samples_run.harness [samples.service "a" "v1"]) samples.w0
           [samples.service "a" "v1"] eq_refl Hc).
Defined.

(** X12. No document is fetched and no file is written before the readiness
    wait has returned nil: in a run with at least one fetch or write, the
    events begin with events that are no fetch and no write, the
    poller's events last among them, and the wait returned nil. *)
Theorem fetch_after_ready env h w services r w' evs :
  StartWithExtensions h = inr services ->
  extractOpenAPI env h w = (r, w') -> trace w' = trace w ++ evs ->
  reqs evs <> [] ->
  exists st t before rest,
    readiness h services = Some (None, st, t) /\
    evs = before ++ poller.events st ++ rest /\
    reqs (before ++ poller.events st) = [].
Proof.
  intros Hs. rewrite extractOpenAPI_unfold, Hs. cbv zeta. unfold after. cbn [trace files].
  assert (forall r : option error, reqs (teardown StopControlPlane r
            (str "failed to stop testenv")) = []) as Htc by (by intros []).
  assert (forall r : option error, reqs (teardown StopAPIServer r
            (str "failed to stop api server")) = []) as Hta by (by intros []).
  destruct (client_New h).
  { intros [= <- <-]. cbn [trace]. rewrite <- app_assoc. intros <-%app_inv_head.
    rewrite reqs_app. unfold teardownControlPlane. by rewrite Htc. }
  destruct (apiserver_New h).
  { intros [= <- <-]. cbn [trace]. rewrite <- app_assoc. intros <-%app_inv_head.
    rewrite reqs_app. unfold teardownControlPlane. by rewrite Htc. }
  destruct (apiSrv_Start h).
  { intros [= <- <-]. cbn [trace]. rewrite <- !app_assoc. intros <-%app_inv_head.
    rewrite !reqs_app. unfold teardownControlPlane. by rewrite Htc. }
  rewrite phases_unfold. cbv zeta. unfold after. cbn [trace files].
  unfold teardownControlPlane, teardownAPIServer.
  destruct (WaitUntilAPIServicesReadyWithTimeout h).
  { intros [= <- <-]. cbn [trace]. rewrite <- !app_assoc. intros <-%app_inv_head.
    rewrite !reqs_app. by rewrite Htc, Hta. }
  destruct (kubernetes_NewForConfig h).
  { intros [= <- <-]. cbn [trace]. rewrite <- !app_assoc. intros <-%app_inv_head.
    rewrite !reqs_app. by rewrite Htc, Hta. }
  destruct (readiness h services) as [[[[e|] st] t]|] eqn:Hw.
  - intros [= <- <-]. cbn [trace]. rewrite <- !app_assoc. intros <-%app_inv_head.
    rewrite !reqs_app, Htc, Hta.
    rewrite (reqs_silent (poller.events st)); [done|].
    eapply Forall_impl; [by eapply waitFor_events|]. apply pollEvent_silent.
  - intros Hrun Htr _. exists st, t.
    assert (reqs (poller.events st) = []) as Hq.
    { apply reqs_silent. eapply Forall_impl; [by eapply waitFor_events|].
      apply pollEvent_silent. }
    destruct (extractOpenAPIv2 env (outputDir h) _) as [r2 w3] eqn:H2.
    eapply emits_run in H2 as (e2 & Ht2 & _); [|apply emits_extractOpenAPIv2].
    cbn [trace] in Ht2.
    assert (exists e3, trace w' = trace w3 ++ e3) as [e3 Ht3].
    { destruct r2 as [e|[]].
      - injection Hrun as <- <-. cbn [snd trace]. rewrite <- app_assoc. by eexists.
      - destruct (orWrap _ _ w3) as [r3 w4] eqn:H3.
        apply orWrap_inv in H3 as (r3' & H3 & _).
        eapply emits_run in H3 as (e3 & Ht3 & _); [|apply emits_extractOpenAPIv3].
        injection Hrun as <- <-. cbn [snd trace]. rewrite Ht3, <- !app_assoc. by eexists. }
    rewrite Ht3, Ht2, <- !app_assoc in Htr. apply app_inv_head in Htr as <-.
    exists [StartControlPlane; StartAPIServer; WaitAPIServicesReady], (e2 ++ e3).
    split; [done|]. split; [done|]. by rewrite reqs_app, Hq.
  - intros [= <- <-]. cbn [trace]. rewrite <- !app_assoc. intros <-%app_inv_head.
    rewrite !reqs_app. by rewrite Htc, Hta.
Qed.

Lemma fetch_after_ready_witness :
  let services := [samples.service "a" "v1"] in
  let h := samples_run.harness services in
  let res := extractOpenAPI (samples.env_ok samples.spaced) h samples.w0 in
  StartWithExtensions h = inr services /\ res = (res.1, res.2) /\
  trace res.2 = trace samples.w0 ++ trace res.2 /\
  reqs (trace res.2) <> [] /\
  exists st t before rest,
    readiness h services = Some (None, st, t) /\
    trace res.2 = before ++ poller.events st ++ rest /\
    reqs (before ++ poller.events st) = [].
Proof.
  cbv zeta. split; [reflexivity|].
  match goal with |- ?r = _ /\ _ =>
    assert (r = (r.1, r.2)) as Hr by (by destruct r)
  end.
  split; [exact Hr|].
  match goal with |- ?P /\ _ => assert P as Ht by reflexivity end.
  split; [exact Ht|].
  match goal with |- ?P /\ _ => assert P as Hq by (vm_compute; discriminate) end.
  split; [exact Hq|].
  exact (fetch_after_ready (samples.env_ok samples.spaced)
           (samples_run.harness [samples.service "a" "v1"]) samples.w0
           [samples.service "a" "v1"] _ _ _ eq_refl Hr Ht Hq).
Defined.

End extras_outcome.

Section extras_persist.
Import json_inv json_facts json_more filepath filepath_inv filepath_facts layout_facts.
Import apiregistrationv1 extract extract_inv extract_facts extraction_facts.

(** X13. [writeJSONFile] stores only what [json.Compact] accepts. A payload
    that [json.Compact] rejects is never written: the call fails, no file
    changes, no [os.WriteFile] is issued, and unless the directory could
    not be created the error is [json.Compact]'s own error under "failed
    to pretty print JSON". A payload that [json.Compact] accepts never
    fails with that message. *)
Theorem writeJSONFile_valid_only env dir name payload w :
  let r := persist.writeJSONFile env dir name payload w in
  (forall e, json.Compact payload = inl e ->
     files r.2 = files w /\
     (forall f d, WriteFile f d ∈ trace r.2 -> WriteFile f d ∈ trace w) /\
     (r.1 = inl (wrap (str "failed to pretty print JSON") e) \/
      exists e0, r.1 = inl (wrap (str "failed to create output directory " ++ dir) e0))) /\
  (forall c, json.Compact payload = inr c ->
     forall e, r.1 <> inl (wrap (str "failed to pretty print JSON") e)).
Proof.
  cbv zeta. rewrite writeJSONFile_unfold. cbv zeta. split.
  - intros e He. apply (Indent_error_iff [] ["009"]) in He.
    destruct (os_MkdirAll env _ dir) as [e0|]; cbn [fst snd files trace].
    + split; [done|]. split; [|right; by exists e0]. intros f d. trace_mem.
    + rewrite He. cbn [fst snd files trace]. split; [done|]. split; [|by left].
      intros f d. trace_mem.
  - intros c Hc e.
    destruct (os_MkdirAll env _ dir) as [e0|]; cbn [fst].
    { intros H. discriminate H. }
    destruct (json.Indent [] ["009"] payload) as [e1|out] eqn:Hi.
    { apply (Indent_error_iff [] ["009"]) in Hi. congruence. }
    destruct (os_WriteFile env _ _ _); cbn [fst]; [done|..]; intros H; discriminate H.
Qed.

Lemma writeJSONFile_valid_only_witness :
  let payload := str "{" in
  let e := ext (str "unexpected end of JSON input") in
  let r := persist.writeJSONFile (samples.env_ok payload) (str "out") (str "swagger.json")
             payload samples.w0 in
  json.Compact payload = inl e /\
  files r.2 = files samples.w0 /\
  (forall f d, WriteFile f d ∈ trace r.2 -> WriteFile f d ∈ trace samples.w0) /\
  (r.1 = inl (wrap (str "failed to pretty print JSON") e) \/
   exists e0, r.1 = inl (wrap (str "failed to create output directory " ++ str "out") e0)).
Proof.
  cbv zeta.
  assert (json.Compact (str "{") = inl (ext (str "unexpected end of JSON input"))) as Hc
    by (vm_compute; reflexivity).
  split; [exact Hc|].
  exact (proj1 (writeJSONFile_valid_only (samples.env_ok (str "{")) (str "out")
                  (str "swagger.json") (str "{") samples.w0) _ Hc).
Defined.

(** X14. A response of white space only, the empty response included, is not
    stored: [writeJSONFile] first creates the directory, then fails with
    "failed to pretty print JSON: unexpected end of JSON input", and no
    file is created or changed. *)
Theorem writeJSONFile_blank_payload env dir name payload w :
  allSpace payload ->
  let line := LogInfo (str "Writing file") [str "OutputDirectory"; dir; str "File"; name] in
  os_MkdirAll env (trace w ++ [line]) dir = None ->
  persist.writeJSONFile env dir name payload w =
    (inl (wrap (str "failed to pretty print JSON")
               (ext (str "unexpected end of JSON input"))),
     {| trace := trace w ++ [line; MkdirAll dir]; files := files w |}).
Proof.
  intros Hws line Hmk. rewrite writeJSONFile_unfold. cbv zeta. fold line.
  rewrite Hmk, (Indent_blank [] ["009"] payload Hws). by rewrite <- app_assoc.
Qed.

Lemma writeJSONFile_blank_payload_witness :
  let payload := [" "; "010"] in
  let line := LogInfo (str "Writing file")
                [str "OutputDirectory"; str "out"; str "File"; str "swagger.json"] in
  allSpace payload /\
  os_MkdirAll (samples.env_ok payload) (trace samples.w0 ++ [line]) (str "out") = None /\
  persist.writeJSONFile (samples.env_ok payload) (str "out") (str "swagger.json") payload
    samples.w0 =
    (inl (wrap (str "failed to pretty print JSON")
               (ext (str "unexpected end of JSON input"))),
     {| trace := trace samples.w0 ++ [line; MkdirAll (str "out")];
        files := files samples.w0 |}).
Proof.
  cbv zeta.
  assert (allSpace [" "; "010"]) as Hws by (by repeat constructor).
  split; [exact Hws|]. split; [reflexivity|].
  exact (writeJSONFile_blank_payload (samples.env_ok [" "; "010"]) (str "out")
           (str "swagger.json") _ samples.w0 Hws eq_refl).
Defined.

(** X15. Whatever the group and the version of a service are, its v3 file is
    written directly inside the cleaned [<output>/v3], under a name that
    holds no separator and ends in [_openapi.json]: the v3 loop cannot
    write outside that directory. *)
Theorem v3_file_inside out svc :
  exists stem,
    noSep stem /\
    v3Destination out svc
      = Clean (v3Dir out) ++ str "/" ++ stem ++ str "_openapi.json".
Proof.
  destruct (v3_base svc) as (stem & Hs & Hb). exists stem. split; [done|].
  unfold v3Destination, persist.destination.
  rewrite Join_dir_elem by apply v3_base_proper.
  destruct (v3Dir_clean out) as [H1 H2]. unfold inDir.
  rewrite decide_False by done. rewrite decide_False by done. by rewrite Hb.
Qed.

(** X16. Where the two kinds of document go. For an output directory that
    is given, the file name handed to [os.WriteFile] for [swagger.json] is
    that entry of the cleaned output directory, and the one of a v3
    document is an entry of the entry [v3] of the same directory. With
    the empty output directory nothing is written where [os.MkdirAll]
    refuses the empty name: [extractOpenAPIv2], once it has its response,
    fails with that error, wrapped, without a call of [os.WriteFile], and
    leaves every file as it was. *)
Theorem output_layout env out svc w :
  (out <> [] ->
   v2Destination out = inDir (Clean out) (str "swagger.json") /\
   Clean (v3Dir out) = inDir (Clean out) (str "v3") /\
   exists stem, noSep stem /\
     v3Destination out svc
       = inDir (Clean out) (str "v3") ++ str "/" ++ stem ++ str "_openapi.json") /\
  (forall resp e,
     let tr := trace w ++ [LogInfo (str "Extracting OpenAPI v2") [];
                           Get (str "/openapi/v2");
                           LogInfo (str "Writing file")
                             [str "OutputDirectory"; []; str "File"; str "swagger.json"]] in
     http_get env (trace w ++ [LogInfo (str "Extracting OpenAPI v2") []]) (str "/openapi/v2")
       = inr resp ->
     os_MkdirAll env tr [] = Some e ->
     extractOpenAPIv2 env [] w =
       (inl (wrap (str "failed to write OpenAPI v2 file")
               (wrap (str "failed to create output directory ") e)),
        {| trace := tr ++ [MkdirAll []]; files := files w |})).
Proof.
  split.
  - intros Hne. split; [apply v2Destination_name|].
    assert (Clean (v3Dir out) = inDir (Clean out) (str "v3")) as Hv3.
    { unfold v3Dir. apply (Clean_snoc out (str "v3") Hne).
      split; [done|]. split; [by repeat constructor|]. done. }
    split; [done|].
    destruct (v3_base svc) as (stem & Hs & Hb). exists stem. split; [done|].
    unfold v3Destination, persist.destination.
    rewrite Join_dir_elem by apply v3_base_proper.
    destruct (v3Dir_clean out) as [H1 H2]. unfold inDir at 1.
    rewrite decide_False by done. rewrite decide_False by done. by rewrite Hb, Hv3.
  - intros resp e tr Hget Hmk.
    unfold extractOpenAPIv2, mbind, M_bind, emit. cbn [fst snd].
    unfold orWrap at 1. rewrite getPath_unfold. cbv zeta. cbn [trace files].
    rewrite Hget. unfold orWrap. rewrite writeJSONFile_unfold. cbv zeta. cbn [trace files].
    rewrite <- !app_assoc. cbn [app]. unfold tr in Hmk. rewrite Hmk.
    unfold tr. by rewrite <- !app_assoc.
Qed.

End extras_persist.

Section extras_healthy.
Import run run_inv run_facts confine_inv run_more filled_inv filled_facts healthy_facts.
Import apiregistrationv1 extract extract_inv extract_facts extraction_facts.
Import json_inv json_facts reindent_facts.

(** X17. A healthy run succeeds. When every collaborator succeeds, every
    fetched document is well-formed, no signal arrives, every
    group-version answers its probe, within [b], and the timeout leaves
    room for one such probe per group-version, [main] exits with code 0
    after one round of probes, and the documents of all services are on
    disk. *)
Theorem run_succeeds env h w services b :
  cooperative env ->
  StartWithExtensions h = inr services -> client_New h = None ->
  apiserver_New h = None -> apiSrv_Start h = None ->
  WaitUntilAPIServicesReadyWithTimeout h = None -> kubernetes_NewForConfig h = None ->
  (forall t G, range h t G ≡ₚ elements G) ->
  signalAt h = None -> (forall t g, head h t g = true) ->
  0 < b -> (forall t g, latency h t g <= b) ->
  size (poller.initialGVs services) * b <= openapiTimeout h ->
  (main env h w).1 = 0%Z /\
  (exists st t, readiness h services = Some (None, st, t) /\ length (poller.rounds st) = 1) /\
  filled (files (main env h w).2) (v2Destination (outputDir h)) /\
  forall svc, svc ∈ services ->
    filled (files (main env h w).2) (v3Destination (outputDir h) svc).
Proof.
  intros Hcoop Hs Hc Ha Hst Hwr Hk Hperm Hsig Hup Hb Hlat Hsz.
  destruct (waitFor_up (head h) (latency h) (range h) (tickFirst h) (second h)
              (openapiTimeout h) services b Hperm Hup Hb Hlat Hsz) as (st & t & Hw & Ht & Hone).
  assert (readiness h services = Some (None, st, t)) as Hr.
  { unfold readiness, signalCtx. rewrite Hsig. exact Hw. }
  assert (exists w', extractOpenAPI env h w = (inr tt, w')) as [w' Hrun].
  { rewrite extractOpenAPI_unfold, Hs, Hc, Ha, Hst. cbv zeta.
    rewrite phases_unfold, Hwr, Hk, Hr. cbv zeta.
    destruct (extractOpenAPIv2_cooperative env Hcoop (outputDir h)
                (after (after (after (after w [StartControlPlane]) [StartAPIServer])
                   [WaitAPIServicesReady]) (poller.events st))) as [w3 ->].
    unfold orWrap.
    destruct (extractOpenAPIv3_cooperative env Hcoop services (outputDir h) w3) as [w4 ->].
    by eexists. }
  split; [by rewrite main_code; unfold result_of; rewrite Hrun|].
  split; [by eauto|].
  rewrite main_files, Hrun. cbn [snd].
  by apply (extractOpenAPI_filled env h w w' services).
Qed.

Lemma run_succeeds_witness :
  let services := [samples.service "a" "v1"; samples.service "b" "v2"] in
  let h := samples_up.harness_up services in
  let env := samples.env_ok samples.spaced in
  cooperative env /\
  StartWithExtensions h = inr services /\ client_New h = None /\
  apiserver_New h = None /\ apiSrv_Start h = None /\
  WaitUntilAPIServicesReadyWithTimeout h = None /\ kubernetes_NewForConfig h = None /\
  (forall t G, range h t G ≡ₚ elements G) /\
  signalAt h = None /\ (forall t g, head h t g = true) /\
  0 < 1 /\ (forall t g, latency h t g <= 1) /\
  size (poller.initialGVs services) * 1 <= openapiTimeout h /\
  (main env h samples.w0).1 = 0%Z /\
  (exists st t, readiness h services = Some (None, st, t) /\ length (poller.rounds st) = 1) /\
  filled (files (main env h samples.w0).2) (v2Destination (outputDir h)) /\
  forall svc, svc ∈ services ->
    filled (files (main env h samples.w0).2) (v3Destination (outputDir h) svc).
Proof.
  cbv zeta.
  assert (cooperative (samples.env_ok samples.spaced)) as Hco.
  { split; [|done]. intros hst p. exists samples.spaced.
    exists (default [] (match json.Indent [] ["009"] samples.spaced with
                        | inr o => Some o | inl _ => None end)).
    split; [reflexivity|]. vm_compute. reflexivity. }
  assert (size (poller.initialGVs [samples.service "a" "v1"; samples.service "b" "v2"]) * 1
          <= openapiTimeout (samples_up.harness_up
               [samples.service "a" "v1"; samples.service "b" "v2"])) as Hsz.
  { vm_compute. lia. }
  assert (0 < 1) as Hb by lia.
  assert (forall (t : nat) (g : GroupVersion), samples.oneTick t g <= 1) as Hlat
    by (intros; unfold samples.oneTick; lia).
  split; [exact Hco|]. do 6 (split; [reflexivity|]).
  split; [apply inOrder_perm|]. split; [reflexivity|]. split; [done|].
  split; [exact Hb|]. split; [exact Hlat|].
  split; [exact Hsz|].
  exact (run_succeeds (samples.env_ok samples.spaced)
           (samples_up.harness_up [samples.service "a" "v1"; samples.service "b" "v2"])
           samples.w0 [samples.service "a" "v1"; samples.service "b" "v2"] 1
           Hco eq_refl eq_refl eq_refl eq_refl eq_refl eq_refl inOrder_perm eq_refl
           (fun _ _ => eq_refl) Hb Hlat Hsz).
Defined.

(** X18. What [writeJSONFile] stored is left as it is by the pretty-printer:
    [json.Indent] maps the stored bytes to themselves, so writing them
    again, anywhere, stores the same bytes. *)
Theorem writeJSONFile_idempotent env dir name payload w w' :
  persist.writeJSONFile env dir name payload w = (inr tt, w') ->
  exists stored,
    files w' !! persist.destination dir name = Some stored /\
    json.Indent [] ["009"] stored = inr stored /\
    forall env2 dir2 name2 w2 w2',
      persist.writeJSONFile env2 dir2 name2 stored w2 = (inr tt, w2') ->
      files w2' !! persist.destination dir2 name2 = Some stored.
Proof.
  intros Hw. apply writeJSONFile_spec in Hw as (evs & _ & Hcase).
  destruct Hcase as [(e & ? & _)|[(e & o & ? & _)|(o & _ & Hi & Hf & _)]]; [done..|].
  assert (json.Indent [] ["009"] o = inr o) as Hidem.
  { apply (Indent_idempotent [] ["009"]) with (src := payload);
      [constructor|by repeat constructor|done]. }
  exists o. split; [by rewrite Hf, lookup_insert_eq|]. split; [done|].
  intros env2 dir2 name2 w2 w2' Hw2.
  apply writeJSONFile_spec in Hw2 as (evs2 & _ & Hcase).
  destruct Hcase as [(e & ? & _)|[(e & o2 & ? & _)|(o2 & _ & Hi2 & Hf2 & _)]]; [done..|].
  rewrite Hidem in Hi2. injection Hi2 as <-. by rewrite Hf2, lookup_insert_eq.
Qed.

Lemma writeJSONFile_idempotent_witness :
  let r := persist.writeJSONFile (samples.env_ok samples.spaced) (str "out")
             (str "swagger.json") samples.spaced samples.w0 in
  r = (inr tt, r.2) /\
  exists stored,
    files r.2 !! persist.destination (str "out") (str "swagger.json") = Some stored /\
    json.Indent [] ["009"] stored = inr stored /\
    forall env2 dir2 name2 w2 w2',
      persist.writeJSONFile env2 dir2 name2 stored w2 = (inr tt, w2') ->
      files w2' !! persist.destination dir2 name2 = Some stored.
Proof.
  cbv zeta.
  match goal with |- ?r = _ /\ _ =>
    assert (r = (inr tt, r.2)) as Hr by (apply pair_eta_eq; vm_compute; reflexivity)
  end.
  split; [exact Hr|].
  exact (writeJSONFile_idempotent (samples.env_ok samples.spaced) (str "out")
           (str "swagger.json") samples.spaced samples.w0 _ Hr).
Defined.

End extras_healthy.

Section extras_legacy.
Import run run_inv run_facts legacy_facts legacy_inv.

(** X19. In the first revision a failure leaves the started processes
    running: [main] leaves through [os.Exit(1)], so neither deferred stop
    runs, whichever step failed. Only a run in which every step succeeds
    stops the API server and then the control plane, and returns. *)
Theorem legacy_exit_skips_teardown env h w :
  exists evs,
    trace (legacy.main env h w).2 = trace w ++ evs /\
    ((legacy.main env h w).1 = 0%Z /\
     filter (fun ev => isProcess ev = true) evs
       = [StartControlPlane; StartAPIServer; StopAPIServer; StopControlPlane] /\
     Exit 1 ∉ evs
     \/
     (legacy.main env h w).1 = 1%Z /\
     Forall noStop evs /\ last evs = Some (Exit 1)).
Proof.
  assert (forall evs : list Event, Forall ioEvent evs -> Forall noStop evs) as Hio.
  { intros evs H. eapply Forall_impl; [exact H|]. intros ev Hev. by destruct ev. }
  assert (forall evs : list Event, Forall ioEvent evs ->
            filter (fun ev => isProcess ev = true) evs = [] /\ Exit 1 ∉ evs) as Hio2.
  { induction 1 as [|ev evs Hev _ [IH1 IH2]]; [split; [done|apply not_elem_of_nil]|].
    split.
    - rewrite filter_cons, decide_False; [done|]. by rewrite (ioEvent_noproc _ Hev).
    - rewrite not_elem_of_cons. split; [|done]. intros <-. done. }
  unfold legacy.main, legacy.exit, legacy.record. cbn [trace files].
  destruct (StartWithExtensions h) as [e|services].
  { eexists. cbn [snd fst trace]. rewrite <- app_assoc. split; [done|]. right.
    split; [done|]. split; [|done]. by repeat constructor. }
  destruct (client_New h).
  { eexists. cbn [snd fst trace]. rewrite <- app_assoc. split; [done|]. right.
    split; [done|]. split; [|done]. by repeat constructor. }
  destruct (apiserver_New h).
  { eexists. cbn [snd fst trace]. rewrite <- app_assoc. split; [done|]. right.
    split; [done|]. split; [|done]. by repeat constructor. }
  destruct (apiSrv_Start h).
  { eexists. cbn [snd fst trace]. rewrite <- !app_assoc. split; [done|]. right.
    split; [done|]. split; [|done]. by repeat constructor. }
  destruct (WaitUntilAPIServicesReadyWithTimeout h).
  { eexists. cbn [snd fst trace]. rewrite <- !app_assoc. split; [done|]. right.
    split; [done|]. split; [|done]. by repeat constructor. }
  destruct (kubernetes_NewForConfig h).
  { eexists. cbn [snd fst trace]. rewrite <- !app_assoc. split; [done|]. right.
    split; [done|]. split; [|done]. by repeat constructor. }
  destruct (legacy.extractOpenAPIv2 env (outputDir h) _) as [r2 w2] eqn:H2.
  eapply emits_run in H2 as (e2 & Ht2 & Hp2); [|apply emits_legacy_v2].
  cbn [trace] in Ht2.
  destruct r2 as [e|[]].
  { eexists. cbn [snd fst trace]. rewrite Ht2, <- !app_assoc. split; [done|]. right.
    split; [done|]. split.
    - repeat (apply Forall_cons; split; [done|]). apply Forall_app. split; [by apply Hio|].
      by repeat constructor.
    - by rewrite !last_app. }
  destruct (legacy.extractOpenAPIv3 env services (outputDir h) w2) as [r3 w3] eqn:H3.
  eapply emits_run in H3 as (e3 & Ht3 & Hp3); [|apply emits_legacy_v3].
  destruct r3 as [e|[]].
  { eexists. cbn [snd fst trace]. rewrite Ht3, Ht2, <- !app_assoc. split; [done|]. right.
    split; [done|]. split.
    - repeat (apply Forall_cons; split; [done|]).
      apply Forall_app. split; [by apply Hio|].
      apply Forall_app. split; [by apply Hio|]. by repeat constructor.
    - by rewrite !last_app. }
  eexists. cbn [snd fst trace]. rewrite Ht3, Ht2, <- !app_assoc. split; [done|]. left.
  split; [done|].
  destruct (Hio2 _ Hp2) as [Hf2 Hx2]. destruct (Hio2 _ Hp3) as [Hf3 Hx3]. split.
  - rewrite !filter_app, Hf2, Hf3. reflexivity.
  - rewrite !elem_of_app, !elem_of_cons, elem_of_nil. intros Hin.
    repeat (destruct Hin as [Hin|Hin]; try done).
Qed.

End extras_legacy.

(** * Further properties: the deadline, the content of the files *)

Section extras_deadline.
Import context poller poller_inv poller_facts poller_more deadline_facts.

(** X20. With a timeout of zero and at least one registered service the
    readiness wait cannot succeed, even when every endpoint is up: the
    condition still runs once, every probe of that single round fails at
    once under the expired context, and the wait returns the deadline
    error without any time having passed. *)
Theorem poller_zero_timeout head latency range tickFirst second services :
  (forall t G, range t G ≡ₚ elements G) -> services <> [] ->
  exists st,
    waitForAPIServicesOpenAPIV3 head latency range tickFirst second Background 0 services
      = Some (Some (wrap (str "error waiting for api services to become available")
                         ctxDeadlineExceeded), st, 0) /\
    testGVs st = initialGVs services /\
    exists rd, rounds st = [rd] /\ Forall (fun p => p.2 = false) (probes rd) /\
      length (probes rd) = size (initialGVs services).
Proof.
  intros Hperm Hne.
  assert (initialGVs services <> ∅) as Hset.
  { destruct services as [|svc l]; [done|]. unfold initialGVs. cbn. set_solver. }
  assert (doneAt (WithTimeout Background 0 0) = Some 0) as HD by done.
  assert (length (range 0 (initialGVs services)) = size (initialGVs services)) as Hlen.
  { by rewrite Hperm. }
  assert (list_to_set (range 0 (initialGVs services)) = initialGVs services) as Hsame.
  { apply set_eq. intros g. rewrite elem_of_list_to_set, Hperm. apply elem_of_elements. }
  unfold waitForAPIServicesOpenAPIV3, wait.PollUntilContextTimeout, condition.
  cbn [testGVs rounds events].
  destruct (probeAll_dead head latency (WithTimeout Background 0 0) 0
              (range 0 (initialGVs services)) 0 HD) as [Hps Hend]; [lia|].
  rewrite Hps, Hend, failed_all, Hsame.
  rewrite bool_decide_false.
  2: { intros Hz. apply Hset. apply leibniz_equiv. by apply size_empty_inv. }
  rewrite loop_S. cbv zeta.
  assert (wait.leaves tickFirst (WithTimeout Background 0 0) 0 (0 + second) = true) as ->.
  { unfold wait.leaves. rewrite HD. cbv zeta.
    destruct (decide (0 < second)) as [Hpos|Hz].
    - rewrite bool_decide_true by lia. done.
    - assert (second = 0) as -> by lia. cbn. done. }
  rewrite HD. unfold Err. cbn [cancelAt deadlineAt WithTimeout Background].
  rewrite bool_decide_true by lia.
  eexists. split; [reflexivity|]. cbn [testGVs rounds].
  split; [done|]. eexists. split; [done|]. cbn [probes]. split.
  - apply Forall_fmap. by apply Forall_true.
  - by rewrite length_fmap.
Qed.

Lemma poller_zero_timeout_witness :
  let services := [samples.service "a" "v1"] in
  (forall t G, samples.inOrder t G ≡ₚ elements G) /\ services <> [] /\
  exists st,
    waitForAPIServicesOpenAPIV3 (fun _ _ => true) samples.oneTick samples.inOrder
      samples.tickWins 1 Background 0 services
      = Some (Some (wrap (str "error waiting for api services to become available")
                         ctxDeadlineExceeded), st, 0) /\
    testGVs st = initialGVs services /\
    exists rd, rounds st = [rd] /\ Forall (fun p => p.2 = false) (probes rd) /\
      length (probes rd) = size (initialGVs services).
Proof.
  cbv zeta. split; [apply extraction_facts.inOrder_perm|].
  assert ([samples.service "a" "v1"] <> []) as Hne by done.
  split; [exact Hne|].
  exact (poller_zero_timeout (fun _ _ => true) samples.oneTick samples.inOrder
           samples.tickWins 1 _ extraction_facts.inOrder_perm Hne).
Defined.

End extras_deadline.

Section extras_content.
Import run run_inv run_facts confine_inv run_more run_frame_facts content_facts.
Import apiregistrationv1 extract extract_inv extract_facts extraction_facts.

(** X21. [swagger.json] is never overwritten by a v3 document: whatever the
    output directory, the group and the version are, the v3 file of a
    service and [swagger.json] are different paths. *)
Theorem swagger_never_overwritten out svc :
  v3Destination out svc <> v2Destination out /\
  forall env services w,
    files (extractOpenAPIv3 env services out w).2 !! v2Destination out
    = files w !! v2Destination out.
Proof.
  split; [apply v3_v2_apart|]. intros env services w.
  apply extractOpenAPIv3_frame. intros s _ Heq. by apply (v3_v2_apart out s).
Qed.

(** X22. After a run that returns nil, [swagger.json] holds the pretty-printed
    form of the response to the run's request for [/openapi/v2], the one
    sent right after the readiness wait. *)
Theorem run_swagger_content env h w w' services :
  StartWithExtensions h = inr services ->
  extractOpenAPI env h w = (inr tt, w') ->
  exists st t resp stored,
    readiness h services = Some (None, st, t) /\
    http_get env
      (trace w ++ [StartControlPlane; StartAPIServer; WaitAPIServicesReady]
         ++ poller.events st ++ [LogInfo (str "Extracting OpenAPI v2") []])
      (str "/openapi/v2") = inr resp /\
    json.Indent [] ["009"] resp = inr stored /\
    files w' !! v2Destination (outputDir h) = Some stored.
Proof.
  intros Hs. rewrite extractOpenAPI_unfold, Hs. cbv zeta.
  destruct (client_New h); [done|]. destruct (apiserver_New h); [done|].
  destruct (apiSrv_Start h); [done|].
  destruct (phases env h services _) as [r0 w0] eqn:Hp. cbn [fst snd].
  intros [= -> <-]. unfold after at 1 2. cbn [files].
  rewrite phases_unfold in Hp. cbv zeta in Hp.
  destruct (WaitUntilAPIServicesReadyWithTimeout h); [done|].
  destruct (kubernetes_NewForConfig h); [done|].
  destruct (readiness h services) as [[[[e|] st] t]|]; [done| |done].
  destruct (extractOpenAPIv2 env (outputDir h) _) as [[e|[]] w3] eqn:H2; [done|].
  apply extractOpenAPIv2_ok in H2 as (resp & stored & Hget & Hi & Hf).
  exists st, t, resp, stored. split; [done|]. split.
  { unfold after in Hget. cbn [trace] in Hget. by rewrite <- !app_assoc in Hget. }
  split; [done|].
  apply orWrap_inv in Hp as (r3 & H3 & Hr3).
  pose proof (extractOpenAPIv3_frame env (outputDir h) services w3
                (v2Destination (outputDir h))) as Hfr.
  rewrite H3 in Hfr. cbn [snd] in Hfr. rewrite Hfr.
  - by rewrite Hf, lookup_insert_eq.
  - intros s _ Heq. by apply (v3_v2_apart (outputDir h) s).
Qed.

Lemma run_swagger_content_witness :
  let services := [samples.service "a" "v1"] in
  let h := samples_run.harness services in
  let env := samples.env_ok samples.spaced in
  let res := extractOpenAPI env h samples.w0 in
  StartWithExtensions h = inr services /\ res = (inr tt, res.2) /\
  exists st t resp stored,
    readiness h services = Some (None, st, t) /\
    http_get env
      (trace samples.w0 ++ [StartControlPlane; StartAPIServer; WaitAPIServicesReady]
         ++ poller.events st ++ [LogInfo (str "Extracting OpenAPI v2") []])
      (str "/openapi/v2") = inr resp /\
    json.Indent [] ["009"] resp = inr stored /\
    files res.2 !! v2Destination (outputDir h) = Some stored.
Proof.
  cbv zeta. split; [reflexivity|].
  match goal with |- ?r = _ /\ _ =>
    assert (r = (inr tt, r.2)) as Hr by (apply pair_eta_eq; vm_compute; reflexivity)
  end.
  split; [exact Hr|].
  exact (run_swagger_content (samples.env_ok samples.spaced)
           (samples_run.harness [samples.service "a" "v1"]) samples.w0 _
           [samples.service "a" "v1"] eq_refl Hr).
Defined.

End extras_content.

Section extras_served.
Import run run_inv run_facts confine_inv run_more run_frame_facts served_inv served_facts.
Import apiregistrationv1 extract extract_inv extract_facts extraction_facts.

(** X23. After a run that returns nil, the v3 file of every registered service
    holds the pretty-printed form of a document the run fetched: the
    response to the request for the v3 path of that service or, when
    several registered services share the destination, of one of them. *)
Theorem run_v3_content env h w w' services svc :
  StartWithExtensions h = inr services ->
  extractOpenAPI env h w = (inr tt, w') ->
  svc ∈ services ->
  served env (outputDir h) services w' (v3Destination (outputDir h) svc).
Proof.
  intros Hs. rewrite extractOpenAPI_unfold, Hs. cbv zeta.
  destruct (client_New h); [done|]. destruct (apiserver_New h); [done|].
  destruct (apiSrv_Start h); [done|].
  destruct (phases env h services _) as [r0 w0] eqn:Hp. cbn [fst snd].
  intros [= -> <-] Hin.
  rewrite phases_unfold in Hp. cbv zeta in Hp.
  destruct (WaitUntilAPIServicesReadyWithTimeout h); [done|].
  destruct (kubernetes_NewForConfig h); [done|].
  destruct (readiness h services) as [[[[e|] st] t]|]; [done| |done].
  destruct (extractOpenAPIv2 env (outputDir h) _) as [[e|[]] w3] eqn:H2; [done|].
  apply orWrap_inv in Hp as (r3 & H3 & Hr3). destruct r3 as [|[]]; [done|].
  destruct (extractOpenAPIv3_served env (outputDir h) services w3 w0 H3 svc Hin)
    as (s & stored & Hs' & Hd & Hfe & Hfi).
  exists s, stored. split; [done|]. split; [done|]. split; [|done].
  eapply fetched_mono; [|exact Hfe]. unfold after. cbn [trace].
  rewrite <- app_assoc. by apply prefix_app_r.
Qed.

Lemma run_v3_content_witness :
  let services := [samples.service "a" "v1"] in
  let h := samples_run.harness services in
  let env := samples.env_ok samples.spaced in
  let res := extractOpenAPI env h samples.w0 in
  StartWithExtensions h = inr services /\ res = (inr tt, res.2) /\
  samples.service "a" "v1" ∈ services /\
  served env (outputDir h) services res.2
    (v3Destination (outputDir h) (samples.service "a" "v1")).
Proof.
  cbv zeta. split; [reflexivity|].
  match goal with |- ?r = _ /\ _ =>
    assert (r = (inr tt, r.2)) as Hr by (apply pair_eta_eq; vm_compute; reflexivity)
  end.
  split; [exact Hr|].
  assert (samples.service "a" "v1" ∈ [samples.service "a" "v1"]) as Hin by (by left).
  split; [exact Hin|].
  exact (run_v3_content (samples.env_ok samples.spaced)
           (samples_run.harness [samples.service "a" "v1"]) samples.w0 _
           [samples.service "a" "v1"] _ eq_refl Hr Hin).
Defined.

End extras_served.
